(** * Maktaba for Gemini: the library store of [src/content.js]

    A shallow embedding of the data layer of the extension: the folder tree
    with its chat references, the flat chat dictionary, the quota gatekeeper
    of [saveAndRefresh], the storage-change listener of [setupAutoSync], the
    unlinked-chat collector and the search tokenizer with [isMatch].

    Conventions.
    - A JavaScript string is a [string] read as a sequence of code units in
      the Latin-1 range (0..255); the character classes and case mapping
      below are the ECMAScript ones restricted to that range.
    - A JavaScript number that holds an integer (folder ids and time stamps
      come from [Date.now()]) is a [Z].
    - The library object [folderData] is mutated in place by the source.  A
      folder reached through [getFolderContext] is identified here by its
      position in the tree (the [trail] of a context), and every in-place
      update is an update at that position. *)

From Stdlib Require Import ZArith Lia Ascii String.
From stdpp Require Import base option list strings gmap sorting.

Local Open Scope Z_scope.
Set Warnings "-register-all".

(** ** JavaScript built-ins used by the source *)

Module JS.

Definition code (a : ascii) : Z := Z.of_N (N_of_ascii a).
Definition chr (z : Z) : ascii := ascii_of_N (Z.to_N z).

(** The class [\s] of regular expressions, which is also what
    [String.prototype.trim] removes: TAB, LF, VT, FF, CR, SP and NBSP. *)
Definition is_space (a : ascii) : bool :=
  let c := code a in
  ((9 <=? c) && (c <=? 13)) || (c =? 32) || (c =? 160).

Fixpoint trimStart (s : string) : string :=
  match s with
  | EmptyString => EmptyString
  | String a r => if is_space a then trimStart r else s
  end.

Fixpoint trimEnd (s : string) : string :=
  match s with
  | EmptyString => EmptyString
  | String a r =>
      match trimEnd r with
      | EmptyString => if is_space a then EmptyString else String a EmptyString
      | r' => String a r'
      end
  end.

(** [s.trim()] *)
Definition trim (s : string) : string := trimEnd (trimStart s).

Definition lower_char (a : ascii) : ascii :=
  let c := code a in
  if ((65 <=? c) && (c <=? 90))
     || ((192 <=? c) && (c <=? 222) && negb (c =? 215))
  then chr (c + 32) else a.

(** [s.toLowerCase()] *)
Fixpoint toLowerCase (s : string) : string :=
  match s with
  | EmptyString => EmptyString
  | String a r => String (lower_char a) (toLowerCase r)
  end.

(** [s.startsWith(p)] *)
Fixpoint startsWith (s p : string) : bool :=
  match p, s with
  | EmptyString, _ => true
  | String _ _, EmptyString => false
  | String b p', String a s' => if Ascii.eqb a b then startsWith s' p' else false
  end.

(** [s.includes(p)] *)
Fixpoint includes (s p : string) : bool :=
  startsWith s p ||
  match s with
  | EmptyString => false
  | String _ s' => includes s' p
  end.

(** [s.substring(1)] *)
Definition substring1 (s : string) : string :=
  match s with
  | EmptyString => EmptyString
  | String _ r => r
  end.

(** [s.replace(/^#+/, '')]: the leading run of [#] is removed. *)
Fixpoint strip_hashes (s : string) : string :=
  match s with
  | String a r => if code a =? 35 then strip_hashes r else s
  | EmptyString => EmptyString
  end.

(** [s.split(',')] *)
Fixpoint split_comma (s : string) : list string :=
  match s with
  | EmptyString => [EmptyString]
  | String a r =>
      if code a =? 44 then EmptyString :: split_comma r
      else match split_comma r with
           | h :: t => String a h :: t
           | [] => [String a EmptyString]
           end
  end.

(** [arr.includes(x)] on an array of strings. *)
Definition array_includes (l : list string) (x : string) : bool :=
  existsb (String.eqb x) l.

(** *** Numbers and their decimal text *)

Definition digit_char (d : Z) : ascii := chr (48 + d).

Definition digit_val (a : ascii) : option Z :=
  let c := code a in
  if (48 <=? c) && (c <=? 57) then Some (c - 48) else None.

(** The decimal digits of a non-negative integer, in front of [acc]. *)
Fixpoint digits_of (fuel : nat) (n : Z) (acc : string) : string :=
  match fuel with
  | O => acc
  | S k =>
      if n <? 10 then String (digit_char n) acc
      else digits_of k (n / 10) (String (digit_char (n mod 10)) acc)
  end.

Definition digits (n : Z) : string :=
  digits_of (S (Z.to_nat (Z.log2 n))) n EmptyString.

(** [String(n)] for an integer [n] (below the 1e21 at which JavaScript
    switches to exponent notation). *)
Definition Number_toString (n : Z) : string :=
  if n <? 0 then String (chr 45) (digits (- n)) else digits n.

(** The value of a run of decimal digits, [None] when another character
    occurs. *)
Fixpoint digits_value (s : string) (acc : Z) : option Z :=
  match s with
  | EmptyString => Some acc
  | String a r =>
      match digit_val a with
      | Some d => digits_value r (acc * 10 + d)
      | None => None
      end
  end.

(** [ToNumber] on a string, for the integer literals: surrounding white
    space is dropped, the empty string is 0, an optional sign is followed
    by decimal digits.  [None] stands for [NaN] and for every literal
    outside this fragment (fractions, exponents, radix prefixes,
    [Infinity]), which the model does not read. *)
Definition ToNumber (s : string) : option Z :=
  match trim s with
  | EmptyString => Some 0
  | String a r =>
      if code a =? 45 then
        match r with
        | EmptyString => None
        | _ => option_map Z.opp (digits_value r 0)
        end
      else if code a =? 43 then
        match r with
        | EmptyString => None
        | _ => digits_value r 0
        end
      else digits_value (String a r) 0
  end.

(** [(b / 1024).toFixed(1)] for a byte count [b >= 0]: the quotient is
    exact in binary floating point, and [toFixed] picks the nearest
    tenth, the larger one on a tie. *)
Definition kilobytes_toFixed1 (b : Z) : string :=
  let n := (10 * b + 512) / 1024 in
  (Number_toString (n / 10) +:+ String (chr 46) (String (digit_char (n mod 10)) EmptyString))%string.

End JS.

(** ** Data model (the JSDoc typedefs at the top of the source) *)

(** [ChatEntry]; [updatedAt] is the optional field of the typedef. *)
Record ChatEntry := mkChatEntry {
  id : string;
  title : string;
  tags : list string;
  annotation : string;
  timestamp : Z;
  updatedAt : option Z }.

(** [Folder]: [chatIds] holds references into [allChats], [subfolders] is
    the owned subtree.  Both are arrays in the typedef and in every folder
    the source creates, so the guards [f.chatIds &&] and [f.subfolders &&]
    of the traversals are always passed. *)
Inductive Folder := mkFolder {
  fid : Z;
  name : string;
  chatIds : list string;
  subfolders : list Folder;
  fannotation : string;
  sortOrder : option string }.

Record PinnedSearch := mkPinnedSearch {
  pin_id : Z;
  pin_title : string;
  query : string }.

(** The global [folderData].  [allChats] is a JavaScript object used as a
    dictionary; the enumeration order of [Object.keys] is the order of
    [map_to_list]. *)
Record Library := mkLibrary {
  folders : list Folder;
  allChats : gmap string ChatEntry;
  pinnedSearches : list PinnedSearch }.

Definition empty_library : Library := mkLibrary [] ∅ [].

Definition set_chatIds (f : Folder) (c : list string) : Folder :=
  mkFolder (fid f) (name f) c (subfolders f) (fannotation f) (sortOrder f).

Definition set_subfolders (f : Folder) (l : list Folder) : Folder :=
  mkFolder (fid f) (name f) (chatIds f) l (fannotation f) (sortOrder f).

Definition set_name (f : Folder) (n : string) : Folder :=
  mkFolder (fid f) n (chatIds f) (subfolders f) (fannotation f) (sortOrder f).

Definition set_fannotation (f : Folder) (a : string) : Folder :=
  mkFolder (fid f) (name f) (chatIds f) (subfolders f) a (sortOrder f).

Definition set_folders (L : Library) (l : list Folder) : Library :=
  mkLibrary l (allChats L) (pinnedSearches L).

Definition set_allChats (L : Library) (m : gmap string ChatEntry) : Library :=
  mkLibrary (folders L) m (pinnedSearches L).

(** A folder id as the operations receive it: a number, or the text of a
    [data-id] / [data-fid] attribute. *)
Inductive IdArg :=
| IdNum (n : Z)
| IdStr (s : string).

(** [stored == given] with a stored number: a string operand is converted
    with [ToNumber] first. *)
Definition loose_eq (stored : Z) (given : IdArg) : bool :=
  match given with
  | IdNum n => stored =? n
  | IdStr s =>
      match JS.ToNumber s with
      | Some n => stored =? n
      | None => false
      end
  end.

(** ** Locating a folder: [getFolderContext] *)

(** The object [{ folder, siblings, index }].  [siblings] is a reference to
    an array inside [folderData]; [trail] records which one: the indices
    leading from the root array to the folder whose [subfolders] it is
    (empty for the root array itself). *)
Record Context := mkContext {
  folder : Folder;
  siblings : list Folder;
  index : nat;
  trail : list nat }.

Definition under (i : nat) (c : Context) : Context :=
  mkContext (folder c) (siblings c) (index c) (i :: trail c).

Section GetFolderContext.
Variable given : IdArg.

(** The [for] loop of [getFolderContext] over the array [arr], from index
    [i] on;
    [deeper f] is the recursive call on [f.subfolders]. *)
Section Loop.
Variable deeper : Folder -> option Context.
Variable arr : list Folder.

Fixpoint gfc_loop (i : nat) (rest : list Folder) : option Context :=
  match rest with
  | [] => None
  | f :: rest' =>
      if loose_eq (fid f) given then Some (mkContext f arr i [])
      else
        match deeper f with
        | Some c => Some (under i c)
        | None => gfc_loop (S i) rest'
        end
  end.
End Loop.

(** [getFolderContext(id, f.subfolders)]; on an empty array the loop
    returns [null] at once, which is what the [length > 0] guard of the
    source short-cuts. *)
Fixpoint gfc_below (f : Folder) : option Context :=
  gfc_loop gfc_below (subfolders f) 0%nat (subfolders f).

Definition getFolderContext (arr : list Folder) : option Context :=
  gfc_loop gfc_below arr 0%nat arr.
End GetFolderContext.

(** ** In-place updates through a context *)

(** The array reached by a trail. *)
Fixpoint array_at (t : list nat) (l : list Folder) : option (list Folder) :=
  match t with
  | [] => Some l
  | i :: t' =>
      match l !! i with
      | Some f => array_at t' (subfolders f)
      | None => None
      end
  end.

(** The folder at a position: a trail and an index in the array it
    reaches. *)
Definition folder_at (t : list nat) (i : nat) (l : list Folder) : option Folder :=
  match array_at t l with
  | Some a => a !! i
  | None => None
  end.

(** Mutating the array reached by a trail. *)
Fixpoint update_array (g : list Folder -> list Folder) (t : list nat)
    (l : list Folder) : list Folder :=
  match t with
  | [] => g l
  | i :: t' =>
      alter (fun f => set_subfolders f (update_array g t' (subfolders f))) i l
  end.

(** Mutating the folder object of a context. *)
Definition update_folder (g : Folder -> Folder) (c : Context)
    (l : list Folder) : list Folder :=
  update_array (alter g (index c)) (trail c) l.

(** [context.siblings.splice(context.index, 1)] *)
Definition splice_out (c : Context) (l : list Folder) : list Folder :=
  update_array (delete (index c)) (trail c) l.

(** ** Traversals *)

(** [findAllFoldersForChat]: the folders whose [chatIds] include the chat,
    parents before their subfolders. *)
Fixpoint findAll_traverse (chatId : string) (f : Folder) : list Folder :=
  (if JS.array_includes (chatIds f) chatId then [f] else [])
  ++ flat_map (findAll_traverse chatId) (subfolders f).

Definition findAllFoldersForChat (chatId : string) (L : Library) : list Folder :=
  flat_map (findAll_traverse chatId) (folders L).

(** The [traverse] of [findUnlinked]: every id of [f.chatIds] is added to
    the set, then the subfolders are visited. *)
Fixpoint unlinked_traverse (f : Folder) (referencedIds : gset string) : gset string :=
  fold_left (fun acc g => unlinked_traverse g acc) (subfolders f)
    (fold_left (fun acc c => {[ c ]} ∪ acc) (chatIds f) referencedIds).

(** [Object.keys(m)]: every own key once.  The list is in the order of
    the dictionary, not in the insertion order of the object. *)
Definition Object_keys (m : gmap string ChatEntry) : list string :=
  (map_to_list m).*1.

Definition findUnlinked (L : Library) : list string :=
  let referencedIds :=
    fold_left (fun acc g => unlinked_traverse g acc) (folders L) ∅ in
  filter (fun c => c ∉ referencedIds) (Object_keys (allChats L)).

(** ** Moving a folder: the menu of [showMoveFolderMenu] *)

(** The local [isDescendant(parent, childId)]: some folder strictly below
    [parent] has the id [childId].  Both ids are stored numbers. *)
Fixpoint isDescendant (parent : Folder) (childId : Z) : bool :=
  existsb (fun sf => fid sf =? childId) (subfolders parent)
  || existsb (fun sf => isDescendant sf childId) (subfolders parent).

Section MoveMenu.
Variable folderId : IdArg.
Variable roots : list Folder.

(** [list.forEach] with a callback that may throw: [None] is the
    [TypeError] raised by [isDescendant(null, ...)]. *)
Section ForEach.
Variable visit : Folder -> option (list Folder).

Fixpoint menu_forEach (l : list Folder) : option (list Folder) :=
  match l with
  | [] => Some []
  | f :: rest =>
      match visit f with
      | None => None
      | Some here =>
          match menu_forEach rest with
          | None => None
          | Some after => Some (here ++ after)
          end
      end
  end.
End ForEach.

(** The callback of the local [traverse]: the moving folder and every
    folder whose id is found below it are skipped together with their
    subtrees; any other folder becomes a target and is descended into.
    The [displayName] of a target is presentation only and left out. *)
Fixpoint menu_visit (f : Folder) : option (list Folder) :=
  if loose_eq (fid f) folderId then Some []
  else
    match getFolderContext folderId roots with
    | None => None
    | Some ctxMoving =>
        if isDescendant (folder ctxMoving) (fid f) then Some []
        else
          match menu_forEach menu_visit (subfolders f) with
          | None => None
          | Some below => Some (f :: below)
          end
    end.

Definition validTargets : option (list Folder) :=
  menu_forEach menu_visit roots.
End MoveMenu.

(** The [data-fid] attribute a menu item carries, which its click handler
    passes to [handleMoveFolder]. *)
Definition data_fid (f : Folder) : IdArg := IdStr (JS.Number_toString (fid f)).

(** ** The running instance *)

(** [window.maktabaStats] *)
Record Stats := mkStats {
  renders : Z;
  skips : Z }.

(** How the host answers [chrome.storage.sync.set]. *)
Inductive SetOutcome :=
| SetOk
| SetLastError (message : string)
| SetThrows.

(** The [alert] boxes of the save path, by message key and argument. *)
Inductive Alert :=
| storage_full_alert (kilobytes : string)
| save_error_alert (message : string)
| context_invalidated_alert.

Record World := mkWorld {
  folderData : Library;
  maktabaStats : Stats;
  (** [document.getElementById('right-folder-list')] is not null *)
  sidebar : bool;
  (** the text of [#folder-search-input], [None] when the element is
      missing *)
  search_input : option string;
  (** [chrome.runtime?.id] is truthy *)
  runtime_id : bool;
  set_outcome : SetOutcome;
  (** the arguments of the calls to [chrome.storage.sync.set], latest first *)
  sync_set_calls : list Library;
  (** the alerts shown, latest first *)
  alerts : list Alert }.

Definition with_folderData (w : World) (L : Library) : World :=
  mkWorld L (maktabaStats w) (sidebar w) (search_input w) (runtime_id w)
    (set_outcome w) (sync_set_calls w) (alerts w).

Definition with_maktabaStats (w : World) (s : Stats) : World :=
  mkWorld (folderData w) s (sidebar w) (search_input w) (runtime_id w)
    (set_outcome w) (sync_set_calls w) (alerts w).

Definition show_alert (a : Alert) (w : World) : World :=
  mkWorld (folderData w) (maktabaStats w) (sidebar w) (search_input w)
    (runtime_id w) (set_outcome w) (sync_set_calls w) (a :: alerts w).

Definition call_sync_set (w : World) : World :=
  mkWorld (folderData w) (maktabaStats w) (sidebar w) (search_input w)
    (runtime_id w) (set_outcome w) (folderData w :: sync_set_calls w) (alerts w).

(** The serializer of the host.  The text [JSON.stringify] produces depends
    on the insertion order of object keys, which the dictionary above does
    not record, so it is a parameter of the model. *)
Class Host := { JSON_stringify : Library -> string }.

(** [new Blob([s]).size]: the length of the UTF-8 encoding, one byte for a
    code unit below 128 and two for the others of the Latin-1 range. *)
Fixpoint Blob_size (s : string) : Z :=
  match s with
  | EmptyString => 0
  | String a r => (if JS.code a <? 128 then 1 else 2) + Blob_size r
  end.

Definition QUOTA_LIMIT : Z := 102400.
Definition SAFETY_BUFFER : Z := 2048.

(** [refreshFolderList]: the list is rendered again (the dashboard, or the
    search results when the search box holds a term) and the render counter
    goes up, unless the sidebar is missing.  Rendering reads [folderData]
    and does not write it. *)
Definition refreshFolderList (w : World) : World :=
  if sidebar w then
    with_maktabaStats w
      (mkStats (renders (maktabaStats w) + 1) (skips (maktabaStats w)))
  else w.

Section Operations.
Context `{Host}.

Definition saveAndRefresh (w0 : World) : World :=
  let w := refreshFolderList w0 in
  if runtime_id w then
    let serialized := JSON_stringify (folderData w) in
    let bytesInUse := Blob_size serialized in
    if bytesInUse >? QUOTA_LIMIT - SAFETY_BUFFER then
      show_alert (storage_full_alert (JS.kilobytes_toFixed1 bytesInUse)) w
    else
      match set_outcome w with
      | SetOk => call_sync_set w
      | SetLastError message => show_alert (save_error_alert message) (call_sync_set w)
      | SetThrows => show_alert context_invalidated_alert (call_sync_set w)
      end
  else w.

(** The tags as [saveChatToFolder] stores them. *)
Definition sanitizedTags (tags : list string) : list string :=
  map (fun t => String (JS.chr 35) (JS.strip_hashes (JS.trim t))) tags.

(** [saveChatToFolder]; [now_created] and [now_updated] are the two
    readings of [Date.now()].  The toast, the button animation and the
    closing of the quick-save menu are presentation only. *)
Definition saveChatToFolder (now_created now_updated : Z) (folderId : IdArg)
    (chatId chatTitle : string) (tags : list string) (note : string)
    (w : World) : bool * World :=
  match getFolderContext folderId (folders (folderData w)) with
  | None => (false, w)
  | Some context =>
      let L := folderData w in
      let entry :=
        mkChatEntry chatId chatTitle (sanitizedTags tags) note
          (match allChats L !! chatId with
           | Some old => if timestamp old =? 0 then now_created else timestamp old
           | None => now_created
           end)
          (Some now_updated) in
      let L1 := set_allChats L (<[ chatId := entry ]> (allChats L)) in
      if negb (JS.array_includes (chatIds (folder context)) chatId) then
        let L2 :=
          set_folders L1
            (update_folder (fun f => set_chatIds f (chatIds f ++ [chatId]))
               context (folders L1)) in
        (true, saveAndRefresh (with_folderData w L2))
      else (false, with_folderData w L1)
  end.

(** The tags as [editChatTags] stores them. *)
Definition edited_tags (newTagString : string) : list string :=
  omap (fun t =>
          let clean := JS.strip_hashes (JS.trim t) in
          if (0 <? Z.of_nat (String.length clean)) then Some (String (JS.chr 35) clean)
          else None)
       (JS.split_comma newTagString).

(** The tail shared by the chat editors: the search results are rendered
    again when the search box holds a term; otherwise the folder view is,
    which is presentation only. *)
Definition refresh_after_edit (w : World) : World :=
  match search_input w with
  | Some term =>
      if negb (String.eqb (JS.trim term) EmptyString) then refreshFolderList w
      else w
  | None => w
  end.

(** [editChatTags]; [answer] is what [prompt] returns, [None] when the
    user cancels.  The [folderId] argument only selects the view shown
    afterwards. *)
Definition editChatTags (now : Z) (chatId : string) (answer : option string)
    (w : World) : World :=
  let L := folderData w in
  match allChats L !! chatId with
  | None => w
  | Some chat =>
      match answer with
      | None => w
      | Some newTagString =>
          let chat' :=
            mkChatEntry (id chat) (title chat) (edited_tags newTagString)
              (annotation chat) (timestamp chat) (Some now) in
          refresh_after_edit
            (saveAndRefresh
               (with_folderData w
                  (set_allChats L (<[ chatId := chat' ]> (allChats L)))))
      end
  end.

(** The global delete of [removeChatFromFolder]: the chat leaves the
    [chatIds] of every folder that includes it. *)
Fixpoint drop_everywhere (chatId : string) (f : Folder) : Folder :=
  mkFolder (fid f) (name f)
    (if JS.array_includes (chatIds f) chatId
     then filter (fun c => c ≠ chatId) (chatIds f) else chatIds f)
    (map (drop_everywhere chatId) (subfolders f))
    (fannotation f) (sortOrder f).

(** [removeChatFromFolder]; [folderId] is [None] for [null], and
    [confirmed] is the answer to [confirm] if it is asked. *)
Definition removeChatFromFolder (chatId : string) (folderId : option IdArg)
    (confirmed : bool) (w : World) : World :=
  let L := folderData w in
  match folderId with
  | None =>
      if negb confirmed then w
      else
        saveAndRefresh
          (with_folderData w
             (mkLibrary (map (drop_everywhere chatId) (folders L))
                (delete chatId (allChats L)) (pinnedSearches L)))
  | Some fId =>
      match getFolderContext fId (folders L) with
      | None => w
      | Some context =>
          let currentLinks := findAllFoldersForChat chatId L in
          if (length currentLinks =? 1)%nat && negb confirmed then w
          else
            let L1 :=
              set_folders L
                (update_folder
                   (fun f => set_chatIds f (filter (fun c => c ≠ chatId) (chatIds f)))
                   context (folders L)) in
            let remainingLinks := findAllFoldersForChat chatId L1 in
            let L2 :=
              if (length remainingLinks =? 0)%nat
              then set_allChats L1 (delete chatId (allChats L1))
              else L1 in
            saveAndRefresh (with_folderData w L2)
      end
  end.

(** [deleteFolder]; [confirmed] is the answer to [confirm]. *)
Definition deleteFolder (folderId : IdArg) (confirmed : bool) (w : World) : World :=
  if negb confirmed then w
  else
    let L := folderData w in
    match getFolderContext folderId (folders L) with
    | Some context =>
        saveAndRefresh
          (with_folderData w (set_folders L (splice_out context (folders L))))
    | None => w
    end.

(** [renameFolder]; [answer] is what [prompt] returns.  An empty answer is
    falsy and changes nothing. *)
Definition renameFolder (folderId : IdArg) (answer : option string) (w : World) : World :=
  let L := folderData w in
  match getFolderContext folderId (folders L) with
  | None => w
  | Some context =>
      match answer with
      | Some (String a r) =>
          saveAndRefresh
            (with_folderData w
               (set_folders L
                  (update_folder (fun f => set_name f (JS.trim (String a r)))
                     context (folders L))))
      | _ => w
      end
  end.

(** [editFolderAnnotation] *)
Definition editFolderAnnotation (folderId : IdArg) (answer : option string)
    (w : World) : World :=
  let L := folderData w in
  match getFolderContext folderId (folders L) with
  | None => w
  | Some context =>
      match answer with
      | Some newNote =>
          saveAndRefresh
            (with_folderData w
               (set_folders L
                  (update_folder (fun f => set_fannotation f (JS.trim newNote))
                     context (folders L))))
      | None => w
      end
  end.

(** [targetParentId === 'root'] *)
Definition is_root (targetParentId : IdArg) : bool :=
  match targetParentId with
  | IdStr s => String.eqb s "root"
  | IdNum _ => false
  end.

(** [handleMoveFolder]: the folder is spliced out of its siblings first;
    the target is looked up in what remains. *)
Definition handleMoveFolder (folderId targetParentId : IdArg) (w : World) : World :=
  let L := folderData w in
  match getFolderContext folderId (folders L) with
  | None => w
  | Some context =>
      let folderToMove := folder context in
      let remaining := splice_out context (folders L) in
      let moved :=
        if is_root targetParentId then remaining ++ [folderToMove]
        else
          match getFolderContext targetParentId remaining with
          | Some targetContext =>
              update_folder
                (fun f => set_subfolders f (subfolders f ++ [folderToMove]))
                targetContext remaining
          | None => remaining
          end in
      saveAndRefresh (with_folderData w (set_folders L moved))
  end.

(** The listener [setupAutoSync] registers on [chrome.storage.onChanged].
    [change] is [changes.maktaba_folders] when present, and holds its
    [newValue], which is [undefined] ([None]) when the key was removed.
    [JSON.stringify(undefined)] is [undefined] and differs from every
    string. *)
Definition onChanged (namespace : string) (change : option (option Library))
    (w : World) : World :=
  match change with
  | Some newData =>
      if String.eqb namespace "sync" then
        if negb (bool_decide (Some (JSON_stringify (folderData w))
                              = option_map JSON_stringify newData))
        then
          refreshFolderList
            (with_folderData w (default empty_library newData))
        else w
      else w
  | None => w
  end.
End Operations.

(** The [activity] block of [generateDiagnosticLog]:
    [session_renders] and [session_skips]. *)
Definition diagnostic_activity (w : World) : Z * Z :=
  (renders (maktabaStats w), skips (maktabaStats w)).

(** ** Search: the tokenizer of [renderSearchResults] and [isMatch] *)

Inductive TokenType := text | not_text | tag | not_tag.

Record Token := mkToken {
  type : TokenType;
  val : string }.

Module Query.

(** The longest prefix whose characters satisfy [p], and what follows. *)
Fixpoint span (p : ascii -> bool) (s : string) : string * string :=
  match s with
  | EmptyString => (EmptyString, EmptyString)
  | String a r =>
      if p a then let '(w, rest) := span p r in (String a w, rest)
      else (EmptyString, s)
  end.

Definition is_quote (a : ascii) : bool := JS.code a =? 34.
Definition is_minus (a : ascii) : bool := JS.code a =? 45.

(** One regular-expression match: the groups 1, 2 and 3 and the input
    after the match. *)
Record Match := mkMatch {
  minus : string;
  quoted : option string;
  word : option string;
  after : string }.

(** The alternation at the start of [s]: a quoted phrase (an opening
    quote, one or more characters other than a quote, a closing quote),
    else a run of one or more characters outside [\s].  The greedy phrase
    can only be followed by the closing quote at its full length, and
    nothing follows the run, so neither needs backtracking. *)
Definition body (m : string) (s : string) : option Match :=
  let unquoted :=
    match span (fun a => negb (JS.is_space a)) s with
    | (EmptyString, _) => None
    | (w, rest) => Some (mkMatch m None (Some w) rest)
    end in
  match s with
  | String q r =>
      if is_quote q then
        match span (fun a => negb (is_quote a)) r with
        | (String b phrase, String _ rest) =>
            Some (mkMatch m (Some (String b phrase)) None rest)
        | _ => unquoted
        end
      else unquoted
  | EmptyString => unquoted
  end.

(** The whole expression, an optional minus and then the alternation,
    anchored at the start of [s]: the minus is taken first and given back
    when the rest cannot match. *)
Definition match_at (s : string) : option Match :=
  match s with
  | String a r =>
      if is_minus a then
        match body (String a EmptyString) r with
        | Some m => Some m
        | None => body EmptyString s
        end
      else body EmptyString s
  | EmptyString => None
  end.

(** The body of the [while] loop: the token pushed for a match. *)
Definition token_of (m : Match) : option Token :=
  let isNegative := String.eqb (minus m) (String (JS.chr 45) EmptyString) in
  let rawValue :=
    match quoted m with
    | Some (String a r) => Some (String a r)
    | _ => word m
    end in
  match rawValue with
  | None | Some EmptyString => None
  | Some raw =>
      let v := JS.toLowerCase raw in
      match quoted m with
      | Some (String _ _) =>
          Some (mkToken (if isNegative then not_text else text) v)
      | _ =>
          if JS.startsWith v (String (JS.chr 35) EmptyString)
          then Some (mkToken (if isNegative then not_tag else tag) (JS.substring1 v))
          else Some (mkToken (if isNegative then not_text else text) v)
      end
  end.

(** [regex.exec] in a loop with the [g] flag: a match is searched from
    the current position onwards, one position at a time.  Every match
    consumes a character, so the length of the input bounds the number
    of steps. *)
Fixpoint exec_loop (fuel : nat) (s : string) : list Token :=
  match fuel with
  | O => []
  | S k =>
      match s with
      | EmptyString => []
      | String _ next =>
          match match_at s with
          | Some m =>
              match token_of m with
              | Some tok => tok :: exec_loop k (after m)
              | None => exec_loop k (after m)
              end
          | None => exec_loop k next
          end
      end
  end.

Definition tokenize (q : string) : list Token :=
  exec_loop (String.length q) q.

End Query.

(** [isMatch(chat, tokens)] *)
Definition isMatch (chat : ChatEntry) (tokens : list Token) : bool :=
  forallb
    (fun token =>
       let title_ := JS.toLowerCase (title chat) in
       let note := JS.toLowerCase (annotation chat) in
       let tags_ := map JS.toLowerCase (tags chat) in
       match type token with
       | tag => existsb (fun t => JS.includes t (val token)) tags_
       | not_tag => negb (existsb (fun t => JS.includes t (val token)) tags_)
       | not_text =>
           negb (JS.includes title_ (val token)) && negb (JS.includes note (val token))
       | text => JS.includes title_ (val token) || JS.includes note (val token)
       end)
    tokens.

(** The query of a tag [#work] followed by the excluded quoted phrase
    [old project]. *)
Definition work_not_old_project : string :=
  ("#work -" +:+ String (JS.chr 34) "old project" +:+ String (JS.chr 34) EmptyString)%string.


(** ** The vocabulary of the specification *)

(** [in_tree f l]: the folder [f] is one of the folders of [l] or lies
    below one of them, at any depth. *)
Inductive in_tree (f : Folder) : list Folder -> Prop :=
| in_tree_here l : f ∈ l -> in_tree f l
| in_tree_below g l : g ∈ l -> in_tree f (subfolders g) -> in_tree f l.

(** [descendant b a]: [b] lies strictly below [a]. *)
Definition descendant (b a : Folder) : Prop := in_tree b (subfolders a).

(** [clear given f l]: the folder [f] is reached in [l] through folders
    whose id is not the given one, [f] included. *)
Inductive clear (given : IdArg) (f : Folder) : list Folder -> Prop :=
| clear_here l :
    f ∈ l -> loose_eq (fid f) given = false -> clear given f l
| clear_below g l :
    g ∈ l -> loose_eq (fid g) given = false ->
    clear given f (subfolders g) -> clear given f l.

(** The chat ids referenced by some folder of the library. *)
Definition referenced (L : Library) (c : string) : Prop :=
  exists f, in_tree f (folders L) /\ c ∈ chatIds f.

(** A folder tree without its chat references: what remains equal when
    only [chatIds] fields are written. *)
Fixpoint without_chatIds (f : Folder) : Folder :=
  mkFolder (fid f) (name f) [] (map without_chatIds (subfolders f))
    (fannotation f) (sortOrder f).

(** The number of occurrences of a chat in an array of references. *)
Definition occurrences (c : string) (l : list string) : nat :=
  length (filter (fun x => x = c) l).

(** A string without white space; it is its own trim. *)
Fixpoint no_space (s : string) : Prop :=
  match s with
  | EmptyString => True
  | String a r => JS.is_space a = false /\ no_space r
  end.

(** The position a context designates. *)
Definition position (c : Context) : list nat * nat := (trail c, index c).

(** What a context returned for [given] on [arr] satisfies: [siblings] is
    the array its trail reaches, [folder] sits there at [index], and its id
    equals the given one. *)
Definition located (given : IdArg) (arr : list Folder) (c : Context) : Prop :=
  array_at (trail c) arr = Some (siblings c)
  /\ siblings c !! index c = Some (folder c)
  /\ loose_eq (fid (folder c)) given = true.

(** What the move menu requires of a folder before offering it as a target
    for the folder that [context] designates. *)
Definition offered (folderId : IdArg) (context : Context) (t : Folder) : Prop :=
  loose_eq (fid t) folderId = false
  /\ isDescendant (folder context) (fid t) = false.

(** ** A reference host

    [JSON.stringify] written out for the library, the dictionary being
    enumerated in the order of [Object_keys].  It serves the closed
    examples below. *)

Module Json.

Definition dq : string := String (JS.chr 34) EmptyString.

Definition hex_digit (d : Z) : ascii :=
  if d <? 10 then JS.chr (48 + d) else JS.chr (87 + d).

Definition escape_char (a : ascii) : string :=
  let c := JS.code a in
  if c =? 34 then String (JS.chr 92) dq
  else if c =? 92 then String (JS.chr 92) (String (JS.chr 92) EmptyString)
  else if c =? 8 then "\b"
  else if c =? 9 then "\t"
  else if c =? 10 then "\n"
  else if c =? 12 then "\f"
  else if c =? 13 then "\r"
  else if c <? 32 then
    ("\u00" +:+ String (hex_digit (c / 16)) (String (hex_digit (c mod 16)) EmptyString))%string
  else String a EmptyString.

Fixpoint escape (s : string) : string :=
  match s with
  | EmptyString => EmptyString
  | String a r => (escape_char a +:+ escape r)%string
  end.

Definition str (s : string) : string := (dq +:+ escape s +:+ dq)%string.

Fixpoint join (items : list string) : string :=
  match items with
  | [] => EmptyString
  | [x] => x
  | x :: rest => (x +:+ "," +:+ join rest)%string
  end.

Definition arr (items : list string) : string := ("[" +:+ join items +:+ "]")%string.
Definition obj (members : list string) : string := ("{" +:+ join members +:+ "}")%string.
Definition member (k v : string) : string := (str k +:+ ":" +:+ v)%string.

Fixpoint of_folder (f : Folder) : string :=
  obj ([ member "id" (JS.Number_toString (fid f));
         member "name" (str (name f));
         member "chatIds" (arr (map str (chatIds f)));
         member "subfolders" (arr (map of_folder (subfolders f)));
         member "annotation" (str (fannotation f)) ]
       ++ match sortOrder f with
          | Some o => [ member "sortOrder" (str o) ]
          | None => []
          end).

Definition of_chat (c : ChatEntry) : string :=
  obj ([ member "id" (str (id c));
         member "title" (str (title c));
         member "tags" (arr (map str (tags c)));
         member "annotation" (str (annotation c));
         member "timestamp" (JS.Number_toString (timestamp c)) ]
       ++ match updatedAt c with
          | Some u => [ member "updatedAt" (JS.Number_toString u) ]
          | None => []
          end).

Definition of_pin (p : PinnedSearch) : string :=
  obj [ member "id" (JS.Number_toString (pin_id p));
        member "title" (str (pin_title p));
        member "query" (str (query p)) ].

Definition of_library (L : Library) : string :=
  obj [ member "folders" (arr (map of_folder (folders L)));
        member "allChats"
          (obj (map (fun kv => member (fst kv) (of_chat (snd kv)))
                  (map_to_list (allChats L))));
        member "pinnedSearches" (arr (map of_pin (pinnedSearches L))) ].

End Json.

Definition reference_host : Host := {| JSON_stringify := Json.of_library |}.

(** ** Sample libraries for the closed examples *)

Module Sample.

Definition leaf (i : Z) (n : string) (c : list string) : Folder :=
  mkFolder i n c [] "" None.

(** A folder [Research] (id 1) holding the chat [c1], with a subfolder
    [Drafts] (id 2) that holds a subfolder [Old] (id 3). *)
Definition old : Folder := leaf 3 "Old" [].
Definition drafts : Folder := mkFolder 2 "Drafts" [] [old] "" None.
Definition research : Folder := mkFolder 1 "Research" ["c1"] [drafts] "" None.
Definition archive : Folder := leaf 4 "Archive" ["c1"; "c2"].

Definition c1 : ChatEntry :=
  mkChatEntry "c1" "Pricing Study" ["#strategy"] "first notes" 1000 (Some 1000).
Definition c2 : ChatEntry :=
  mkChatEntry "c2" "Roadmap" ["#work"] "" 2000 (Some 2000).

(** A chat no folder references. *)
Definition c3 : ChatEntry :=
  mkChatEntry "c3" "Scratch" [] "" 3000 None.

Definition library : Library :=
  mkLibrary [research; archive]
    (<[ "c1" := c1 ]> (<[ "c2" := c2 ]> (<[ "c3" := c3 ]> ∅))) [].

Definition world (L : Library) : World :=
  mkWorld L (mkStats 0 0) true (Some EmptyString) true SetOk [] [].

(** A library with one root folder whose name is [n] letters long. *)
Fixpoint letters (n : nat) : string :=
  match n with
  | O => EmptyString
  | S k => String (JS.chr 120) (letters k)
  end.

Definition padded (n : Z) : Library :=
  mkLibrary [leaf 1 (letters (Z.to_nat n)) []] ∅ [].

End Sample.

(** * The rest of the library code

    The operations of [src/content.js] around the ones above: garbage
    collection, folder creation, moving a chat, the chat editors, pinned
    searches, link import, and the helpers they use. *)

(** The alerts (and the one console error) outside the save path, by
    message key and argument. *)
Inductive Notice :=
| system_clean_alert
| prune_success_alert (count : nat)
| archive_success_alert (folderName : string) (count : nat)
| chat_id_error
| invalid_url_alert
| folder_not_found_alert
| chat_already_in_folder
| pin_exists_error
| pin_limit_error
| parent_folder_not_found_error
| backup_restore_success
| invalid_backup_format
| json_parse_error
| uncaught_TypeError.

Definition with_search_input (w : World) (s : option string) : World :=
  mkWorld (folderData w) (maktabaStats w) (sidebar w) s (runtime_id w)
    (set_outcome w) (sync_set_calls w) (alerts w).

Definition set_pinnedSearches (L : Library) (p : list PinnedSearch) : Library :=
  mkLibrary (folders L) (allChats L) p.

(** [stored == given] when the given id may be [null]: no number equals
    [null]. *)
Definition loose_eq_nullable (stored : Z) (given : option IdArg) : bool :=
  match given with
  | Some g => loose_eq stored g
  | None => false
  end.

(** [getFolderContext(id)] with an id that may be [null]. *)
Definition getFolderContext_nullable (given : option IdArg) (arr : list Folder)
  : option Context :=
  match given with
  | Some g => getFolderContext g arr
  | None => None
  end.

(** The truthiness of an id, as in [if (parentId)]: [null], the number 0
    and the empty string are falsy. *)
Definition truthy_id (given : option IdArg) : bool :=
  match given with
  | None => false
  | Some (IdNum n) => negb (n =? 0)
  | Some (IdStr s) => negb (String.eqb s EmptyString)
  end.

(** ** Helpers on strings *)

(** [extractChatId]: the first place where [/app/] is followed, after an
    optional [chat/], by letters and digits; the run of letters and digits
    is the id. *)
Module Url.

Definition is_alnum (a : ascii) : bool :=
  let c := JS.code a in
  ((97 <=? c) && (c <=? 122)) || ((65 <=? c) && (c <=? 90))
  || ((48 <=? c) && (c <=? 57)).

(** What follows the prefix [p] in [s], when [s] starts with it. *)
Fixpoint after_prefix (p s : string) : option string :=
  match p, s with
  | EmptyString, _ => Some s
  | String _ _, EmptyString => None
  | String b p', String a s' => if Ascii.eqb a b then after_prefix p' s' else None
  end.

(** The longest run of letters and digits at the start of [s], which the
    greedy group captures; [None] when it is empty. *)
Fixpoint alnum_run (s : string) : string :=
  match s with
  | EmptyString => EmptyString
  | String a r => if is_alnum a then String a (alnum_run r) else EmptyString
  end.

Definition capture (s : string) : option string :=
  match alnum_run s with
  | EmptyString => None
  | run => Some run
  end.

(** The expression anchored at the start of [s].  The optional [chat/] is
    tried first and given up when no letter or digit follows it. *)
Definition match_here (s : string) : option string :=
  match after_prefix "/app/" s with
  | None => None
  | Some r =>
      match after_prefix "chat/" r with
      | Some r' =>
          match capture r' with
          | Some run => Some run
          | None => capture r
          end
      | None => capture r
      end
  end.

Fixpoint extractChatId (url : string) : option string :=
  match match_here url with
  | Some run => Some run
  | None =>
      match url with
      | EmptyString => None
      | String _ rest => extractChatId rest
      end
  end.

(** The address [renderChatHtml] and the exports give a chat. *)
Definition chat_url (chatId : string) : string :=
  ("https://gemini.google.com/app/" +:+ chatId)%string.

End Url.

(** The [escapeCsv] of [exportDataAsCSV]. *)
Module Csv.

(** [str.replace(/dq/g, dq dq)]: every quote is doubled. *)
Fixpoint double_quotes (s : string) : string :=
  match s with
  | EmptyString => EmptyString
  | String a r =>
      if JS.code a =? 34 then String a (String a (double_quotes r))
      else String a (double_quotes r)
  end.

(** A quote, a comma or a line feed occurs in [s]. *)
Fixpoint has_special (s : string) : bool :=
  match s with
  | EmptyString => false
  | String a r =>
      (JS.code a =? 34) || (JS.code a =? 44) || (JS.code a =? 10) || has_special r
  end.

Definition escapeCsv (s : string) : string :=
  match s with
  | EmptyString => EmptyString
  | _ =>
      let escaped := double_quotes s in
      if has_special escaped
      then String (JS.chr 34) (escaped +:+ String (JS.chr 34) EmptyString)
      else escaped
  end.

End Csv.

(** ** Tags in use: [getAllUniqueTags] *)

(** [Set.prototype.add] on a set kept in insertion order. *)
Definition Set_add (acc : list string) (x : string) : list string :=
  if bool_decide (x ∈ acc) then acc else acc ++ [x].

Definition Object_values (m : gmap string ChatEntry) : list ChatEntry :=
  (map_to_list m).*2.

(** The order of the default [Array.prototype.sort]: strings by their code
    units. *)
Definition code_unit_le (a b : string) : Prop := String.leb a b = true.

#[global] Instance code_unit_le_dec (a b : string) : Decision (code_unit_le a b).
Proof. unfold code_unit_le. apply _. Defined.

Definition standardized (t : string) : string :=
  String (JS.chr 35) (JS.strip_hashes t).

Definition getAllUniqueTags (L : Library) : list string :=
  merge_sort code_unit_le
    (fold_left
       (fun acc chat =>
          fold_left (fun acc t => Set_add acc (standardized t)) (tags chat) acc)
       (Object_values (allChats L)) []).

(** ** The menu of [showMoveMenu] *)

(** The folders offered as targets for moving a chat: every folder that is
    not the source and does not hold the chat already. *)
Fixpoint moveMenu_traverse (chatId : string) (sourceFolderId : option IdArg)
    (f : Folder) : list Folder :=
  (if negb (loose_eq_nullable (fid f) sourceFolderId)
      && negb (JS.array_includes (chatIds f) chatId)
   then [f] else [])
  ++ flat_map (moveMenu_traverse chatId sourceFolderId) (subfolders f).

Definition moveMenu_targets (chatId : string) (sourceFolderId : option IdArg)
    (L : Library) : list Folder :=
  flat_map (moveMenu_traverse chatId sourceFolderId) (folders L).

(** ** Reading [folderData.allChats[id]]

    [allChats] is a plain object, so reading a property that it does not
    have itself falls through to [Object.prototype]. *)

(** The property names a plain object inherits. *)
Definition Object_prototype_keys : list string :=
  ["constructor"; "hasOwnProperty"; "isPrototypeOf"; "propertyIsEnumerable";
   "toLocaleString"; "toString"; "valueOf"; "__defineGetter__";
   "__defineSetter__"; "__lookupGetter__"; "__lookupSetter__"; "__proto__"]%string.

(** What the read gives: the entry stored under the id; for an id without
    entry that names an inherited member, that member, which is truthy and
    has none of the fields of an entry; [undefined] otherwise. *)
Inductive Property :=
| own (chat : ChatEntry)
| inherited (key : string)
| undefined.

Definition Object_get (m : gmap string ChatEntry) (k : string) : Property :=
  match m !! k with
  | Some chat => own chat
  | None => if bool_decide (k ∈ Object_prototype_keys) then inherited k else undefined
  end.

(** [.filter(chat => chat)] on what was read. *)
Definition truthy_property (p : Property) : option Property :=
  match p with
  | undefined => None
  | _ => Some p
  end.

Section MoreOperations.
Context `{Host}.

(** ** Garbage collection *)

(** [pruneUnlinked]; [confirmed] is the answer to [confirm]. *)
Definition pruneUnlinked (confirmed : bool) (w : World) : option Notice * World :=
  let L := folderData w in
  let unlinked := findUnlinked L in
  if (length unlinked =? 0)%nat then (Some system_clean_alert, w)
  else if confirmed then
    let L' :=
      set_allChats L (fold_left (fun m c => delete c m) unlinked (allChats L)) in
    (Some (prune_success_alert (length unlinked)),
     saveAndRefresh (with_folderData w L'))
  else (None, w).

(** [archiveUnlinked]; [recoveredName] and [recoveredNote] are the two
    localized texts, the first of which carries the date. *)
Definition archiveUnlinked (now : Z) (recoveredName recoveredNote : string)
    (confirmed : bool) (w : World) : option Notice * World :=
  let L := folderData w in
  let unlinkedIds := findUnlinked L in
  if (length unlinkedIds =? 0)%nat then (Some system_clean_alert, w)
  else if negb confirmed then (None, w)
  else
    let recoveryFolder := mkFolder now recoveredName unlinkedIds [] recoveredNote None in
    (Some (archive_success_alert recoveredName (length unlinkedIds)),
     saveAndRefresh
       (with_folderData w (set_folders L (folders L ++ [recoveryFolder])))).

(** ** Folders *)

(** [createNewFolder]; [answer] is what [prompt] returns. *)
Definition createNewFolder (now : Z) (parentId : option IdArg)
    (answer : option string) (w : World) : option Notice * World :=
  match answer with
  | Some (String a r) =>
      let L := folderData w in
      let newFolder := mkFolder now (JS.trim (String a r)) [] [] EmptyString None in
      if truthy_id parentId then
        match getFolderContext_nullable parentId (folders L) with
        | Some context =>
            (None,
             saveAndRefresh
               (with_folderData w
                  (set_folders L
                     (update_folder
                        (fun f => set_subfolders f (subfolders f ++ [newFolder]))
                        context (folders L)))))
        | None => (Some parent_folder_not_found_error, w)
        end
      else
        (None,
         saveAndRefresh
           (with_folderData w (set_folders L (folders L ++ [newFolder]))))
  | _ => (None, w)
  end.

(** ** Chats *)

(** [handleMoveChat]: the chat is pushed to the target unless it is there,
    then filtered out of the source.  The source id is [null] when the
    move starts from the search results. *)
Definition handleMoveChat (chatId : string) (sourceFolderId : option IdArg)
    (targetFolderId : IdArg) (w : World) : World :=
  let L := folderData w in
  match getFolderContext_nullable sourceFolderId (folders L),
        getFolderContext targetFolderId (folders L) with
  | Some srcCtx, Some tgtCtx =>
      let pushed :=
        if negb (JS.array_includes (chatIds (folder tgtCtx)) chatId)
        then update_folder (fun f => set_chatIds f (chatIds f ++ [chatId]))
               tgtCtx (folders L)
        else folders L in
      let filtered :=
        update_folder
          (fun f => set_chatIds f (filter (fun c => c ≠ chatId) (chatIds f)))
          srcCtx pushed in
      refresh_after_edit
        (saveAndRefresh (with_folderData w (set_folders L filtered)))
  | _, _ => w
  end.

(** [renameChat]; a name that trims to nothing is refused. *)
Definition renameChat (now : Z) (chatId : string) (answer : option string)
    (w : World) : World :=
  let L := folderData w in
  match allChats L !! chatId with
  | None => w
  | Some chat =>
      match answer with
      | Some newName =>
          if negb (String.eqb (JS.trim newName) EmptyString) then
            let chat' :=
              mkChatEntry (id chat) (JS.trim newName) (tags chat)
                (annotation chat) (timestamp chat) (Some now) in
            refresh_after_edit
              (saveAndRefresh
                 (with_folderData w
                    (set_allChats L (<[ chatId := chat' ]> (allChats L)))))
          else w
      | None => w
      end
  end.

(** [editChatAnnotation] *)
Definition editChatAnnotation (now : Z) (chatId : string) (answer : option string)
    (w : World) : World :=
  let L := folderData w in
  match allChats L !! chatId with
  | None => w
  | Some chat =>
      match answer with
      | Some newNote =>
          let chat' :=
            mkChatEntry (id chat) (title chat) (tags chat) (JS.trim newNote)
              (timestamp chat) (Some now) in
          refresh_after_edit
            (saveAndRefresh
               (with_folderData w
                  (set_allChats L (<[ chatId := chat' ]> (allChats L)))))
      | None => w
      end
  end.

(** [addChatByUrl]; the four answers are what the four [prompt]s return.
    A chat the library knows keeps its title.  For an id without entry
    that names an inherited member, [existing] is that member, and
    building the default of the tags prompt from [existing.tags] throws
    before anything is written. *)
Definition addChatByUrl (now_created now_updated : Z) (folderId : IdArg)
    (rawUrl chatNameAnswer tagAnswer noteAnswer : option string) (w : World)
  : option Notice * World :=
  match rawUrl with
  | Some (String a r) =>
      match Url.extractChatId (String a r) with
      | None => (Some invalid_url_alert, w)
      | Some chatId =>
          let L := folderData w in
          match getFolderContext folderId (folders L) with
          | None => (Some folder_not_found_alert, w)
          | Some context =>
              if JS.array_includes (chatIds (folder context)) chatId
              then (Some chat_already_in_folder, w)
              else
                match chatNameAnswer with
                | None => (None, w)
                | Some typed =>
                    match Object_get (allChats L) chatId with
                    | inherited _ => (Some uncaught_TypeError, w)
                    | existing =>
                        let chatName :=
                          match existing with
                          | own entry => title entry
                          | _ => typed
                          end in
                        let tgs :=
                          match tagAnswer with
                          | Some (String b s) =>
                              map JS.trim (JS.split_comma (String b s))
                          | _ => []
                          end in
                        let note := default EmptyString noteAnswer in
                        (None,
                         snd (saveChatToFolder now_created now_updated folderId
                                chatId
                                (match chatName with
                                 | EmptyString => "Untitled"
                                 | _ => chatName
                                 end)
                                tgs note w))
                    end
                end
          end
      end
  | _ => (None, w)
  end.

(** [saveCurrentChatToFolder]; [currentUrl] is the address of the page and
    [chatTitle] what [getRealChatTitle] reads from it. *)
Definition saveCurrentChatToFolder (now_created now_updated : Z) (folderId : IdArg)
    (currentUrl chatTitle : string) (tagAnswer noteAnswer : option string)
    (w : World) : option Notice * World :=
  match Url.extractChatId currentUrl with
  | None => (Some chat_id_error, w)
  | Some chatId =>
      let L := folderData w in
      match getFolderContext folderId (folders L) with
      | None => (None, w)
      | Some context =>
          if JS.array_includes (chatIds (folder context)) chatId
          then (Some chat_already_in_folder, w)
          else
            match tagAnswer with
            | None => (None, w)
            | Some tagString =>
                let tgs :=
                  filter (fun t => t ≠ EmptyString)
                    (match tagString with
                     | EmptyString => []
                     | _ => map JS.trim (JS.split_comma tagString)
                     end) in
                let note := default EmptyString noteAnswer in
                (None,
                 snd (saveChatToFolder now_created now_updated folderId chatId
                        chatTitle tgs note w))
            end
      end
  end.

(** ** Pinned searches *)

(** The click on the pin button of the search results; [q] is the query on
    display and [answer] what [prompt] returns for the title. *)
Definition pinCurrentSearch (now : Z) (q : string) (answer : option string)
    (w : World) : option Notice * World :=
  let L := folderData w in
  if existsb (fun p => String.eqb (query p) q) (pinnedSearches L)
  then (Some pin_exists_error, w)
  else if (5 <=? length (pinnedSearches L))%nat then (Some pin_limit_error, w)
  else
    match answer with
    | Some (String a r) =>
        let pin := mkPinnedSearch now (JS.trim (String a r)) q in
        let w' :=
          saveAndRefresh
            (with_folderData w
               (set_pinnedSearches L (pinnedSearches L ++ [pin]))) in
        (None,
         match search_input w' with
         | Some _ => refreshFolderList (with_search_input w' (Some EmptyString))
         | None => w'
         end)
    | _ => (None, w)
    end.

(** The delete button of a pin in the settings; [pinId] is the number
    [parseInt] reads from its [data-id]. *)
Definition unpin (pinId : Z) (w : World) : World :=
  let L := folderData w in
  saveAndRefresh
    (with_folderData w
       (set_pinnedSearches L (filter (fun p => pin_id p ≠ pinId) (pinnedSearches L)))).

(** The quick unpin of the dashboard, which asks first. *)
Definition quick_unpin (pinId : Z) (confirmed : bool) (w : World) : World :=
  if confirmed then unpin pinId w else w.
End MoreOperations.

(** ** Vocabulary for the properties of these operations *)

(** Some folder of the tree, at any depth, satisfies [obs]. *)
Definition somewhere (obs : Folder -> Prop) (l : list Folder) : Prop :=
  exists f, in_tree f l /\ obs f.

(** An observation of a folder that does not look at its subfolders. *)
Definition shallow (obs : Folder -> Prop) : Prop :=
  forall f subs, obs (set_subfolders f subs) <-> obs f.

(** The chat is referenced by some folder of the tree. *)
Definition refers (c : string) (f : Folder) : Prop := c ∈ chatIds f.

(** Referential integrity: every chat a folder references has its entry in
    [allChats]. *)
Definition integral (L : Library) : Prop :=
  forall c, somewhere (refers c) (folders L) -> is_Some (allChats L !! c).

(** Every library handed to [chrome.storage.sync.set] so far is within the
    quota. *)
Definition within_quota `{Host} (w : World) : Prop :=
  forall L, L ∈ sync_set_calls w ->
            Blob_size (JSON_stringify L) <= QUOTA_LIMIT - SAFETY_BUFFER.

(** The pinned searches are at most five and no query is pinned twice. *)
Definition pins_ok (L : Library) : Prop :=
  (length (pinnedSearches L) <= 5)%nat /\ NoDup (query <$> pinnedSearches L).

(** A string of letters and digits. *)
Fixpoint all_alnum (s : string) : Prop :=
  match s with
  | EmptyString => True
  | String a r => Url.is_alnum a = true /\ all_alnum r
  end.

(** What [handleMoveChat] does to the [chatIds] of the folder at position
    [here], given the positions of the source and of the target. *)
Definition moved_chatIds (chatId : string) (source target here : list nat * nat)
    (ids : list string) : list string :=
  if decide (here = source) then filter (fun c => c ≠ chatId) ids
  else if decide (here = target) then
         if JS.array_includes ids chatId then ids else ids ++ [chatId]
       else ids.


(** Where a run of letters and digits ends: at the end of the text or
    before another character. *)
Definition run_ends (rest : string) : Prop :=
  match rest with
  | EmptyString => True
  | String a _ => Url.is_alnum a = false
  end.

(** A match of the tokenizer with its texts in lower case. *)
Definition lower_match (m : Query.Match) : Query.Match :=
  Query.mkMatch (Query.minus m) (JS.toLowerCase <$> Query.quoted m)
    (JS.toLowerCase <$> Query.word m) (JS.toLowerCase (Query.after m)).

(** A chat with its title, note and tags in lower case. *)
Definition lower_chat (chat : ChatEntry) : ChatEntry :=
  mkChatEntry (id chat) (JS.toLowerCase (title chat))
    (map JS.toLowerCase (tags chat)) (JS.toLowerCase (annotation chat))
    (timestamp chat) (updatedAt chat).

(** The letters that have a lower case among the code units up to 255: A
    to Z, and the accented capitals from 192 to 222 without the
    multiplication sign. *)
Definition is_upper (a : ascii) : bool :=
  let c := JS.code a in
  ((65 <=? c) && (c <=? 90)) || ((192 <=? c) && (c <=? 222) && negb (c =? 215)).

(** Two characters that differ at most in case: a capital and its small
    letter are 32 code units apart. *)
Definition same_letter (a b : ascii) : Prop :=
  a = b
  \/ (is_upper a = true /\ JS.code b = JS.code a + 32)
  \/ (is_upper b = true /\ JS.code a = JS.code b + 32).

(** Two texts, and two chats, that differ at most in the case of their
    letters. *)
Fixpoint same_text (s t : string) : Prop :=
  match s, t with
  | EmptyString, EmptyString => True
  | String a s', String b t' => same_letter a b /\ same_text s' t'
  | _, _ => False
  end.

Definition same_chat (c c' : ChatEntry) : Prop :=
  same_text (title c) (title c')
  /\ same_text (annotation c) (annotation c')
  /\ Forall2 same_text (tags c) (tags c').

(** ** The CSV export: [exportDataAsCSV] *)

(** [arr.join(sep)] *)
Fixpoint Array_join (sep : string) (l : list string) : string :=
  match l with
  | [] => EmptyString
  | [x] => x
  | x :: r => (x +:+ sep +:+ Array_join sep r)%string
  end.

Module CsvExport.

(** One line of the file: five escaped cells and a line feed. *)
Definition line (currentPath chatTitle url tgs note : string) : string :=
  (Csv.escapeCsv currentPath +:+ "," +:+ Csv.escapeCsv chatTitle +:+ ","
   +:+ Csv.escapeCsv url +:+ "," +:+ Csv.escapeCsv tgs +:+ ","
   +:+ Csv.escapeCsv note +:+ String (JS.chr 10) EmptyString)%string.

(** The line appended for what [folderData.allChats[id]] gave, when it is
    truthy.  An inherited member has no [title], [id], [tags] or
    [annotation]: the missing cells are empty, and the address ends in the
    text of [undefined]. *)
Definition line_of (currentPath : string) (chat : Property) : option string :=
  match chat with
  | own entry =>
      Some (line currentPath (title entry) (Url.chat_url (id entry))
              (Array_join ", " (tags entry)) (annotation entry))
  | inherited _ =>
      Some (line currentPath EmptyString (Url.chat_url "undefined")
              EmptyString EmptyString)
  | undefined => None
  end.

(** The path of a folder below [pathPrefix]; an empty prefix is falsy. *)
Definition currentPath (pathPrefix : string) (folder : Folder) : string :=
  match pathPrefix with
  | EmptyString => name folder
  | _ => (pathPrefix +:+ " > " +:+ name folder)%string
  end.

(** [processFolder]; [csvContent] is the text built so far, and the result
    is the text after the folder and everything below it. *)
Fixpoint processFolder (all : gmap string ChatEntry) (folder : Folder)
    (pathPrefix : string) (csvContent : string) : string :=
  fold_left
    (fun acc sf => processFolder all sf (currentPath pathPrefix folder) acc)
    (subfolders folder)
    (fold_left
       (fun acc c =>
          match line_of (currentPath pathPrefix folder) (Object_get all c) with
          | Some row => (acc +:+ row)%string
          | None => acc
          end)
       (chatIds folder) csvContent).

(** The text of the file; [header] is the localized first row. *)
Definition exportDataAsCSV (header : string) (L : Library) : string :=
  fold_left (fun acc f => processFolder (allChats L) f EmptyString acc)
    (folders L) header.

End CsvExport.

(** The rows of the export as data: the path and what was read for every
    reference that gave something truthy, folder by folder, parents
    first. *)
Fixpoint csv_rows_of (all : gmap string ChatEntry) (pathPrefix : string)
    (f : Folder) : list (string * Property) :=
  omap (fun c => (fun p => (CsvExport.currentPath pathPrefix f, p))
                   <$> truthy_property (Object_get all c))
    (chatIds f)
  ++ flat_map (csv_rows_of all (CsvExport.currentPath pathPrefix f)) (subfolders f).

Definition csv_rows (L : Library) : list (string * Property) :=
  flat_map (csv_rows_of (allChats L) EmptyString) (folders L).

Definition concat_strings (l : list string) : string :=
  fold_right String.append EmptyString l.

(** A text without a quote character, and a text of white space only. *)
Fixpoint no_quote (s : string) : Prop :=
  match s with
  | EmptyString => True
  | String a r => Query.is_quote a = false /\ no_quote r
  end.

Fixpoint all_space (s : string) : Prop :=
  match s with
  | EmptyString => True
  | String a r => JS.is_space a = true /\ all_space r
  end.

(** A match seen in a longer input: [tail] follows what was left. *)
Definition extend_match (tail : string) (m : Query.Match) : Query.Match :=
  Query.mkMatch (Query.minus m) (Query.quoted m) (Query.word m)
    (Query.after m +:+ tail).

(** ** Breadcrumbs: [getFolderPath] and [findParentFolderOfArray] *)

(** [findParentFolderOfArray(targetArray, list)].  The test
    [f.subfolders === targetArray] compares array objects; an array of the
    tree is identified here by its trail, and the [subfolders] of the
    folder at index [i] of the array of trail [here] has the trail
    [here ++ [i]]. *)
Section FindParent.
Variable targetArray : list nat.

Section Loop.
Variable deeper : list nat -> Folder -> option Folder.
Variable here : list nat.

Fixpoint fpa_loop (i : nat) (rest : list Folder) : option Folder :=
  match rest with
  | [] => None
  | f :: rest' =>
      if decide (here ++ [i] = targetArray) then Some f
      else
        match deeper (here ++ [i]) f with
        | Some found => Some found
        | None => fpa_loop (S i) rest'
        end
  end.
End Loop.

Fixpoint fpa_below (here : list nat) (f : Folder) : option Folder :=
  fpa_loop fpa_below here 0%nat (subfolders f).

Definition findParentFolderOfArray (arr : list Folder) : option Folder :=
  fpa_loop fpa_below [] 0%nat arr.
End FindParent.

(** The [while] loop of [getFolderPath]; [currentId] is [None] for [null],
    and a result of [None] means that the fuel ran out. *)
Fixpoint gfp_loop (fuel : nat) (arr : list Folder) (currentId : option IdArg)
    (path : list Folder) : option (list Folder) :=
  match fuel with
  | O => None
  | S k =>
      if truthy_id currentId then
        match getFolderContext_nullable currentId arr with
        | Some context =>
            let parent := findParentFolderOfArray (trail context) arr in
            gfp_loop k arr
              (match parent with
               | Some p => Some (IdNum (fid p))
               | None => None
               end)
              (folder context :: path)
        | None => gfp_loop k arr None path
        end
      else Some path
  end.

Definition getFolderPath (fuel : nat) (L : Library) (folderId : IdArg)
  : option (list Folder) :=
  gfp_loop fuel (folders L) (Some folderId) [].

(** The folder that owns the array of a trail: the one at the end of the
    trail. *)
Fixpoint owner (t : list nat) (l : list Folder) : option Folder :=
  match t with
  | [] => None
  | [i] => l !! i
  | i :: t' =>
      match l !! i with
      | Some f => owner t' (subfolders f)
      | None => None
      end
  end.

(** The folders met on the way to a position, the root folder first and
    the folder at the position last. *)
Fixpoint along (t : list nat) (i : nat) (l : list Folder) : list Folder :=
  match t with
  | [] => match l !! i with Some f => [f] | None => [] end
  | j :: t' =>
      match l !! j with
      | Some f => f :: along t' i (subfolders f)
      | None => []
      end
  end.

(** No two folders of the tree have the same id. *)
Definition unique_ids (l : list Folder) : Prop :=
  forall t i f t' i' f',
    folder_at t i l = Some f -> folder_at t' i' l = Some f' ->
    fid f = fid f' -> (t, i) = (t', i').

(** A text without a comma. *)
Fixpoint no_comma (s : string) : Prop :=
  match s with
  | EmptyString => True
  | String a r => (JS.code a =? 44) = false /\ no_comma r
  end.

(** A tag that reads back as itself from the text of the tags prompt. *)
Definition stored_tag (t : string) : Prop :=
  no_comma t
  /\ JS.trim t = t
  /\ JS.trim (String (JS.chr 32) t) = t
  /\ exists a clean, t = String (JS.chr 35) (String a clean)
                     /\ JS.strip_hashes t = String a clean.

(** ** Restoring a backup: [importDataFromJSON] *)

(** What the handler sees of the chosen file: reading it as JSON throws
    (also when the text is [null], whose fields cannot be read), or gives a
    value in which [folders] or [allChats] is missing or falsy, or gives a
    library. *)
Inductive Parsed :=
| unreadable
| not_a_backup
| backup (L : Library).

Section Restore.
Context `{Host}.

(** [importDataFromJSON]; [file] is [None] when no file was chosen, and
    [confirmed] is the answer to [confirm]. *)
Definition importDataFromJSON (file : option Parsed) (confirmed : bool)
    (w : World) : option Notice * World :=
  match file with
  | None => (None, w)
  | Some unreadable => (Some json_parse_error, w)
  | Some not_a_backup => (Some invalid_backup_format, w)
  | Some (backup importedData) =>
      if confirmed
      then (Some backup_restore_success,
            saveAndRefresh (with_folderData w importedData))
      else (None, w)
  end.
End Restore.

(** ** The chats of a folder view: [showFolderContents] *)

(** [arr.sort(comparefn)] for a comparator that orders the elements: the
    sort is stable, so an element stays in front of the later elements it
    compares equal to. *)
Section ArraySort.
Context {A : Type}.
Variable comparefn : A -> A -> Z.

Fixpoint sort_insert (x : A) (l : list A) : list A :=
  match l with
  | [] => [x]
  | y :: r => if comparefn x y <=? 0 then x :: y :: r else y :: sort_insert x r
  end.

Definition Array_sort (l : list A) : list A := foldr sort_insert [] l.
End ArraySort.

(** [a.timestamp || 0] and [a.updatedAt || a.timestamp || 0] of an
    element of the list; an inherited member has neither field. *)
Definition created (a : Property) : Z :=
  match a with
  | own chat => timestamp chat
  | _ => 0
  end.

Definition touched (a : Property) : Z :=
  match a with
  | own chat =>
      match updatedAt chat with
      | Some u => if u =? 0 then timestamp chat else u
      | None => timestamp chat
      end
  | _ => 0
  end.

Definition is_own (a : Property) : bool :=
  match a with
  | own _ => true
  | _ => false
  end.

(** What [showFolderContents] makes of the list of chats: the folder is
    not found and the view stays as it is, or the sort throws, or the
    chats are listed in this order. *)
Inductive FolderView :=
| not_shown
| sort_throws
| shown (chats : list Property).

Section FolderView.
(** [a.localeCompare(b)], which depends on the locale of the browser. *)
Variable localeCompare : string -> string -> Z.

(** The alphabetical sort of a list that holds an inherited member:
    [a.title.localeCompare] throws when [a] is such a member, and which
    calls the sort makes is up to the engine.  [None] is the
    [TypeError]. *)
Variable alpha_sort_with_member : list Property -> option (list Property).

(** [folder.sortOrder || 'updated'] *)
Definition currentSort (f : Folder) : string :=
  match sortOrder f with
  | Some (String a r) => String a r
  | _ => "updated"%string
  end.

Definition title_of (a : Property) : string :=
  match a with
  | own chat => title chat
  | _ => "undefined"%string
  end.

Definition compare_chats (sort : string) (a b : Property) : Z :=
  if String.eqb sort "alpha" then localeCompare (title_of a) (title_of b)
  else if String.eqb sort "created" then created b - created a
  else touched b - touched a.

(** The chats [showFolderContents] lists for a folder id: what
    [folderData.allChats[id]] gives for the ids of the folder, without the
    falsy results, in the order of the sort. *)
Definition showFolderContents_chats (folderId : IdArg) (L : Library) : FolderView :=
  match getFolderContext folderId (folders L) with
  | None => not_shown
  | Some context =>
      let f := folder context in
      let chats :=
        omap (fun c => truthy_property (Object_get (allChats L) c)) (chatIds f) in
      if String.eqb (currentSort f) "alpha" && negb (forallb is_own chats)
      then match alpha_sort_with_member chats with
           | Some sorted => shown sorted
           | None => sort_throws
           end
      else shown (Array_sort (compare_chats (currentSort f)) chats)
  end.
End FolderView.

(** ** The diagnostic log: [generateDiagnosticLog] *)

(** The [counts] block of the log. *)
Record Counts := mkCounts {
  count_folders : nat;
  count_chats : nat;
  count_unlinked : nat;
  count_pinned : nat;
  count_tags : nat }.

Definition diagnostic_counts (L : Library) : Counts :=
  mkCounts (length (folders L)) (length (Object_keys (allChats L)))
    (length (findUnlinked L)) (length (pinnedSearches L))
    (length (getAllUniqueTags L)).

(** The [integrity] block: [is_clean]. *)
Definition diagnostic_is_clean (L : Library) : bool :=
  (length (findUnlinked L) =? 0)%nat.

(** ** A second sample: a folder with references that have no entry *)

Module Shelf.

(** [Inbox] (id 7) references two chats with an entry, an id without
    entry, and the id [constructor], which has no entry either but names
    an inherited member; its subfolder [Sub] (id 8) holds one chat. *)
Definition quote : string := String (JS.chr 34) EmptyString.

Definition a1 : ChatEntry :=
  mkChatEntry "a1" "Budget, 2024" ["#q1"; "#plan"]
    ("He said " +:+ quote +:+ "ok" +:+ quote) 1 (Some 9).

Definition line_feed : string := String (JS.chr 10) EmptyString.

Definition b2 : ChatEntry :=
  mkChatEntry "b2" "Notes" [] ("first" +:+ line_feed +:+ "second") 5 (Some 6).

Definition sub : Folder := mkFolder 8 "Sub" ["b2"] [] "" None.

Definition inbox (order : option string) : Folder :=
  mkFolder 7 "Inbox" ["a1"; "ghost"; "b2"; "constructor"] [sub] "" order.

Definition library (order : option string) : Library :=
  mkLibrary [inbox order] (<[ "a1" := a1 ]> (<[ "b2" := b2 ]> ∅)) [].

Definition header : string := ("Folder,Title,URL,Tags,Note" +:+ line_feed)%string.

(** The file [exportDataAsCSV] writes for this library. *)
Definition csv : string :=
  (header
   +:+ "Inbox," +:+ quote +:+ "Budget, 2024" +:+ quote
   +:+ ",https://gemini.google.com/app/a1,"
   +:+ quote +:+ "#q1, #plan" +:+ quote +:+ ","
   +:+ quote +:+ "He said " +:+ quote +:+ quote +:+ "ok" +:+ quote +:+ quote
   +:+ quote +:+ line_feed
   +:+ "Inbox,Notes,https://gemini.google.com/app/b2,,"
   +:+ quote +:+ "first" +:+ line_feed +:+ "second" +:+ quote +:+ line_feed
   +:+ "Inbox,,https://gemini.google.com/app/undefined,," +:+ line_feed
   +:+ "Inbox > Sub,Notes,https://gemini.google.com/app/b2,,"
   +:+ quote +:+ "first" +:+ line_feed +:+ "second" +:+ quote +:+ line_feed)%string.

End Shelf.

(** * Properties *)

(** ** Induction over a folder and its subfolders at once *)

Section FolderInduction.
Variable P : Folder -> Prop.
Variable Q : list Folder -> Prop.
Hypothesis Q_nil : Q [].
Hypothesis Q_cons : forall f l, P f -> Q l -> Q (f :: l).
Hypothesis P_folder : forall f, Q (subfolders f) -> P f.

Fixpoint folder_induction (f : Folder) : P f :=
  match f with
  | mkFolder i n c subs a o =>
      P_folder (mkFolder i n c subs a o)
        ((fix each (l : list Folder) : Q l :=
            match l with
            | [] => Q_nil
            | g :: rest => Q_cons g rest (folder_induction g) (each rest)
            end) subs)
  end.

Lemma forest_induction (l : list Folder) : Q l.
Proof.
  induction l as [|f l IH]; [exact Q_nil|].
  apply Q_cons; [apply folder_induction | exact IH].
Qed.
End FolderInduction.

(** ** Facts about the built-ins *)

Module JSFacts.
Import JS.

Lemma code_chr (z : Z) : 0 <= z < 256 -> code (chr z) = z.
Proof.
  intros Hz. unfold code, chr.
  rewrite N_ascii_embedding; lia.
Qed.

Lemma digit_val_digit_char (d : Z) :
  0 <= d < 10 -> digit_val (digit_char d) = Some d.
Proof.
  intros Hd. unfold digit_val, digit_char.
  rewrite code_chr by lia.
  replace ((48 <=? 48 + d) && (48 + d <=? 57)) with true
    by (symmetry; apply andb_true_iff; split; apply Z.leb_le; lia).
  f_equal. lia.
Qed.

Lemma digit_char_plain (d : Z) :
  0 <= d < 10 ->
  is_space (digit_char d) = false
  /\ (code (digit_char d) =? 45) = false
  /\ (code (digit_char d) =? 43) = false.
Proof.
  intros Hd. unfold is_space, digit_char. rewrite code_chr by lia.
  repeat split.
  - apply orb_false_iff; split; [apply orb_false_iff; split|].
    + apply andb_false_iff. right. apply Z.leb_gt. lia.
    + apply Z.eqb_neq. lia.
    + apply Z.eqb_neq. lia.
  - apply Z.eqb_neq. lia.
  - apply Z.eqb_neq. lia.
Qed.

Lemma trimEnd_no_space (s : string) : no_space s -> trimEnd s = s.
Proof.
  induction s as [|a r IH]; simpl; [done|].
  intros [Ha Hr]. rewrite (IH Hr), Ha. by destruct r.
Qed.

Lemma trim_no_space (s : string) : no_space s -> trim s = s.
Proof.
  intros Hs. unfold trim.
  destruct s as [|a r]; [done|].
  simpl. destruct Hs as [Ha Hr]. rewrite Ha.
  apply (trimEnd_no_space (String a r)). by split.
Qed.

Lemma digits_of_no_space (fuel : nat) (n : Z) (acc : string) :
  0 <= n -> no_space acc -> no_space (digits_of fuel n acc).
Proof.
  revert n acc. induction fuel as [|k IH]; intros n acc Hn Hacc; simpl; [done|].
  destruct (Z.ltb_spec n 10).
  - split; [|done]. apply digit_char_plain. lia.
  - apply IH.
    + apply Z.div_pos; lia.
    + split; [|done]. apply digit_char_plain.
      apply Z.mod_pos_bound. lia.
Qed.

(** With enough fuel the digits read back as the number. *)
Lemma digits_value_digits_of (fuel : nat) (n : Z) (acc : string) :
  0 <= n -> n < 2 ^ Z.of_nat fuel ->
  digits_value (digits_of fuel n acc) 0 = digits_value acc n.
Proof.
  revert n acc. induction fuel as [|k IH]; intros n acc Hn Hlt.
  - simpl in *. replace n with 0 by lia. done.
  - simpl. destruct (Z.ltb_spec n 10).
    + simpl. rewrite digit_val_digit_char by lia. done.
    + rewrite IH.
      * simpl. rewrite digit_val_digit_char by (apply Z.mod_pos_bound; lia).
        f_equal. pose proof (Z.div_mod n 10). lia.
      * apply Z.div_pos; lia.
      * rewrite Nat2Z.inj_succ, Z.pow_succ_r in Hlt by lia.
        apply Z.div_lt_upper_bound; lia.
Qed.

Lemma digits_value_digits (n : Z) :
  0 <= n -> digits_value (digits n) 0 = Some n.
Proof.
  intros Hn. unfold digits. rewrite digits_value_digits_of; [done|done|].
  destruct (Z.eq_dec n 0) as [->|Hne]; [done|].
  rewrite Nat2Z.inj_succ, Z2Nat.id by apply Z.log2_nonneg.
  apply Z.log2_spec. lia.
Qed.

Lemma digit_char_code (d : Z) : 0 <= d < 10 -> 48 <= code (digit_char d) <= 57.
Proof. intros Hd. unfold digit_char. rewrite code_chr by lia. lia. Qed.

Lemma digits_head (n : Z) :
  0 <= n -> exists a r, digits n = String a r /\ 48 <= code a <= 57.
Proof.
  intros Hn. unfold digits.
  generalize (Z.to_nat (Z.log2 n)) as k.
  assert (Hgen : forall k m acc, 0 <= m ->
    exists a r, digits_of (S k) m acc = String a r /\ 48 <= code a <= 57).
  { induction k as [|k IH]; intros m acc Hm.
    - simpl. destruct (Z.ltb_spec m 10).
      + eexists _, _. split; [done|]. apply digit_char_code. lia.
      + eexists _, _. split; [done|]. apply digit_char_code.
        apply Z.mod_pos_bound. lia.
    - change (digits_of (S (S k)) m acc)
        with (if m <? 10 then String (digit_char m) acc
              else digits_of (S k) (m / 10) (String (digit_char (m mod 10)) acc)).
      destruct (Z.ltb_spec m 10).
      + eexists _, _. split; [done|]. apply digit_char_code. lia.
      + apply IH. apply Z.div_pos; lia. }
  intros k. by apply Hgen.
Qed.

(** [ToNumber(String(n))] is [n]. *)
Lemma ToNumber_Number_toString (n : Z) : ToNumber (Number_toString n) = Some n.
Proof.
  unfold ToNumber, Number_toString.
  destruct (Z.ltb_spec n 0) as [Hneg|Hpos].
  - rewrite trim_no_space.
    2:{ split; [done|]. apply digits_of_no_space; [lia|done]. }
    replace (code (chr 45) =? 45) with true by done.
    destruct (digits_head (- n)) as (a & r & Hd & _); [lia|].
    rewrite Hd, <- Hd, digits_value_digits by lia.
    simpl. f_equal. lia.
  - rewrite trim_no_space by (apply digits_of_no_space; [lia|done]).
    destruct (digits_head n) as (a & r & Hd & Hcode); [lia|].
    rewrite Hd.
    replace (code a =? 45) with false by (symmetry; apply Z.eqb_neq; lia).
    replace (code a =? 43) with false by (symmetry; apply Z.eqb_neq; lia).
    rewrite <- Hd. by apply digits_value_digits.
Qed.

(** The text of a number starts with a minus or a digit. *)
Lemma Number_toString_head (n : Z) :
  exists a r, Number_toString n = String a r
              /\ (code a = 45 \/ 48 <= code a <= 57).
Proof.
  unfold Number_toString. destruct (Z.ltb_spec n 0) as [Hneg|Hpos].
  - eexists _, _. split; [done|]. by left.
  - destruct (digits_head n Hpos) as (a & r & Hd & Hcode).
    exists a, r. split; [done|]. by right.
Qed.

Lemma Number_toString_not_root (n : Z) : Number_toString n <> "root"%string.
Proof.
  destruct (Number_toString_head n) as (a & r & Heq & Hcode).
  rewrite Heq. intros [= -> _]. vm_compute in Hcode.
  destruct Hcode as [?|[Hlow ?]]; [discriminate|]. by apply Hlow.
Qed.

End JSFacts.


(** ** Folders of a tree and their positions *)

Lemma in_tree_nil (f : Folder) : ~ in_tree f [].
Proof. inversion 1 as [l Hin|g l Hin _]; by apply elem_of_nil in Hin. Qed.

Lemma in_tree_cons (f g : Folder) (l : list Folder) :
  in_tree f (g :: l) <-> f = g \/ in_tree f (subfolders g) \/ in_tree f l.
Proof.
  split.
  - inversion 1 as [l' Hin|g' l' Hin Hsub]; subst.
    + apply elem_of_cons in Hin as [->|Hin]; [by left|].
      right; right. by apply in_tree_here.
    + apply elem_of_cons in Hin as [->|Hin]; [by right; left|].
      right; right. by eapply in_tree_below.
  - intros [->|[Hsub|Hrest]].
    + apply in_tree_here. by left.
    + eapply in_tree_below; [|exact Hsub]. by left.
    + inversion Hrest as [l' Hin|g' l' Hin Hsub]; subst.
      * apply in_tree_here. by right.
      * eapply in_tree_below; [|exact Hsub]. by right.
Qed.

Lemma in_tree_positions (f : Folder) (l : list Folder) :
  in_tree f l <-> exists t i, folder_at t i l = Some f.
Proof.
  split.
  - induction 1 as [l Hin|g l Hin _ (t & i & Hat)].
    + apply list_elem_of_lookup in Hin as [i Hi]. by exists [], i.
    + apply list_elem_of_lookup in Hin as [j Hj].
      exists (j :: t), i. unfold folder_at in *. simpl. by rewrite Hj.
  - intros (t & i & Hat). revert l Hat.
    induction t as [|j t IH]; intros l Hat; unfold folder_at in *; simpl in *.
    + apply in_tree_here. by eapply list_elem_of_lookup_2.
    + destruct (l !! j) as [g|] eqn:Hj; [|done].
      eapply in_tree_below; [by eapply list_elem_of_lookup_2|]. by apply IH.
Qed.

(** ** [getFolderContext] *)

Lemma gfc_below_unfold (given : IdArg) (f : Folder) :
  gfc_below given f
  = gfc_loop given (gfc_below given) (subfolders f) 0%nat (subfolders f).
Proof. by destruct f. Qed.

Lemma gfc_loop_located (given : IdArg) (l : list Folder) :
  forall pre c,
    gfc_loop given (gfc_below given) (pre ++ l) (length pre) l = Some c ->
    located given (pre ++ l) c.
Proof.
  apply (forest_induction
    (fun f => forall c, gfc_below given f = Some c -> located given (subfolders f) c)
    (fun l => forall pre c,
       gfc_loop given (gfc_below given) (pre ++ l) (length pre) l = Some c ->
       located given (pre ++ l) c)).
  - intros pre c Hc. done.
  - intros f rest IHf IHrest pre c. simpl.
    destruct (loose_eq (fid f) given) eqn:Heq.
    + intros [= <-]. repeat split; simpl; [|done].
      by rewrite lookup_app_r, Nat.sub_diag by lia.
    + destruct (gfc_below given f) as [c'|] eqn:Hbelow.
      * intros [= <-]. destruct (IHf c' eq_refl) as (Ha & Hi & Hl).
        repeat split; simpl; [|done|done].
        by rewrite lookup_app_r, Nat.sub_diag by lia.
      * intros Hc. specialize (IHrest (pre ++ [f]) c).
        rewrite <- (assoc_L (++)), length_app in IHrest. simpl in IHrest.
        rewrite Nat.add_1_r in IHrest. by apply IHrest.
  - intros f IH c Hc. rewrite gfc_below_unfold in Hc. by apply (IH []).
Qed.

Lemma getFolderContext_located (given : IdArg) (l : list Folder) (c : Context) :
  getFolderContext given l = Some c -> located given l c.
Proof. apply (gfc_loop_located given l []). Qed.

Lemma array_at_in_tree (t : list nat) (l a : list Folder) (i : nat) (f : Folder) :
  array_at t l = Some a -> a !! i = Some f -> in_tree f l.
Proof.
  intros Ha Hi. apply in_tree_positions. exists t, i.
  unfold folder_at. by rewrite Ha.
Qed.

Lemma getFolderContext_in_tree (given : IdArg) (l : list Folder) (c : Context) :
  getFolderContext given l = Some c -> in_tree (folder c) l.
Proof.
  intros (Ha & Hi & _)%getFolderContext_located. by eapply array_at_in_tree.
Qed.

(** The search depends on the given id only through the comparison. *)
Lemma gfc_loop_ext (g1 g2 : IdArg) :
  (forall k, loose_eq k g1 = loose_eq k g2) ->
  forall l arr i,
    gfc_loop g1 (gfc_below g1) arr i l = gfc_loop g2 (gfc_below g2) arr i l.
Proof.
  intros Heq.
  apply (forest_induction
    (fun f => gfc_below g1 f = gfc_below g2 f)
    (fun l => forall arr i,
       gfc_loop g1 (gfc_below g1) arr i l = gfc_loop g2 (gfc_below g2) arr i l)).
  - done.
  - intros f rest IHf IHrest arr i. simpl.
    by rewrite Heq, IHf, IHrest.
  - intros f IH. rewrite !gfc_below_unfold. apply IH.
Qed.

(** Nothing is found exactly when no folder of the tree has the id. *)
Lemma gfc_loop_None (given : IdArg) :
  forall l arr i,
    gfc_loop given (gfc_below given) arr i l = None <->
    (forall f, in_tree f l -> loose_eq (fid f) given = false).
Proof.
  apply (forest_induction
    (fun f => gfc_below given f = None <->
              (forall g, in_tree g (subfolders f) -> loose_eq (fid g) given = false))
    (fun l => forall arr i,
       gfc_loop given (gfc_below given) arr i l = None <->
       (forall f, in_tree f l -> loose_eq (fid f) given = false))).
  - intros arr i. split; [|done]. intros _ f Hf. by apply in_tree_nil in Hf.
  - intros f rest IHf IHrest arr i. simpl. split.
    + destruct (loose_eq (fid f) given) eqn:Heq; [done|].
      destruct (gfc_below given f) eqn:Hbelow; [done|].
      intros Hrest g [->|[Hsub|Hin]]%in_tree_cons; [done| |].
      * by apply IHf.
      * by eapply IHrest.
    + intros Hall.
      rewrite (Hall f) by (apply in_tree_cons; by left).
      assert (gfc_below given f = None) as ->.
      { apply IHf. intros g Hg. apply Hall, in_tree_cons. by right; left. }
      apply IHrest. intros g Hg. apply Hall, in_tree_cons. by right; right.
  - intros f IH. rewrite gfc_below_unfold. apply IH.
Qed.

Lemma getFolderContext_None (given : IdArg) (l : list Folder) :
  getFolderContext given l = None <->
  (forall f, in_tree f l -> loose_eq (fid f) given = false).
Proof. apply gfc_loop_None. Qed.

Lemma loose_eq_Number_toString (k n : Z) :
  loose_eq k (IdStr (JS.Number_toString n)) = loose_eq k (IdNum n).
Proof. simpl. by rewrite JSFacts.ToNumber_Number_toString. Qed.

Lemma getFolderContext_Number_toString (arr : list Folder) (n : Z) :
  getFolderContext (IdStr (JS.Number_toString n)) arr = getFolderContext (IdNum n) arr.
Proof. apply gfc_loop_ext. intros k. apply loose_eq_Number_toString. Qed.

Lemma is_root_Number_toString (n : Z) : is_root (IdStr (JS.Number_toString n)) = false.
Proof.
  simpl. apply String.eqb_neq, JSFacts.Number_toString_not_root.
Qed.

(** ** The save path *)

Section SavePath.
Context `{Host}.

Lemma folderData_refreshFolderList (w : World) :
  folderData (refreshFolderList w) = folderData w.
Proof. unfold refreshFolderList. by destruct (sidebar w). Qed.

Lemma folderData_saveAndRefresh (w : World) :
  folderData (saveAndRefresh w) = folderData w.
Proof.
  rewrite <- (folderData_refreshFolderList w).
  unfold saveAndRefresh.
  destruct (runtime_id _); [|done].
  destruct (_ >? _); [done|]. by destruct (set_outcome _).
Qed.

Lemma skips_saveAndRefresh (w : World) :
  skips (maktabaStats (saveAndRefresh w)) = skips (maktabaStats w).
Proof.
  unfold saveAndRefresh, refreshFolderList.
  destruct (sidebar w); simpl;
    (destruct (runtime_id w); [|done]);
    (destruct (_ >? _); [done|]); by destruct (set_outcome w).
Qed.

(** The gatekeeper in general: at most [QUOTA_LIMIT - SAFETY_BUFFER]
    bytes are handed to the port, anything larger is not. *)
Lemma saveAndRefresh_gate (w : World) :
  runtime_id w = true ->
  let bytes := Blob_size (JSON_stringify (folderData w)) in
  (bytes <= QUOTA_LIMIT - SAFETY_BUFFER ->
     sync_set_calls (saveAndRefresh w) = folderData w :: sync_set_calls w)
  /\ (QUOTA_LIMIT - SAFETY_BUFFER < bytes ->
     sync_set_calls (saveAndRefresh w) = sync_set_calls w
     /\ alerts (saveAndRefresh w)
        = storage_full_alert (JS.kilobytes_toFixed1 bytes) :: alerts w).
Proof.
  intros Hrt bytes. unfold saveAndRefresh.
  assert (Hr : runtime_id (refreshFolderList w) = true).
  { unfold refreshFolderList. by destruct (sidebar w). }
  assert (Hc : sync_set_calls (refreshFolderList w) = sync_set_calls w).
  { unfold refreshFolderList. by destruct (sidebar w). }
  assert (Ha : alerts (refreshFolderList w) = alerts w).
  { unfold refreshFolderList. by destruct (sidebar w). }
  rewrite Hr, folderData_refreshFolderList. fold bytes.
  split; intros Hb.
  - replace (bytes >? QUOTA_LIMIT - SAFETY_BUFFER) with false
      by (symmetry; rewrite Z.gtb_ltb; apply Z.ltb_ge; lia).
    destruct (set_outcome _); simpl;
      by rewrite Hc, folderData_refreshFolderList.
  - replace (bytes >? QUOTA_LIMIT - SAFETY_BUFFER) with true
      by (symmetry; rewrite Z.gtb_ltb; apply Z.ltb_lt; lia).
    simpl. by rewrite Hc, Ha.
Qed.

(** The text [(b / 1024).toFixed(1)] is a decimal numeral with one digit
    after the point, and the number it denotes is the tenth of a kilobyte
    nearest to [b] bytes, the larger one on a tie. *)
Lemma kilobytes_toFixed1_nearest_tenth (b : Z) :
  0 <= b ->
  exists whole tenth,
    JS.kilobytes_toFixed1 b
    = (JS.Number_toString whole +:+ "." +:+ String (JS.digit_char tenth) "")%string
    /\ 0 <= whole /\ 0 <= tenth <= 9
    /\ -512 < 1024 * (10 * whole + tenth) - 10 * b <= 512.
Proof.
  intros Hb. set (n := (10 * b + 512) / 1024).
  exists (n / 10), (n mod 10).
  assert (Hn : 1024 * n <= 10 * b + 512 < 1024 * n + 1024).
  { pose proof (Z.div_mod (10 * b + 512) 1024 ltac:(lia)) as Hdm.
    pose proof (Z.mod_pos_bound (10 * b + 512) 1024 ltac:(lia)) as Hm.
    fold n in Hdm. lia. }
  pose proof (Z.div_mod n 10 ltac:(lia)) as Hdm.
  pose proof (Z.mod_pos_bound n 10 ltac:(lia)) as Hm.
  assert (0 <= n) by (apply Z.div_pos; lia).
  split; [done|]. split; [apply Z.div_pos; lia|]. split; [lia|]. lia.
Qed.

(** C1.  With the extension context alive, a library that serializes to
    exactly 100,352 bytes is handed to [chrome.storage.sync.set]; one
    that serializes to 100,353 bytes or more is not: no call to the port
    is made, the library in memory stays as it is, and an alert shows
    the measured size: its text is a decimal numeral with one digit after
    the point, which denotes the tenth of a kilobyte nearest to the
    measured bytes divided by 1024. *)
Theorem quota_gatekeeper_boundary (w : World) :
  runtime_id w = true ->
  let bytes := Blob_size (JSON_stringify (folderData w)) in
  (bytes = 100352 ->
     sync_set_calls (saveAndRefresh w) = folderData w :: sync_set_calls w)
  /\ (100353 <= bytes ->
     sync_set_calls (saveAndRefresh w) = sync_set_calls w
     /\ folderData (saveAndRefresh w) = folderData w
     /\ alerts (saveAndRefresh w)
        = storage_full_alert (JS.kilobytes_toFixed1 bytes) :: alerts w
     /\ exists whole tenth,
          alerts (saveAndRefresh w)
          = storage_full_alert
              (JS.Number_toString whole +:+ "."
               +:+ String (JS.digit_char tenth) "")
            :: alerts w
          /\ 98 <= whole /\ 0 <= tenth <= 9
          /\ -512 < 1024 * (10 * whole + tenth) - 10 * bytes <= 512).
Proof.
  intros Hrt bytes.
  destruct (saveAndRefresh_gate w Hrt) as [Hlow Hhigh].
  fold bytes in Hlow, Hhigh. unfold QUOTA_LIMIT, SAFETY_BUFFER in *.
  split; intros Hb.
  - apply Hlow. lia.
  - destruct Hhigh as [Hc Ha]; [lia|].
    split; [done|]. split; [by rewrite folderData_saveAndRefresh|].
    split; [done|].
    destruct (kilobytes_toFixed1_nearest_tenth bytes ltac:(lia))
      as (whole & tenth & Htext & Hwhole & Htenth & Hnear).
    exists whole, tenth. rewrite Ha, Htext.
    split; [done|]. split; [lia|]. split; [lia|lia].
Qed.

(** ** The storage-change listener *)

Lemma onChanged_same (w : World) (newData : Library) :
  JSON_stringify newData = JSON_stringify (folderData w) ->
  onChanged "sync" (Some (Some newData)) w = w.
Proof.
  intros Heq. unfold onChanged. simpl.
  rewrite bool_decide_eq_true_2; [done|]. by rewrite Heq.
Qed.

Lemma onChanged_different (w : World) (newData : Library) :
  JSON_stringify newData <> JSON_stringify (folderData w) ->
  onChanged "sync" (Some (Some newData)) w
  = refreshFolderList (with_folderData w newData).
Proof.
  intros Hne. unfold onChanged. simpl.
  rewrite bool_decide_eq_false_2; [done|]. intros [= Heq]. by apply Hne.
Qed.

(** C9.  The listener never touches the skip counter: whatever the
    notification, [maktabaStats.skips] after it is what it was before,
    and so is the [session_skips] of the diagnostic log.  (A notification
    that serializes like the library in memory leaves the whole instance
    as it is, see [onChanged_same].) *)
Theorem onChanged_never_counts_a_skip (namespace : string)
    (change : option (option Library)) (w : World) :
  skips (maktabaStats (onChanged namespace change w)) = skips (maktabaStats w)
  /\ snd (diagnostic_activity (onChanged namespace change w))
     = snd (diagnostic_activity w).
Proof.
  assert (Hs : skips (maktabaStats (onChanged namespace change w))
               = skips (maktabaStats w)).
  { unfold onChanged. destruct change as [newData|]; [|done].
    destruct (String.eqb _ _); [|done].
    destruct (negb _); [|done].
    unfold refreshFolderList. simpl. by destruct (sidebar w). }
  by split.
Qed.
End SavePath.

(** ** Search *)

Lemma span_length (p : ascii -> bool) (s : string) :
  (String.length (fst (Query.span p s)) + String.length (snd (Query.span p s))
   = String.length s)%nat.
Proof.
  induction s as [|a r IH]; simpl; [done|].
  destruct (p a); [|done].
  destruct (Query.span p r) as [w rest]. simpl in *. lia.
Qed.

Lemma body_after (m0 s : string) (m : Query.Match) :
  Query.body m0 s = Some m ->
  (String.length (Query.after m) < String.length s)%nat.
Proof.
  assert (Hword :
    match Query.span (fun a => negb (JS.is_space a)) s with
    | (EmptyString, _) => None
    | (w, rest) => Some (Query.mkMatch m0 None (Some w) rest)
    end = Some m ->
    (String.length (Query.after m) < String.length s)%nat).
  { pose proof (span_length (fun a => negb (JS.is_space a)) s) as Hlen.
    destruct (Query.span _ s) as [[|b w] rest]; [done|].
    intros [= <-]. simpl in *. lia. }
  unfold Query.body. destruct s as [|q r]; [exact Hword|].
  destruct (Query.is_quote q); [|exact Hword].
  pose proof (span_length (fun a => negb (Query.is_quote a)) r) as Hlen.
  destruct (Query.span _ r) as [[|b phrase] [|c rest]]; try exact Hword.
  intros [= <-]. simpl in *. lia.
Qed.

Lemma match_at_after (s : string) (m : Query.Match) :
  Query.match_at s = Some m ->
  (String.length (Query.after m) < String.length s)%nat.
Proof.
  unfold Query.match_at. destruct s as [|a r]; [done|].
  destruct (Query.is_minus a).
  - destruct (Query.body _ r) as [m'|] eqn:Hbody.
    + intros [= <-]. apply body_after in Hbody. simpl. lia.
    + apply body_after.
  - apply body_after.
Qed.

(** The fuel of [tokenize] is enough: no larger amount changes the
    tokens. *)
Lemma exec_loop_fuel (fuel : nat) (s : string) :
  (String.length s <= fuel)%nat ->
  Query.exec_loop fuel s = Query.tokenize s.
Proof.
  unfold Query.tokenize.
  assert (Hgen : forall k1 k2 s,
            (String.length s <= k1)%nat -> (String.length s <= k2)%nat ->
            Query.exec_loop k1 s = Query.exec_loop k2 s).
  { induction k1 as [|k1 IH]; intros k2 s' H1 H2.
    - destruct s'; [|simpl in H1; lia]. by destruct k2.
    - destruct k2 as [|k2]; [destruct s'; [done|simpl in H2; lia]|].
      destruct s' as [|a next]; [done|].
      cbn [Query.exec_loop].
      destruct (Query.match_at (String a next)) as [m|] eqn:Hm.
      + apply match_at_after in Hm. simpl in *.
        rewrite (IH k2 (Query.after m)) by lia. done.
      + simpl in *. apply IH; lia. }
  intros Hfuel. by apply Hgen.
Qed.

Lemma tokenize_work_not_old_project :
  Query.tokenize work_not_old_project
  = [mkToken tag "work"; mkToken not_text "old project"].
Proof. vm_compute. reflexivity. Qed.

Lemma existsb_elem_of {A} (p : A -> bool) (l : list A) :
  existsb p l = true <-> exists x, x ∈ l /\ p x = true.
Proof.
  rewrite existsb_exists. split; intros (x & Hx & Hp); exists x;
    (split; [by apply list_elem_of_In|done]).
Qed.

(** C7.  Against the query made of the tag [#work] and the excluded phrase
    [old project], a chat matches exactly when one of its tags contains
    [work] and neither its title nor its annotation contains the phrase
    (all compared in lower case).  So a chat with such a tag and without
    the phrase matches, and a chat without such a tag does not, phrase or
    no phrase. *)
Theorem query_tag_and_excluded_phrase (chat : ChatEntry) :
  isMatch chat (Query.tokenize work_not_old_project) = true <->
  (exists t, t ∈ tags chat /\ JS.includes (JS.toLowerCase t) "work" = true)
  /\ JS.includes (JS.toLowerCase (title chat)) "old project" = false
  /\ JS.includes (JS.toLowerCase (annotation chat)) "old project" = false.
Proof.
  rewrite tokenize_work_not_old_project. unfold isMatch. simpl.
  rewrite andb_true_r, !andb_true_iff, !negb_true_iff, existsb_elem_of.
  split.
  - intros [(t' & Hin & Hinc) Hno]. split; [|done].
    apply list_elem_of_fmap in Hin as (t & -> & Hin). by exists t.
  - intros [(t & Hin & Hinc) Hno]. split; [|done].
    exists (JS.toLowerCase t). split; [|done].
    apply list_elem_of_fmap. by exists t.
Qed.

(** ** Linking a chat *)

Section Linking.
Context `{Host}.

(** C5.  When the folder already holds the chat, [saveChatToFolder]
    returns [false] and leaves the folder tree alone, but the entry of
    the chat in [allChats] has been overwritten by then: it carries the
    title, tags, annotation and update time of this call. *)
Theorem saveChatToFolder_present_overwrites_entry
    (now_created now_updated : Z) (folderId : IdArg)
    (chatId chatTitle : string) (tgs : list string) (note : string)
    (w : World) (context : Context) :
  getFolderContext folderId (folders (folderData w)) = Some context ->
  JS.array_includes (chatIds (folder context)) chatId = true ->
  let r := saveChatToFolder now_created now_updated folderId chatId chatTitle
             tgs note w in
  fst r = false
  /\ folders (folderData (snd r)) = folders (folderData w)
  /\ sync_set_calls (snd r) = sync_set_calls w
  /\ exists e, allChats (folderData (snd r)) !! chatId = Some e
               /\ title e = chatTitle
               /\ tags e = sanitizedTags tgs
               /\ annotation e = note
               /\ updatedAt e = Some now_updated.
Proof.
  intros Hctx Hinc r. subst r. unfold saveChatToFolder.
  rewrite Hctx, Hinc. simpl. repeat split.
  eexists. rewrite lookup_insert_eq. done.
Qed.
End Linking.

(** ** Tags *)

Lemma strip_hashes_head (s : string) :
  match JS.strip_hashes s with
  | String a _ => (JS.code a =? 35) = false
  | EmptyString => True
  end.
Proof.
  induction s as [|a r IH]; simpl; [done|].
  destruct (JS.code a =? 35) eqn:Ha; [done|]. by rewrite Ha.
Qed.

(** What [editChatTags] stores: every tag is one marker followed by a body
    that is not empty and does not start with a marker. *)
Lemma edited_tags_shape (input t : string) :
  t ∈ edited_tags input ->
  exists a body, t = String (JS.chr 35) (String a body)
                 /\ (JS.code a =? 35) = false.
Proof.
  unfold edited_tags. intros Hin.
  apply list_elem_of_omap in Hin as (raw & _ & Hsome).
  pose proof (strip_hashes_head (JS.trim raw)) as Hhead.
  destruct (JS.strip_hashes (JS.trim raw)) as [|a body]; simpl in Hsome; [done|].
  injection Hsome as <-. by exists a, body.
Qed.

(** C8.  [saveChatToFolder] stores a tag for every tag it is given: an
    empty tag and a tag made of markers only are stored as the bare marker
    [#], and a body keeps the white space that follows the markers.
    [editChatTags] drops the empty and the marker-only tags of the same
    input and keeps that white space too. *)
Theorem saveChatToFolder_stores_marker_only_tags :
  let given := [""; "#"; " ## "; "# draft"; "#work"] in
  let r := saveChatToFolder (H := reference_host) 5000 5000 (IdNum 1) "c9"
             "New chat" given "" (Sample.world Sample.library) in
  fst r = true
  /\ tags <$> (allChats (folderData (snd r)) !! "c9")
     = Some ["#"; "#"; "#"; "# draft"; "#work"]
  /\ edited_tags ",#, ## ,# draft,#work" = ["# draft"; "#work"].
Proof. vm_compute. done. Qed.

(** ** Unlinked chats *)

Lemma fold_left_add_ids (ids : list string) (acc : gset string) (c : string) :
  c ∈ fold_left (fun acc x => {[ x ]} ∪ acc) ids acc <-> c ∈ acc \/ c ∈ ids.
Proof.
  revert acc. induction ids as [|x ids IH]; intros acc; simpl.
  - rewrite elem_of_nil. tauto.
  - rewrite IH, elem_of_union, elem_of_singleton, elem_of_cons. tauto.
Qed.

Lemma unlinked_traverse_forest (c : string) (l : list Folder) :
  forall acc,
    c ∈ fold_left (fun acc g => unlinked_traverse g acc) l acc <->
    c ∈ acc \/ exists f, in_tree f l /\ c ∈ chatIds f.
Proof.
  revert l.
  apply (forest_induction
    (fun f => forall acc,
       c ∈ unlinked_traverse f acc <->
       c ∈ acc \/ c ∈ chatIds f
       \/ exists g, in_tree g (subfolders f) /\ c ∈ chatIds g)
    (fun l => forall acc,
       c ∈ fold_left (fun acc g => unlinked_traverse g acc) l acc <->
       c ∈ acc \/ exists f, in_tree f l /\ c ∈ chatIds f)).
  - intros acc. simpl. split; [by left|].
    intros [?|(f & Hf & _)]; [done|]. by apply in_tree_nil in Hf.
  - intros f rest IHf IHrest acc. simpl. rewrite IHrest, IHf. split.
    + intros [[Hacc|[Hhere|(g & Hg & Hc)]]|(g & Hg & Hc)].
      * by left.
      * right. exists f. split; [|done]. apply in_tree_cons. by left.
      * right. exists g. split; [|done]. apply in_tree_cons. by right; left.
      * right. exists g. split; [|done]. apply in_tree_cons. by right; right.
    + intros [Hacc|(g & Hg & Hc)]; [by left; left|].
      apply in_tree_cons in Hg as [->|[Hsub|Hrest]].
      * left. by right; left.
      * left. right; right. by exists g.
      * right. by exists g.
  - intros f IH acc.
    assert (Hunfold : unlinked_traverse f acc
      = fold_left (fun acc g => unlinked_traverse g acc) (subfolders f)
          (fold_left (fun acc x => {[ x ]} ∪ acc) (chatIds f) acc))
      by (by destruct f).
    rewrite Hunfold, IH, fold_left_add_ids. tauto.
Qed.

Lemma elem_of_Object_keys (m : gmap string ChatEntry) (c : string) :
  c ∈ Object_keys m <-> is_Some (m !! c).
Proof.
  unfold Object_keys. rewrite list_elem_of_fmap. split.
  - intros ([k v] & -> & Hin). apply elem_of_map_to_list in Hin. by exists v.
  - intros [v Hv]. exists (c, v). split; [done|]. by apply elem_of_map_to_list.
Qed.

(** C6.  [findUnlinked] returns, without repetition, exactly the keys of
    [allChats] that no folder of the tree references, at any depth; so no
    id it returns is referenced. *)
Theorem findUnlinked_correct (L : Library) :
  (forall c, c ∈ findUnlinked L <->
             is_Some (allChats L !! c) /\ ~ referenced L c)
  /\ NoDup (findUnlinked L)
  /\ (forall c, c ∈ findUnlinked L -> ~ referenced L c).
Proof.
  assert (Hiff : forall c, c ∈ findUnlinked L <->
                           is_Some (allChats L !! c) /\ ~ referenced L c).
  { intros c. unfold findUnlinked, referenced.
    rewrite list_elem_of_filter, elem_of_Object_keys, unlinked_traverse_forest.
    rewrite elem_of_empty. tauto. }
  split; [exact Hiff|]. split.
  - unfold findUnlinked. apply NoDup_filter, NoDup_fst_map_to_list.
  - intros c Hc. by apply Hiff in Hc as [_ ?].
Qed.

(** ** Writing [chatIds] through a context *)

Lemma without_chatIds_unfold (f : Folder) :
  without_chatIds f
  = mkFolder (fid f) (name f) [] (map without_chatIds (subfolders f))
      (fannotation f) (sortOrder f).
Proof. by destruct f. Qed.

Lemma without_chatIds_set_chatIds (f : Folder) (c : list string) :
  without_chatIds (set_chatIds f c) = without_chatIds f.
Proof. by rewrite !without_chatIds_unfold. Qed.

Lemma map_without_chatIds_alter (h : Folder -> Folder) (i : nat) (a : list Folder) :
  (forall f, without_chatIds (h f) = without_chatIds f) ->
  map without_chatIds (alter h i a) = map without_chatIds a.
Proof.
  intros Hh. revert i. induction a as [|f a IH]; intros [|i]; simpl; [done..| |].
  - by rewrite Hh.
  - f_equal. apply IH.
Qed.

Lemma update_array_without_chatIds (g : list Folder -> list Folder) (t : list nat) :
  (forall a, map without_chatIds (g a) = map without_chatIds a) ->
  forall l, map without_chatIds (update_array g t l) = map without_chatIds l.
Proof.
  intros Hg. induction t as [|i t IH]; intros l; simpl; [apply Hg|].
  apply map_without_chatIds_alter. intros f.
  rewrite !without_chatIds_unfold. simpl. by rewrite IH.
Qed.

Lemma array_at_update_array (g : list Folder -> list Folder) (t : list nat) :
  forall l a,
    array_at t l = Some a -> array_at t (update_array g t l) = Some (g a).
Proof.
  induction t as [|i t IH]; intros l a; simpl.
  - by intros [= ->].
  - destruct (l !! i) as [f|] eqn:Hi; [|done]. intros Ha.
    rewrite list_lookup_alter_eq, Hi. simpl. by apply IH.
Qed.

(** Two trees that differ in [chatIds] only are searched alike. *)
Lemma gfc_loop_position (given : IdArg) (l : list Folder) :
  forall l' arr arr' i,
    map without_chatIds l = map without_chatIds l' ->
    position <$> gfc_loop given (gfc_below given) arr i l
    = position <$> gfc_loop given (gfc_below given) arr' i l'.
Proof.
  apply (forest_induction
    (fun f => forall f',
       without_chatIds f = without_chatIds f' ->
       position <$> gfc_below given f = position <$> gfc_below given f')
    (fun l => forall l' arr arr' i,
       map without_chatIds l = map without_chatIds l' ->
       position <$> gfc_loop given (gfc_below given) arr i l
       = position <$> gfc_loop given (gfc_below given) arr' i l')).
  - intros [|f' l'] arr arr' i Heq; [done|discriminate].
  - intros f rest IHf IHrest [|f' rest'] arr arr' i Heq; [discriminate|].
    simpl in Heq. injection Heq as Hf Hrest.
    assert (Hid : fid f = fid f').
    { rewrite !without_chatIds_unfold in Hf. by injection Hf. }
    simpl. rewrite <- Hid.
    destruct (loose_eq (fid f) given); [done|].
    specialize (IHf f' Hf).
    destruct (gfc_below given f) as [c|], (gfc_below given f') as [c'|];
      simpl in IHf; try discriminate.
    + injection IHf as Ht Hi. unfold position. simpl. by rewrite Ht, Hi.
    + by apply IHrest.
  - intros f IH f' Hf. rewrite !gfc_below_unfold.
    apply IH. rewrite !without_chatIds_unfold in Hf. by injection Hf.
Qed.

Lemma getFolderContext_after_chatIds (given : IdArg) (k : list string -> list string)
    (l : list Folder) (c : Context) :
  getFolderContext given l = Some c ->
  exists c',
    getFolderContext given
      (update_folder (fun f => set_chatIds f (k (chatIds f))) c l) = Some c'
    /\ trail c' = trail c /\ index c' = index c
    /\ folder c' = set_chatIds (folder c) (k (chatIds (folder c))).
Proof.
  intros Hc. set (h := fun f => set_chatIds f (k (chatIds f))).
  set (l' := update_folder h c l).
  assert (Hsame : map without_chatIds l = map without_chatIds l').
  { symmetry. apply update_array_without_chatIds. intros a.
    apply map_without_chatIds_alter. intros f.
    apply without_chatIds_set_chatIds. }
  pose proof (gfc_loop_position given l l' l l' 0%nat Hsame) as Hpos.
  fold (getFolderContext given l) in Hpos.
  fold (getFolderContext given l') in Hpos. rewrite Hc in Hpos.
  destruct (getFolderContext given l') as [c'|] eqn:Hc'; [|discriminate].
  simpl in Hpos. injection Hpos as Ht Hi.
  exists c'. repeat split; [done..|].
  destruct (getFolderContext_located _ _ _ Hc) as (Ha & Hl & _).
  destruct (getFolderContext_located _ _ _ Hc') as (Ha' & Hl' & _).
  pose proof (array_at_update_array (alter h (index c)) _ _ _ Ha) as Hnew.
  fold (update_folder h c l) in Hnew. fold l' in Hnew.
  rewrite Ht, Ha' in Hnew. injection Hnew as Hsib.
  rewrite Hsib, <- Hi, list_lookup_alter_eq, Hl in Hl'.
  simpl in Hl'. by injection Hl'.
Qed.

(** The references of every folder after the [chatIds] of one folder have
    been rewritten: changed at that position, the same everywhere else. *)
Lemma chatIds_after_update (k : list string -> list string) (t : list nat) (i : nat) :
  forall l t' i',
    chatIds <$> folder_at t' i'
      (update_array (alter (fun f => set_chatIds f (k (chatIds f))) i) t l)
    = (if decide ((t', i') = (t, i)) then k else fun x => x)
        <$> (chatIds <$> folder_at t' i' l).
Proof.
  set (h := fun f => set_chatIds f (k (chatIds f))).
  assert (Hplain : forall o : option Folder,
            chatIds <$> o = (fun x => x) <$> (chatIds <$> o))
    by (by intros [?|]).
  induction t as [|m t IH]; intros l t' i';
    [destruct (decide ((t', i') = ([], i))) as [Heq|Hne]
    |destruct (decide ((t', i') = (m :: t, i))) as [Heq|Hne]].
  - injection Heq as -> ->. unfold folder_at. cbn [update_array array_at].
    rewrite list_lookup_alter_eq. by destruct (l !! i).
  - destruct t' as [|j t'']; unfold folder_at; cbn [update_array array_at].
    + rewrite list_lookup_alter_ne by congruence. apply Hplain.
    + destruct (decide (i = j)) as [->|Hij].
      * rewrite list_lookup_alter_eq.
        destruct (l !! j) as [f|]; [|done]. apply Hplain.
      * rewrite list_lookup_alter_ne by done. apply Hplain.
  - injection Heq as -> ->. unfold folder_at. cbn [update_array array_at].
    rewrite list_lookup_alter_eq. destruct (l !! m) as [f|]; [|done].
    cbn [fmap option_fmap option_map subfolders set_subfolders].
    specialize (IH (subfolders f) t i). unfold folder_at in IH.
    by rewrite decide_True in IH.
  - destruct t' as [|j t'']; unfold folder_at; cbn [update_array array_at].
    + destruct (decide (m = i')) as [->|Hmi].
      * rewrite list_lookup_alter_eq. by destruct (l !! i').
      * rewrite list_lookup_alter_ne by done. apply Hplain.
    + destruct (decide (m = j)) as [->|Hmj].
      * rewrite list_lookup_alter_eq. destruct (l !! j) as [f|]; [|done].
        cbn [fmap option_fmap option_map subfolders set_subfolders].
        specialize (IH (subfolders f) t'' i'). unfold folder_at in IH.
        rewrite decide_False in IH by congruence. apply IH.
      * rewrite list_lookup_alter_ne by done. apply Hplain.
Qed.

Lemma array_includes_true (l : list string) (c : string) :
  JS.array_includes l c = true <-> c ∈ l.
Proof.
  unfold JS.array_includes. rewrite existsb_elem_of. split.
  - intros (x & Hx & Heq). apply String.eqb_eq in Heq. by subst.
  - intros Hc. exists c. split; [done|]. apply String.eqb_refl.
Qed.

Lemma array_includes_false (l : list string) (c : string) :
  JS.array_includes l c = false <-> c ∉ l.
Proof.
  rewrite <- array_includes_true. by destruct (JS.array_includes l c).
Qed.

(** [findAllFoldersForChat] is empty exactly when no folder of the tree
    references the chat. *)
Lemma findAll_nil (c : string) (l : list Folder) :
  flat_map (findAll_traverse c) l = [] <->
  (forall f, in_tree f l -> c ∉ chatIds f).
Proof.
  revert l.
  apply (forest_induction
    (fun f => findAll_traverse c f = [] <->
              (c ∉ chatIds f)
              /\ (forall g, in_tree g (subfolders f) -> c ∉ chatIds g))
    (fun l => flat_map (findAll_traverse c) l = [] <->
              forall f, in_tree f l -> c ∉ chatIds f)).
  - split; [|done]. intros _ f Hf. by apply in_tree_nil in Hf.
  - intros f rest IHf IHrest. simpl. split.
    + intros [Hf Hrest]%app_eq_nil g Hg.
      destruct (proj1 IHf Hf) as [Hhere Hbelow].
      apply in_tree_cons in Hg as [->|[Hsub|Hin]]; [done|by apply Hbelow|].
      by apply (proj1 IHrest Hrest).
    + intros Hall.
      assert (findAll_traverse c f = []) as ->.
      { apply IHf. split.
        - apply Hall, in_tree_cons. by left.
        - intros g Hg. apply Hall, in_tree_cons. by right; left. }
      apply IHrest. intros g Hg. apply Hall, in_tree_cons. by right; right.
  - intros f IH.
    assert (Hunfold : findAll_traverse c f
      = (if JS.array_includes (chatIds f) c then [f] else [])
        ++ flat_map (findAll_traverse c) (subfolders f)) by (by destruct f).
    rewrite Hunfold. split.
    + intros [Hhere Hsub]%app_eq_nil. split; [|by apply IH].
      apply array_includes_false. by destruct (JS.array_includes _ _).
    + intros [Hhere Hsub]. apply array_includes_false in Hhere.
      rewrite Hhere. simpl. by apply IH.
Qed.

Lemma occurrences_absent (c : string) (l : list string) :
  c ∉ l -> occurrences c l = 0%nat.
Proof.
  intros Hc. unfold occurrences.
  destruct (filter (fun x => x = c) l) as [|x r] eqn:Hf; [done|].
  assert (Hx : x ∈ filter (fun x => x = c) l) by (rewrite Hf; by left).
  apply list_elem_of_filter in Hx as [-> Hx]. done.
Qed.

Lemma occurrences_present (c : string) (l : list string) :
  c ∈ l -> (1 <= occurrences c l)%nat.
Proof.
  intros Hc. unfold occurrences.
  assert (Hin : c ∈ filter (fun x => x = c) l)
    by (by apply list_elem_of_filter).
  destruct (filter (fun x => x = c) l); [by apply elem_of_nil in Hin|].
  simpl. lia.
Qed.

Lemma occurrences_snoc (c : string) (l : list string) :
  occurrences c (l ++ [c]) = S (occurrences c l).
Proof.
  unfold occurrences. rewrite filter_app, length_app.
  rewrite filter_cons_True by done. simpl. lia.
Qed.

Section Unlinking.
Context `{Host}.

(** C3.  [removeChatFromFolder] with a folder id that is found, the user
    confirming when asked: the tree keeps its shape and every folder its
    other fields; the chat is filtered out of the [chatIds] of the folder
    found and the [chatIds] at every other position are what they were.
    If no folder at another position references the chat, its entry is
    deleted from [allChats]; if one does, [allChats] is unchanged. *)
Theorem removeChatFromFolder_reclaims_last_reference
    (chatId : string) (folderId : IdArg) (confirmed : bool) (w : World)
    (context : Context) :
  getFolderContext folderId (folders (folderData w)) = Some context ->
  (length (findAllFoldersForChat chatId (folderData w)) = 1%nat ->
   confirmed = true) ->
  let L := folderData w in
  let L' := folderData (removeChatFromFolder chatId (Some folderId) confirmed w) in
  let here := (trail context, index context) in
  map without_chatIds (folders L') = map without_chatIds (folders L)
  /\ (forall t i,
        chatIds <$> folder_at t i (folders L')
        = (if decide ((t, i) = here) then filter (fun c => c ≠ chatId)
           else fun x => x) <$> (chatIds <$> folder_at t i (folders L)))
  /\ ((forall t i f, folder_at t i (folders L) = Some f ->
                     chatId ∈ chatIds f -> (t, i) = here) ->
      allChats L' = delete chatId (allChats L))
  /\ ((exists t i f, (t, i) <> here /\ folder_at t i (folders L) = Some f
                     /\ chatId ∈ chatIds f) ->
      allChats L' = allChats L).
Proof.
  intros Hctx Hconfirm L L' here.
  set (k := filter (fun c : string => c ≠ chatId)).
  set (l1 := update_folder (fun f => set_chatIds f (k (chatIds f))) context
               (folders L)).
  assert (Hpos : forall t i,
            chatIds <$> folder_at t i l1
            = (if decide ((t, i) = here) then k else fun x => x)
                <$> (chatIds <$> folder_at t i (folders L)))
    by (intros t i; apply chatIds_after_update).
  assert (HL' : L' = if (length (findAllFoldersForChat chatId (set_folders L l1)) =? 0)%nat
                     then set_allChats (set_folders L l1) (delete chatId (allChats L))
                     else set_folders L l1).
  { subst L'. unfold removeChatFromFolder. rewrite Hctx. fold L.
    replace ((length (findAllFoldersForChat chatId L) =? 1)%nat && negb confirmed)
      with false.
    - by rewrite folderData_saveAndRefresh.
    - symmetry. apply andb_false_iff.
      destruct (Nat.eqb_spec (length (findAllFoldersForChat chatId L)) 1) as [H1|H1];
        [right|by left].
      by rewrite (Hconfirm H1). }
  assert (Hfolders : folders L' = l1).
  { rewrite HL'. by destruct (_ =? _)%nat. }
  split; [|split; [|split]].
  - rewrite Hfolders. apply update_array_without_chatIds. intros a.
    apply map_without_chatIds_alter. intros f.
    apply without_chatIds_set_chatIds.
  - intros t i. rewrite Hfolders. apply Hpos.
  - intros Honly. rewrite HL'.
    assert (Hnil : findAllFoldersForChat chatId (set_folders L l1) = []).
    { apply findAll_nil. intros f' (t & i & Hat)%in_tree_positions.
      simpl in Hat. specialize (Hpos t i). rewrite Hat in Hpos. simpl in Hpos.
      destruct (folder_at t i (folders L)) as [f|] eqn:Hf; [|done].
      simpl in Hpos. injection Hpos as Hids. rewrite Hids.
      destruct (decide ((t, i) = here)) as [Heq|Hne].
      - unfold k. rewrite list_elem_of_filter. by intros [? _].
      - intros Hin. apply Hne. by eapply Honly. }
    by rewrite Hnil.
  - intros (t & i & f & Hne & Hf & Hin). rewrite HL'.
    destruct (findAllFoldersForChat chatId (set_folders L l1)) as [|g r] eqn:Hall;
      [|done].
    exfalso. specialize (Hpos t i). rewrite Hf, decide_False in Hpos by done.
    simpl in Hpos.
    destruct (folder_at t i l1) as [f1|] eqn:Hf1; [|done].
    simpl in Hpos. injection Hpos as Hids.
    assert (Hno : chatId ∉ chatIds f1).
    { apply (proj1 (findAll_nil chatId l1) Hall).
      apply in_tree_positions. by exists t, i. }
    by rewrite Hids in Hno.
Qed.

Lemma folders_saveChatToFolder (now_created now_updated : Z) (folderId : IdArg)
    (chatId chatTitle : string) (tgs : list string) (note : string)
    (w : World) (context : Context) :
  getFolderContext folderId (folders (folderData w)) = Some context ->
  folders (folderData (snd (saveChatToFolder now_created now_updated folderId
                              chatId chatTitle tgs note w)))
  = if JS.array_includes (chatIds (folder context)) chatId
    then folders (folderData w)
    else update_folder (fun f => set_chatIds f (chatIds f ++ [chatId])) context
           (folders (folderData w)).
Proof.
  intros Hctx. unfold saveChatToFolder. rewrite Hctx.
  destruct (JS.array_includes _ _); simpl; [done|].
  by rewrite folderData_saveAndRefresh.
Qed.

(** C4.  Linking twice: when the folder is found and its [chatIds] holds
    the chat at most once, then after two calls of [saveChatToFolder] with
    the same folder and chat the folder is found at the same position and
    its [chatIds] holds the chat exactly once; the second call reports
    [false]; and if the [chatIds] held no chat twice before, it holds no
    chat twice afterwards. *)
Theorem saveChatToFolder_twice_links_once
    (t1 t2 t3 t4 : Z) (folderId : IdArg) (chatId chatTitle : string)
    (tgs : list string) (note : string) (w : World) (context : Context) :
  getFolderContext folderId (folders (folderData w)) = Some context ->
  (occurrences chatId (chatIds (folder context)) <= 1)%nat ->
  let first := saveChatToFolder t1 t2 folderId chatId chatTitle tgs note w in
  let second :=
    saveChatToFolder t3 t4 folderId chatId chatTitle tgs note (snd first) in
  fst second = false
  /\ exists context',
       getFolderContext folderId (folders (folderData (snd second))) = Some context'
       /\ position context' = position context
       /\ occurrences chatId (chatIds (folder context')) = 1%nat
       /\ (NoDup (chatIds (folder context)) -> NoDup (chatIds (folder context'))).
Proof.
  intros Hctx Hocc first second.
  pose proof (folders_saveChatToFolder t1 t2 folderId chatId chatTitle tgs note
                w context Hctx) as H1.
  fold first in H1.
  assert (Hlinked : exists c1,
            getFolderContext folderId (folders (folderData (snd first))) = Some c1
            /\ position c1 = position context
            /\ occurrences chatId (chatIds (folder c1)) = 1%nat
            /\ (NoDup (chatIds (folder context)) -> NoDup (chatIds (folder c1)))).
  { rewrite H1.
    destruct (JS.array_includes (chatIds (folder context)) chatId) eqn:Hinc.
    - exists context. repeat split; [done| |done].
      apply array_includes_true, occurrences_present in Hinc. lia.
    - destruct (getFolderContext_after_chatIds folderId (fun l => l ++ [chatId])
                  _ _ Hctx) as (c1 & Hc1 & Ht & Hi & Hf).
      apply array_includes_false in Hinc.
      exists c1. split; [exact Hc1|]. rewrite Hf. simpl. repeat split.
      + unfold position. by rewrite Ht, Hi.
      + by rewrite occurrences_snoc, occurrences_absent.
      + intros Hnd. apply NoDup_app. repeat split; [done| |apply NoDup_singleton].
        by intros x Hx ->%list_elem_of_singleton. }
  destruct Hlinked as (c1 & Hc1 & Hp1 & Hone & Hnd1).
  assert (Hin1 : JS.array_includes (chatIds (folder c1)) chatId = true).
  { destruct (JS.array_includes (chatIds (folder c1)) chatId) eqn:Hinc; [done|].
    apply array_includes_false, (occurrences_absent chatId) in Hinc. lia. }
  pose proof (folders_saveChatToFolder t3 t4 folderId chatId chatTitle tgs note
                (snd first) c1 Hc1) as H2.
  fold second in H2. rewrite Hin1 in H2.
  split.
  - subst second. unfold saveChatToFolder. by rewrite Hc1, Hin1.
  - exists c1. by rewrite H2.
Qed.
End Unlinking.

(** ** Moving a folder *)

Lemma isDescendant_unfold (parent : Folder) (childId : Z) :
  isDescendant parent childId
  = existsb (fun sf => fid sf =? childId) (subfolders parent)
    || existsb (fun sf => isDescendant sf childId) (subfolders parent).
Proof. by destruct parent. Qed.

(** [isDescendant] answers whether a folder strictly below [parent] has
    the id. *)
Lemma isDescendant_true (parent : Folder) (childId : Z) :
  isDescendant parent childId = true <->
  exists b, descendant b parent /\ fid b = childId.
Proof.
  revert parent.
  apply (folder_induction
    (fun p => isDescendant p childId = true <->
              exists b, in_tree b (subfolders p) /\ fid b = childId)
    (fun l => existsb (fun sf => fid sf =? childId) l
              || existsb (fun sf => isDescendant sf childId) l = true <->
              exists b, in_tree b l /\ fid b = childId)).
  - simpl. split; [done|]. intros (b & Hb & _). by apply in_tree_nil in Hb.
  - intros f rest IHf IHrest. simpl.
    rewrite !orb_true_iff, Z.eqb_eq, IHf. rewrite orb_true_iff in IHrest.
    split.
    + intros [[Hhere|Hrest]|[(b & Hb & Hid)|Hrest]].
      * exists f. split; [|done]. apply in_tree_cons. by left.
      * destruct (proj1 IHrest (or_introl Hrest)) as (b & Hb & Hid).
        exists b. split; [|done]. apply in_tree_cons. by right; right.
      * exists b. split; [|done]. apply in_tree_cons. by right; left.
      * destruct (proj1 IHrest (or_intror Hrest)) as (b & Hb & Hid).
        exists b. split; [|done]. apply in_tree_cons. by right; right.
    + intros (b & Hb & Hid). apply in_tree_cons in Hb as [->|[Hsub|Hin]].
      * by left; left.
      * right; left. by exists b.
      * destruct (proj2 IHrest (ex_intro _ b (conj Hin Hid))) as [Hr|Hr].
        -- by left; right.
        -- by right; right.
  - intros p IH. rewrite isDescendant_unfold. apply IH.
Qed.

Lemma menu_visit_unfold (folderId : IdArg) (roots : list Folder) (f : Folder) :
  menu_visit folderId roots f
  = if loose_eq (fid f) folderId then Some []
    else
      match getFolderContext folderId roots with
      | None => None
      | Some ctxMoving =>
          if isDescendant (folder ctxMoving) (fid f) then Some []
          else
            match menu_forEach (menu_visit folderId roots) (subfolders f) with
            | None => None
            | Some below => Some (f :: below)
            end
      end.
Proof. by destruct f. Qed.

Lemma in_tree_trans (f g : Folder) (l : list Folder) :
  in_tree g l -> in_tree f (subfolders g) -> in_tree f l.
Proof.
  induction 1 as [l Hin|g' l Hin Hsub IH]; intros Hf.
  - by eapply in_tree_below.
  - eapply in_tree_below; [exact Hin|]. by apply IH.
Qed.

Lemma clear_in_tree (given : IdArg) (f : Folder) (l : list Folder) :
  clear given f l -> in_tree f l.
Proof.
  induction 1 as [l Hin _|g l Hin _ _ IH].
  - by apply in_tree_here.
  - by eapply in_tree_below.
Qed.

Lemma clear_cons_head (given : IdArg) (f g : Folder) (l : list Folder) :
  clear given f [g] -> clear given f (g :: l).
Proof.
  inversion 1 as [l' Hin Hne|g' l' Hin Hne Hsub]; subst.
  - apply list_elem_of_singleton in Hin as ->. apply clear_here; [by left|done].
  - apply list_elem_of_singleton in Hin as ->.
    eapply clear_below; [by left|done|done].
Qed.

Lemma clear_cons_tail (given : IdArg) (f g : Folder) (l : list Folder) :
  clear given f l -> clear given f (g :: l).
Proof.
  inversion 1 as [l' Hin Hne|g' l' Hin Hne Hsub]; subst.
  - apply clear_here; [by right|done].
  - eapply clear_below; [by right|done|done].
Qed.

Section MoveMenuFacts.
Variable folderId : IdArg.
Variable roots : list Folder.
Variable context : Context.
Hypothesis found : getFolderContext folderId roots = Some context.

Lemma menu_forEach_offered (l : list Folder) :
  exists targets,
    menu_forEach (menu_visit folderId roots) l = Some targets
    /\ forall t, t ∈ targets -> offered folderId context t /\ clear folderId t l.
Proof.
  revert l.
  apply (forest_induction
    (fun f => exists ts,
       menu_visit folderId roots f = Some ts
       /\ forall t, t ∈ ts ->
                    offered folderId context t /\ clear folderId t [f])
    (fun l => exists ts,
       menu_forEach (menu_visit folderId roots) l = Some ts
       /\ forall t, t ∈ ts -> offered folderId context t /\ clear folderId t l)).
  - exists []. split; [done|]. intros t Ht. by apply elem_of_nil in Ht.
  - intros f rest (ts1 & H1 & Hok1) (ts2 & H2 & Hok2).
    exists (ts1 ++ ts2). simpl. rewrite H1, H2. split; [done|].
    intros t [Ht|Ht]%elem_of_app.
    + destruct (Hok1 t Ht) as [Hoff Hin]. split; [done|].
      by apply clear_cons_head.
    + destruct (Hok2 t Ht) as [Hoff Hin]. split; [done|].
      by apply clear_cons_tail.
  - intros f (ts & Hts & Hok). rewrite menu_visit_unfold, found.
    destruct (loose_eq (fid f) folderId) eqn:Heq.
    { exists []. split; [done|]. intros t Ht. by apply elem_of_nil in Ht. }
    destruct (isDescendant (folder context) (fid f)) eqn:Hdesc.
    { exists []. split; [done|]. intros t Ht. by apply elem_of_nil in Ht. }
    rewrite Hts. exists (f :: ts). split; [done|].
    intros t [->|Ht]%elem_of_cons.
    + split; [by split|]. apply clear_here; [by left|done].
    + destruct (Hok t Ht) as [Hoff Hin]. split; [done|].
      eapply clear_below; [by left|done|done].
Qed.
End MoveMenuFacts.

Lemma elem_of_delete_other (l : list Folder) (i : nat) (a x : Folder) :
  l !! i = Some a -> x ∈ l -> x <> a -> x ∈ delete i l.
Proof.
  intros Hi [j Hj]%list_elem_of_lookup Hne.
  destruct (decide (j < i)%nat) as [Hlt|Hge].
  - apply (list_elem_of_lookup_2 _ j). by rewrite list_lookup_delete_lt.
  - assert (j <> i) by (intros ->; congruence).
    apply (list_elem_of_lookup_2 _ (pred j)).
    rewrite list_lookup_delete_ge by lia.
    by replace (S (pred j)) with j by lia.
Qed.

(** Splicing a folder with the given id out of the tree keeps, for every
    folder reached without passing a folder of that id, a folder with the
    same id. *)
Lemma splice_keeps_clear (given : IdArg) (t : list nat) :
  forall l sibs i a f,
    array_at t l = Some sibs -> sibs !! i = Some a ->
    loose_eq (fid a) given = true ->
    clear given f l ->
    exists f', in_tree f' (update_array (delete i) t l) /\ fid f' = fid f.
Proof.
  induction t as [|j t IH]; intros l sibs i a f Harr Hi Ha Hclear.
  - simpl in *. injection Harr as ->. exists f. split; [|done].
    inversion Hclear as [l' Hin Hne|g l' Hin Hne Hsub]; subst.
    + apply in_tree_here. eapply elem_of_delete_other; [done..|].
      intros ->. congruence.
    + eapply in_tree_below; [|by eapply clear_in_tree].
      eapply elem_of_delete_other; [done..|]. intros ->. congruence.
  - simpl in Harr. destruct (l !! j) as [g0|] eqn:Hj; [|done].
    cbn [update_array].
    set (H := fun f0 => set_subfolders f0 (update_array (delete i) t (subfolders f0))).
    inversion Hclear as [l' Hin Hne|g l' Hin Hne Hsub]; subst.
    + apply list_elem_of_lookup in Hin as [k Hk].
      destruct (decide (j = k)) as [->|Hjk].
      * exists (H f). split.
        -- apply in_tree_here. apply (list_elem_of_lookup_2 _ k).
           by rewrite list_lookup_alter_eq, Hk.
        -- done.
      * exists f. split; [|done]. apply in_tree_here.
        apply (list_elem_of_lookup_2 _ k). by rewrite list_lookup_alter_ne.
    + apply list_elem_of_lookup in Hin as [k Hk].
      destruct (decide (j = k)) as [->|Hjk].
      * assert (g = g0) as -> by congruence.
        destruct (IH (subfolders g0) sibs i a f Harr Hi Ha Hsub) as (f' & Hf' & Hid).
        exists f'. split; [|done].
        eapply (in_tree_below _ (H g0)); [|exact Hf'].
        apply (list_elem_of_lookup_2 _ k). by rewrite list_lookup_alter_eq, Hk.
      * exists f. split; [|done].
        eapply in_tree_below; [|by eapply clear_in_tree].
        apply (list_elem_of_lookup_2 _ k). by rewrite list_lookup_alter_ne.
Qed.

Section MovingFolders.
Context `{Host}.

(** C2, as the source has it.  When the folder to move is found, the menu
    of [showMoveFolderMenu] is built without an error; every target it
    offers is a folder of the tree, and the id it hands to
    [handleMoveFolder] designates neither the moving folder nor any folder
    below it, at any depth; and the move to an offered target keeps the
    moving folder and all that is below it in the library. *)
Theorem move_menu_offers_no_descendant (folderId : IdArg) (w : World)
    (context : Context) :
  let roots := folders (folderData w) in
  getFolderContext folderId roots = Some context ->
  exists targets,
    validTargets folderId roots = Some targets
    /\ forall t, t ∈ targets ->
         in_tree t roots
         /\ loose_eq (fid (folder context)) (data_fid t) = false
         /\ (forall b, descendant b (folder context) ->
                       loose_eq (fid b) (data_fid t) = false)
         /\ let moved := folders (folderData (handleMoveFolder folderId (data_fid t) w)) in
            in_tree (folder context) moved
            /\ forall b, descendant b (folder context) -> in_tree b moved.
Proof.
  intros roots Hctx.
  destruct (menu_forEach_offered folderId roots context Hctx roots)
    as (targets & Htargets & Hok).
  exists targets. split; [exact Htargets|].
  intros t Ht. destruct (Hok t Ht) as [[Hne Hdesc] Hclear].
  split; [by eapply clear_in_tree|]. unfold data_fid. split; [|split].
  - rewrite loose_eq_Number_toString. simpl. apply Z.eqb_neq. intros Heq.
    apply getFolderContext_located in Hctx as (_ & _ & Hmatch).
    rewrite Heq in Hmatch. congruence.
  - intros b Hb. rewrite loose_eq_Number_toString. simpl.
    apply Z.eqb_neq. intros Heq.
    assert (isDescendant (folder context) (fid t) = true); [|congruence].
    apply isDescendant_true. by exists b.
  - assert (Hmoved : in_tree (folder context)
              (folders (folderData
                 (handleMoveFolder folderId (IdStr (JS.Number_toString (fid t))) w)))).
    { unfold handleMoveFolder. fold roots. rewrite Hctx.
      rewrite folderData_saveAndRefresh, is_root_Number_toString. simpl.
      destruct (getFolderContext_located _ _ _ Hctx) as (Harr & Hidx & Hmatch).
      destruct (splice_keeps_clear folderId _ _ _ _ _ t Harr Hidx Hmatch Hclear)
        as (t' & Ht' & Hid).
      fold (splice_out context roots) in Ht'.
      destruct (getFolderContext (IdStr (JS.Number_toString (fid t)))
                  (splice_out context roots)) as [tc|] eqn:Htc.
      - destruct (getFolderContext_located _ _ _ Htc) as (Ha & Hi & _).
        pose proof (array_at_update_array
          (alter (fun f => set_subfolders f (subfolders f ++ [folder context]))
             (index tc)) _ _ _ Ha) as Hnew.
        eapply in_tree_trans.
        + eapply array_at_in_tree; [exact Hnew|].
          rewrite list_lookup_alter_eq, Hi. done.
        + simpl. apply in_tree_here, elem_of_app. right. by left.
      - exfalso.
        pose proof (proj1 (getFolderContext_None _ _) Htc t' Ht') as Hnone.
        rewrite loose_eq_Number_toString in Hnone. simpl in Hnone.
        apply Z.eqb_neq in Hnone. done. }
    split; [exact Hmoved|].
    intros b Hb. by eapply in_tree_trans.
Qed.
End MovingFolders.

(** ** The two forms of a folder id *)

Section IdForms.
Context `{Host}.

(** C10.  Folder lookup does not depend on the form of the id: for every
    number [n], [getFolderContext] returns the same context for [n] and for
    its decimal text; a folder it returns has the id [n]; it returns one
    whenever some folder of the tree has the id [n]; and it returns nothing
    for either form when no folder of the tree has the id [n].  The
    operations that start by locating a folder (rename, delete, annotate,
    move as the moving folder or as the target, link, unlink) therefore do
    the same for both forms. *)
Theorem getFolderContext_id_form_insensitive (arr : list Folder) (n : Z) :
  let text := IdStr (JS.Number_toString n) in
  getFolderContext text arr = getFolderContext (IdNum n) arr
  /\ (forall c, getFolderContext (IdNum n) arr = Some c ->
        fid (folder c) = n /\ in_tree (folder c) arr)
  /\ ((exists f, in_tree f arr /\ fid f = n) ->
        exists c, getFolderContext (IdNum n) arr = Some c
                  /\ getFolderContext text arr = Some c)
  /\ ((forall f, in_tree f arr -> fid f <> n) ->
        getFolderContext (IdNum n) arr = None
        /\ getFolderContext text arr = None)
  /\ (forall w : World,
        (forall answer, renameFolder text answer w = renameFolder (IdNum n) answer w)
        /\ (forall confirmed,
              deleteFolder text confirmed w = deleteFolder (IdNum n) confirmed w)
        /\ (forall answer,
              editFolderAnnotation text answer w
              = editFolderAnnotation (IdNum n) answer w)
        /\ (forall target,
              handleMoveFolder text target w = handleMoveFolder (IdNum n) target w)
        /\ (forall moving,
              handleMoveFolder moving text w = handleMoveFolder moving (IdNum n) w)
        /\ (forall t1 t2 chatId chatTitle tgs note,
              saveChatToFolder t1 t2 text chatId chatTitle tgs note w
              = saveChatToFolder t1 t2 (IdNum n) chatId chatTitle tgs note w)
        /\ (forall chatId confirmed,
              removeChatFromFolder chatId (Some text) confirmed w
              = removeChatFromFolder chatId (Some (IdNum n)) confirmed w)).
Proof.
  intros text.
  pose proof (fun l => getFolderContext_Number_toString l n) as Hsame.
  fold text in Hsame.
  split; [apply Hsame|]. split; [|split; [|split]].
  - intros c Hc. split.
    + apply getFolderContext_located in Hc as (_ & _ & Heq).
      simpl in Heq. by apply Z.eqb_eq in Heq.
    + by eapply getFolderContext_in_tree.
  - intros (f & Hf & Hid).
    destruct (getFolderContext (IdNum n) arr) as [c|] eqn:Hc.
    + exists c. by rewrite Hsame.
    + exfalso. pose proof (proj1 (getFolderContext_None _ _) Hc f Hf) as Hne.
      simpl in Hne. apply Z.eqb_neq in Hne. done.
  - intros Hnone.
    assert (getFolderContext (IdNum n) arr = None) as Hn.
    { apply getFolderContext_None. intros f Hf. simpl.
      apply Z.eqb_neq. by apply Hnone. }
    by rewrite Hsame.
  - intros w. repeat split; intros.
    + unfold renameFolder. by rewrite Hsame.
    + unfold deleteFolder. by rewrite Hsame.
    + unfold editFolderAnnotation. by rewrite Hsame.
    + unfold handleMoveFolder. by rewrite Hsame.
    + unfold handleMoveFolder. subst text.
      rewrite is_root_Number_toString. simpl.
      destruct (getFolderContext moving _); [|done].
      by rewrite getFolderContext_Number_toString.
    + unfold saveChatToFolder. by rewrite Hsame.
    + unfold removeChatFromFolder. by rewrite Hsame.
Qed.
End IdForms.

(** ** The properties on the sample library *)

(** C1 on three libraries, of 100,352, of 100,353 and of 100,404 bytes:
    the first is written; the other two are not, and the alerts read
    98.0 and 98.1. *)
Lemma quota_gatekeeper_boundary_witness :
  let at_limit := Sample.world (Sample.padded 100241) in
  let over := Sample.world (Sample.padded 100242) in
  let further := Sample.world (Sample.padded 100293) in
  sync_set_calls (saveAndRefresh (H := reference_host) at_limit)
  = folderData at_limit :: sync_set_calls at_limit
  /\ sync_set_calls (saveAndRefresh (H := reference_host) over) = sync_set_calls over
  /\ folderData (saveAndRefresh (H := reference_host) over) = folderData over
  /\ alerts (saveAndRefresh (H := reference_host) over)
     = [storage_full_alert "98.0"]
  /\ alerts (saveAndRefresh (H := reference_host) further)
     = [storage_full_alert "98.1"].
Proof.
  intros at_limit over further. split; [|split; [|split; [|split]]].
  - apply (proj1 (quota_gatekeeper_boundary (H := reference_host) at_limit eq_refl)).
    vm_compute. reflexivity.
  - apply (proj2 (quota_gatekeeper_boundary (H := reference_host) over eq_refl)).
    vm_compute. discriminate.
  - apply (proj2 (quota_gatekeeper_boundary (H := reference_host) over eq_refl)).
    vm_compute. discriminate.
  - refine (eq_trans (proj1 (proj2 (proj2
      (proj2 (quota_gatekeeper_boundary (H := reference_host) over eq_refl) _))))
      _).
    + vm_compute. discriminate.
    + vm_compute. reflexivity.
  - refine (eq_trans (proj1 (proj2 (proj2
      (proj2 (quota_gatekeeper_boundary (H := reference_host) further eq_refl) _))))
      _).
    + vm_compute. discriminate.
    + vm_compute. reflexivity.
Defined.

(** C2 as stated fails: [Old] lies below [Research], and moving [Research]
    into [Old] is not rejected.  The tree changes, and [Research] with all
    that is below it is gone from the library, which is also what is handed
    to the port. *)
Lemma handleMoveFolder_into_descendant_drops_folder :
  let w := Sample.world Sample.library in
  let w' := handleMoveFolder (H := reference_host) (IdNum 1) (IdNum 3) w in
  descendant Sample.old Sample.research
  /\ folders (folderData w) = [Sample.research; Sample.archive]
  /\ folders (folderData w') = [Sample.archive]
  /\ folders (folderData w') <> folders (folderData w)
  /\ ~ in_tree Sample.research (folders (folderData w'))
  /\ getFolderContext (IdNum 1) (folders (folderData w')) = None
  /\ (folders <$> sync_set_calls w') = [[Sample.archive]].
Proof.
  intros w w'.
  assert (Hresult : folders (folderData w') = [Sample.archive])
    by (vm_compute; reflexivity).
  split; [|split; [|split; [|split; [|split; [|split]]]]].
  - unfold descendant. simpl. eapply in_tree_below; [by left|].
    apply in_tree_here. by left.
  - reflexivity.
  - exact Hresult.
  - rewrite Hresult. discriminate.
  - rewrite Hresult. intros [Heq|[Hsub|Hrest]]%in_tree_cons.
    + discriminate.
    + by apply in_tree_nil in Hsub.
    + by apply in_tree_nil in Hrest.
  - rewrite Hresult. reflexivity.
  - vm_compute. reflexivity.
Qed.

(** The menu for moving [Research] offers [Archive] only, and the move
    there keeps [Research] and what is below it. *)
Lemma move_menu_offers_no_descendant_witness :
  let w := Sample.world Sample.library in
  exists targets,
    validTargets (IdNum 1) (folders Sample.library) = Some targets
    /\ forall t, t ∈ targets ->
         in_tree t (folders Sample.library)
         /\ loose_eq (fid Sample.research) (data_fid t) = false
         /\ (forall b, descendant b Sample.research ->
                       loose_eq (fid b) (data_fid t) = false)
         /\ let moved :=
              folders (folderData
                (handleMoveFolder (H := reference_host) (IdNum 1) (data_fid t) w)) in
            in_tree Sample.research moved
            /\ forall b, descendant b Sample.research -> in_tree b moved.
Proof.
  exact (move_menu_offers_no_descendant (H := reference_host) (IdNum 1)
           (Sample.world Sample.library)
           (mkContext Sample.research (folders Sample.library) 0%nat [])
           eq_refl).
Defined.

Ltac walk_positions H :=
  cbn in H;
  match type of H with
  | Some _ = Some _ => injection H as <-; tauto
  | None = Some _ => discriminate H
  | context [ _ !! ?i ] => is_var i; destruct i; walk_positions H
  | context [ array_at ?t _ ] => is_var t; destruct t; walk_positions H
  end.

Lemma sample_positions (t : list nat) (i : nat) (f : Folder) :
  folder_at t i (folders Sample.library) = Some f ->
  (t, i, f) = ([], 0%nat, Sample.research)
  \/ (t, i, f) = ([], 1%nat, Sample.archive)
  \/ (t, i, f) = ([0%nat], 0%nat, Sample.drafts)
  \/ (t, i, f) = ([0%nat; 0%nat], 0%nat, Sample.old).
Proof.
  unfold folder_at. intros Hat. destruct t; walk_positions Hat.
Qed.

Lemma sample_folders (f : Folder) :
  in_tree f (folders Sample.library) ->
  f = Sample.research \/ f = Sample.archive \/ f = Sample.drafts \/ f = Sample.old.
Proof.
  intros (t & i & Hat)%in_tree_positions.
  destruct (sample_positions t i f Hat) as [Heq|[Heq|[Heq|Heq]]];
    injection Heq as _ _ ->; tauto.
Qed.

(** C3 on the sample: [c1] is in [Research] and in [Archive], so unlinking
    it from [Research] keeps its entry; [c2] is in [Archive] only, so
    unlinking it there deletes its entry. *)
Lemma removeChatFromFolder_reclaims_last_reference_witness :
  let w := Sample.world Sample.library in
  allChats (folderData (removeChatFromFolder (H := reference_host) "c1"
                          (Some (IdNum 1)) true w))
  = allChats Sample.library
  /\ allChats (folderData (removeChatFromFolder (H := reference_host) "c2"
                             (Some (IdStr "4")) true w))
     = delete "c2" (allChats Sample.library).
Proof.
  intros w. split.
  - refine (proj2 (proj2 (proj2
      (removeChatFromFolder_reclaims_last_reference (H := reference_host)
         "c1" (IdNum 1) true w
         (mkContext Sample.research (folders Sample.library) 0%nat [])
         eq_refl (fun _ => eq_refl)))) _).
    exists [], 1%nat, Sample.archive. split; [discriminate|]. split; [done|].
    simpl. by left.
  - refine (proj1 (proj2 (proj2
      (removeChatFromFolder_reclaims_last_reference (H := reference_host)
         "c2" (IdStr "4") true w
         (mkContext Sample.archive (folders Sample.library) 1%nat [])
         eq_refl (fun _ => eq_refl)))) _).
    intros t i f Hat Hin.
    destruct (sample_positions t i f Hat) as [Heq|[Heq|[Heq|Heq]]];
      injection Heq as -> -> ->; simpl in Hin; [|done| |].
    + apply list_elem_of_singleton in Hin. discriminate.
    + by apply elem_of_nil in Hin.
    + by apply elem_of_nil in Hin.
Defined.

(** C4 on the sample: [c2] linked twice to [Drafts]. *)
Lemma saveChatToFolder_twice_links_once_witness :
  let w := Sample.world Sample.library in
  let first := saveChatToFolder (H := reference_host) 5000 5001 (IdStr "2") "c2"
                 "Roadmap" ["work"] "" w in
  let second := saveChatToFolder (H := reference_host) 6000 6001 (IdStr "2") "c2"
                  "Roadmap" ["work"] "" (snd first) in
  fst second = false
  /\ exists context',
       getFolderContext (IdStr "2") (folders (folderData (snd second)))
       = Some context'
       /\ position context' = ([0%nat], 0%nat)
       /\ occurrences "c2" (chatIds (folder context')) = 1%nat
       /\ (NoDup (chatIds Sample.drafts) -> NoDup (chatIds (folder context'))).
Proof.
  exact (saveChatToFolder_twice_links_once (H := reference_host) 5000 5001 6000 6001
           (IdStr "2") "c2" "Roadmap" ["work"] "" (Sample.world Sample.library)
           (mkContext Sample.drafts [Sample.drafts] 0%nat [0%nat])
           eq_refl (Nat.le_0_l 1)).
Defined.

(** C5 on the sample: [c1] is in [Research] already; saving it there again
    under another title returns [false] and yet renames the entry. *)
Lemma saveChatToFolder_present_overwrites_entry_witness :
  let w := Sample.world Sample.library in
  let r := saveChatToFolder (H := reference_host) 7000 7001 (IdNum 1) "c1"
             "Renamed" [] "" w in
  title <$> (allChats (folderData w) !! "c1") = Some "Pricing Study"
  /\ fst r = false
  /\ folders (folderData (snd r)) = folders (folderData w)
  /\ sync_set_calls (snd r) = sync_set_calls w
  /\ exists e, allChats (folderData (snd r)) !! "c1" = Some e
               /\ title e = "Renamed"
               /\ tags e = sanitizedTags []
               /\ annotation e = ""
               /\ updatedAt e = Some 7001.
Proof.
  intros w r. split; [vm_compute; reflexivity|].
  exact (saveChatToFolder_present_overwrites_entry (H := reference_host) 7000 7001
           (IdNum 1) "c1" "Renamed" [] "" w
           (mkContext Sample.research (folders Sample.library) 0%nat [])
           eq_refl eq_refl).
Defined.

(** C6 on the sample: [c3] is the one unlinked chat. *)
Lemma findUnlinked_correct_witness :
  findUnlinked Sample.library = ["c3"]
  /\ ~ referenced Sample.library "c3"
  /\ "c1" ∉ findUnlinked Sample.library.
Proof.
  assert (Hc3 : findUnlinked Sample.library = ["c3"]) by (vm_compute; reflexivity).
  destruct (findUnlinked_correct Sample.library) as (Hiff & _ & Hdisjoint).
  split; [exact Hc3|]. split.
  - apply Hdisjoint. rewrite Hc3. by left.
  - intros [_ Hnot]%Hiff. apply Hnot.
    exists Sample.research. split.
    + apply in_tree_here. by left.
    + simpl. by left.
Defined.

(** C7 on the sample: [c2] carries [#work] and matches; [c1] does not carry
    it and does not match. *)
Lemma query_tag_and_excluded_phrase_witness :
  isMatch Sample.c2 (Query.tokenize work_not_old_project) = true
  /\ isMatch Sample.c1 (Query.tokenize work_not_old_project) <> true.
Proof.
  split.
  - apply (proj2 (query_tag_and_excluded_phrase Sample.c2)).
    split; [|by split]. exists "#work". split; [by left|done].
  - intros [(t & Hin & Hinc) _]%(proj1 (query_tag_and_excluded_phrase Sample.c1)).
    simpl in Hin. apply list_elem_of_singleton in Hin. subst t. discriminate.
Defined.

(** C10 on the sample: [Old] is found by 3 and by its text; nothing is
    found by 9 or by its text. *)
Lemma getFolderContext_id_form_insensitive_witness :
  (exists c, getFolderContext (IdNum 3) (folders Sample.library) = Some c
             /\ getFolderContext (IdStr (JS.Number_toString 3))
                  (folders Sample.library) = Some c)
  /\ getFolderContext (IdNum 9) (folders Sample.library) = None
  /\ getFolderContext (IdStr (JS.Number_toString 9)) (folders Sample.library) = None.
Proof.
  split.
  - apply (proj1 (proj2 (proj2
      (getFolderContext_id_form_insensitive (H := reference_host)
         (folders Sample.library) 3)))).
    exists Sample.old. split; [|done].
    apply in_tree_positions. by exists [0%nat; 0%nat], 0%nat.
  - apply (proj1 (proj2 (proj2 (proj2
      (getFolderContext_id_form_insensitive (H := reference_host)
         (folders Sample.library) 9))))).
    intros f [-> | [-> | [-> | ->]]]%sample_folders; discriminate.
Defined.

(** * Properties of the rest of the library code *)

(** ** Something holds somewhere in the tree *)

Lemma somewhere_nil (obs : Folder -> Prop) : ~ somewhere obs [].
Proof. intros (f & Hf & _). by apply in_tree_nil in Hf. Qed.

Lemma somewhere_cons (obs : Folder -> Prop) (g : Folder) (l : list Folder) :
  somewhere obs (g :: l) <->
  obs g \/ somewhere obs (subfolders g) \/ somewhere obs l.
Proof.
  unfold somewhere. split.
  - intros (f & [->|[Hsub|Hrest]]%in_tree_cons & Hobs).
    + by left.
    + right; left. by exists f.
    + right; right. by exists f.
  - intros [Hobs|[(f & Hf & Hobs)|(f & Hf & Hobs)]].
    + exists g. split; [|done]. apply in_tree_cons. by left.
    + exists f. split; [|done]. apply in_tree_cons. by right; left.
    + exists f. split; [|done]. apply in_tree_cons. by right; right.
Qed.

Lemma somewhere_app (obs : Folder -> Prop) (l1 l2 : list Folder) :
  somewhere obs (l1 ++ l2) <-> somewhere obs l1 \/ somewhere obs l2.
Proof.
  induction l1 as [|g l1 IH]; simpl.
  - split; [by right|]. intros [Hnil|?]; [|done]. by apply somewhere_nil in Hnil.
  - rewrite !somewhere_cons, IH. tauto.
Qed.

Lemma somewhere_single (obs : Folder -> Prop) (g : Folder) :
  somewhere obs [g] <-> obs g \/ somewhere obs (subfolders g).
Proof.
  rewrite somewhere_cons. split; [|tauto].
  intros [?|[?|Hnil]]; [tauto..|]. by apply somewhere_nil in Hnil.
Qed.

Lemma somewhere_split (obs : Folder -> Prop) (l : list Folder) (i : nat) (x : Folder) :
  l !! i = Some x ->
  (somewhere obs l <-> somewhere obs [x] \/ somewhere obs (delete i l)).
Proof.
  intros Hi. rewrite <- (take_drop_middle l i x Hi) at 1.
  rewrite delete_take_drop, !somewhere_app, somewhere_single, somewhere_cons.
  tauto.
Qed.

Lemma alter_middle (h : Folder -> Folder) (l : list Folder) (i : nat) (x : Folder) :
  l !! i = Some x -> alter h i l = take i l ++ h x :: drop (S i) l.
Proof.
  revert i. induction l as [|y l IH]; intros [|i] Hi; simpl in *; try done.
  - by injection Hi as ->.
  - f_equal. by apply IH.
Qed.

Lemma somewhere_alter (obs : Folder -> Prop) (h : Folder -> Folder)
    (l : list Folder) (i : nat) (x : Folder) :
  l !! i = Some x ->
  (somewhere obs (alter h i l) <->
   somewhere obs [h x] \/ somewhere obs (delete i l)).
Proof.
  intros Hi. rewrite (alter_middle h l i x Hi).
  rewrite delete_take_drop, !somewhere_app, somewhere_single, somewhere_cons.
  tauto.
Qed.

Lemma somewhere_in_tree (obs : Folder -> Prop) (g : Folder) (l : list Folder) :
  in_tree g l -> somewhere obs [g] -> somewhere obs l.
Proof.
  intros Hg [Hobs|(f & Hf & Hobs)]%somewhere_single.
  - by exists g.
  - exists f. split; [|done]. by eapply in_tree_trans.
Qed.

(** What an update of the array at a trail can add to the tree is what it
    adds to that array... *)
Lemma somewhere_update_array_down (obs : Folder -> Prop) (g : list Folder -> list Folder)
    (X : Prop) (t : list nat) :
  shallow obs ->
  forall l a,
    array_at t l = Some a ->
    (somewhere obs (g a) -> somewhere obs a \/ X) ->
    somewhere obs (update_array g t l) -> somewhere obs l \/ X.
Proof.
  intros Hshallow. induction t as [|j t IH]; intros l a Harr Hg; simpl in *.
  - injection Harr as ->. exact Hg.
  - destruct (l !! j) as [f0|] eqn:Hj; [|done].
    rewrite (somewhere_alter obs _ l j f0 Hj), (somewhere_split obs l j f0 Hj).
    rewrite !somewhere_single. cbv beta. rewrite (Hshallow f0). simpl.
    intros [[Hobs|Hsub]|Hrest]; [tauto| |tauto].
    destruct (IH (subfolders f0) a Harr Hg Hsub); tauto.
Qed.

(** ... and what it keeps of that array it keeps of the tree. *)
Lemma somewhere_update_array_up (obs : Folder -> Prop) (g : list Folder -> list Folder)
    (X : Prop) (t : list nat) :
  shallow obs ->
  forall l a,
    array_at t l = Some a ->
    (somewhere obs a -> somewhere obs (g a) \/ X) ->
    somewhere obs l -> somewhere obs (update_array g t l) \/ X.
Proof.
  intros Hshallow. induction t as [|j t IH]; intros l a Harr Hg; simpl in *.
  - injection Harr as ->. exact Hg.
  - destruct (l !! j) as [f0|] eqn:Hj; [|done].
    rewrite (somewhere_alter obs _ l j f0 Hj), (somewhere_split obs l j f0 Hj).
    rewrite !somewhere_single. cbv beta. rewrite (Hshallow f0). simpl.
    intros [[Hobs|Hsub]|Hrest]; [tauto| |tauto].
    destruct (IH (subfolders f0) a Harr Hg Hsub); tauto.
Qed.

Lemma refers_shallow (c : string) : shallow (refers c).
Proof. intros f subs. by destruct f. Qed.

(** Rewriting the [chatIds] of the folder at a position. *)
Lemma refers_update_chatIds_down (c : string) (k : list string -> list string)
    (X : Prop) (t : list nat) (i : nat) (l a : list Folder) (F : Folder) :
  array_at t l = Some a -> a !! i = Some F ->
  (c ∈ k (chatIds F) -> c ∈ chatIds F \/ X) ->
  somewhere (refers c)
    (update_array (alter (fun f => set_chatIds f (k (chatIds f))) i) t l) ->
  somewhere (refers c) l \/ X.
Proof.
  intros Harr Hi Hk.
  apply (somewhere_update_array_down _ _ X t (refers_shallow c) l a Harr).
  rewrite (somewhere_alter _ _ a i F Hi), (somewhere_split _ a i F Hi).
  rewrite !somewhere_single. unfold refers at 1 3. simpl.
  intros [[Hin|Hsub]|Hrest]; [|tauto..].
  destruct (Hk Hin); tauto.
Qed.

Lemma refers_update_chatIds_up (c : string) (k : list string -> list string)
    (t : list nat) (i : nat) (l a : list Folder) (F : Folder) :
  array_at t l = Some a -> a !! i = Some F ->
  (c ∈ chatIds F -> c ∈ k (chatIds F)) ->
  somewhere (refers c) l ->
  somewhere (refers c)
    (update_array (alter (fun f => set_chatIds f (k (chatIds f))) i) t l).
Proof.
  intros Harr Hi Hk Hl.
  destruct (somewhere_update_array_up (refers c)
              (alter (fun f => set_chatIds f (k (chatIds f))) i) False t
              (refers_shallow c) l a Harr) as [Hok|[]]; [|exact Hl|exact Hok].
  rewrite (somewhere_alter _ _ a i F Hi), (somewhere_split _ a i F Hi).
  rewrite !somewhere_single. unfold refers at 1 3. simpl. tauto.
Qed.

Lemma referenced_somewhere (L : Library) (c : string) :
  referenced L c <-> somewhere (refers c) (folders L).
Proof. done. Qed.

Lemma elem_of_findUnlinked (L : Library) (c : string) :
  c ∈ findUnlinked L <->
  is_Some (allChats L !! c) /\ ~ somewhere (refers c) (folders L).
Proof.
  unfold findUnlinked.
  rewrite list_elem_of_filter, elem_of_Object_keys, unlinked_traverse_forest.
  rewrite elem_of_empty. unfold somewhere, refers. tauto.
Qed.

Lemma findUnlinked_nil (L : Library) :
  findUnlinked L = [] <->
  (forall c, is_Some (allChats L !! c) -> somewhere (refers c) (folders L)).
Proof.
  split.
  - intros Hnil c Hc.
    destruct (decide (c ∈ findUnlinked L)) as [Hin|Hout].
    + rewrite Hnil in Hin. by apply elem_of_nil in Hin.
    + rewrite elem_of_findUnlinked in Hout.
      unfold findUnlinked in Hnil.
      destruct (decide (c ∈ fold_left (fun acc g => unlinked_traverse g acc)
                              (folders L) ∅)) as [Href|Hnot].
      * apply unlinked_traverse_forest in Href as [Hempty|Href]; [|exact Href].
        by apply elem_of_empty in Hempty.
      * exfalso. apply Hout. split; [done|].
        intros Hsome. apply Hnot, unlinked_traverse_forest. by right.
  - intros Hall. destruct (findUnlinked L) as [|c r] eqn:Heq; [done|].
    assert (Hc : c ∈ findUnlinked L) by (rewrite Heq; by left).
    apply elem_of_findUnlinked in Hc as [Hsome Hnot]. by apply Hall in Hsome.
Qed.

Lemma somewhere_refers_decide (c : string) (l : list Folder) :
  somewhere (refers c) l \/ ~ somewhere (refers c) l.
Proof.
  destruct (decide (c ∈ fold_left (fun acc g => unlinked_traverse g acc) l ∅))
    as [Hin|Hout].
  - left. apply unlinked_traverse_forest in Hin as [Hempty|Href]; [|exact Href].
    by apply elem_of_empty in Hempty.
  - right. intros Href. apply Hout, unlinked_traverse_forest. by right.
Qed.

Lemma NoDup_findUnlinked (L : Library) : NoDup (findUnlinked L).
Proof. unfold findUnlinked. apply NoDup_filter, NoDup_fst_map_to_list. Qed.

(** ** Garbage collection *)

Lemma lookup_fold_delete (ids : list string) (m : gmap string ChatEntry) (k : string) :
  fold_left (fun m c => delete c m) ids m !! k
  = if decide (k ∈ ids) then None else m !! k.
Proof.
  revert m. induction ids as [|x ids IH]; intros m; cbn [fold_left].
  - destruct (decide (k ∈ [])) as [Hin|_]; [|done]. by apply elem_of_nil in Hin.
  - rewrite IH.
    destruct (decide (k ∈ ids)) as [Hin|Hout];
      destruct (decide (k ∈ x :: ids)) as [Hin'|Hout']; try done.
    + exfalso. apply Hout'. by right.
    + apply elem_of_cons in Hin' as [->|?]; [|done]. apply lookup_delete_eq.
    + apply lookup_delete_ne. intros ->. apply Hout'. by left.
Qed.

Lemma size_fold_delete (ids : list string) (m : gmap string ChatEntry) :
  NoDup ids -> (forall c, c ∈ ids -> is_Some (m !! c)) ->
  (size (fold_left (fun m c => delete c m) ids m) + length ids = size m)%nat.
Proof.
  intros Hnd. revert m. induction Hnd as [|x ids Hx Hnd IH]; intros m Hall.
  - simpl. lia.
  - cbn [fold_left length].
    assert (Hrest : forall c, c ∈ ids -> is_Some (delete x m !! c)).
    { intros c Hc. rewrite lookup_delete_ne by (intros ->; done).
      apply Hall. by right. }
    specialize (IH (delete x m) Hrest).
    rewrite map_size_delete_Some in IH by (apply Hall; by left).
    assert (size m <> 0%nat); [|lia].
    apply map_size_ne_0_lookup. exists x. apply Hall. by left.
Qed.

Section GarbageCollection.
Context `{Host}.

(** X1.  A confirmed [pruneUnlinked] deletes exactly the unlinked entries:
    the folder tree is untouched, every other entry is what it was, the
    dictionary shrinks by the number of unlinked chats, and nothing is
    unlinked afterwards.  A declined one changes nothing. *)
Theorem pruneUnlinked_removes_exactly_the_unlinked (w : World) :
  let L := folderData w in
  let L' := folderData (snd (pruneUnlinked true w)) in
  folders L' = folders L
  /\ (forall c, allChats L' !! c
                = if decide (c ∈ findUnlinked L) then None else allChats L !! c)
  /\ (size (allChats L') + length (findUnlinked L) = size (allChats L))%nat
  /\ findUnlinked L' = []
  /\ snd (pruneUnlinked false w) = w.
Proof.
  intros L L'.
  assert (Hcases :
    (findUnlinked L = [] /\ L' = L)
    \/ (findUnlinked L <> [] /\
        L' = set_allChats L
               (fold_left (fun m c => delete c m) (findUnlinked L) (allChats L)))).
  { subst L'. unfold pruneUnlinked. fold L.
    destruct (findUnlinked L) as [|c r] eqn:Heq; simpl.
    - by left.
    - right. split; [done|]. by rewrite folderData_saveAndRefresh. }
  assert (Hlookup : forall c, allChats L' !! c
            = if decide (c ∈ findUnlinked L) then None else allChats L !! c).
  { intros c. destruct Hcases as [[Hnil ->]|[_ ->]].
    - rewrite Hnil. by rewrite decide_False by apply not_elem_of_nil.
    - simpl. apply lookup_fold_delete. }
  assert (Hfolders : folders L' = folders L)
    by (by destruct Hcases as [[_ ->]|[_ ->]]).
  split; [exact Hfolders|]. split; [exact Hlookup|]. split; [|split].
  - destruct Hcases as [[Hnil ->]|[_ ->]].
    + rewrite Hnil. simpl. lia.
    + simpl. apply size_fold_delete; [apply NoDup_findUnlinked|].
      intros c Hc. by apply elem_of_findUnlinked in Hc as [? _].
  - apply findUnlinked_nil. intros c Hc. rewrite Hlookup in Hc.
    rewrite Hfolders.
    destruct (decide (c ∈ findUnlinked L)) as [Hin|Hout].
    + by destruct Hc.
    + rewrite elem_of_findUnlinked in Hout.
      destruct (somewhere_refers_decide c (folders L)); tauto.
  - unfold pruneUnlinked. by destruct (_ =? _)%nat.
Qed.

(** X2.  A confirmed [archiveUnlinked] only adds: [allChats] is untouched,
    the existing root folders stay in place, and when something is
    unlinked one folder is appended whose [chatIds] are the unlinked ids
    and which has no subfolder; nothing is unlinked afterwards.  A
    declined one changes nothing. *)
Theorem archiveUnlinked_only_adds (now : Z) (recoveredName recoveredNote : string)
    (w : World) :
  let L := folderData w in
  let L' := folderData (snd (archiveUnlinked now recoveredName recoveredNote true w)) in
  allChats L' = allChats L
  /\ folders L'
     = match findUnlinked L with
       | [] => folders L
       | ids => folders L ++ [mkFolder now recoveredName ids [] recoveredNote None]
       end
  /\ findUnlinked L' = []
  /\ snd (archiveUnlinked now recoveredName recoveredNote false w) = w.
Proof.
  intros L L'.
  assert (HL' : L' = match findUnlinked L with
                     | [] => L
                     | ids =>
                         set_folders L
                           (folders L
                            ++ [mkFolder now recoveredName ids [] recoveredNote None])
                     end).
  { subst L'. unfold archiveUnlinked. fold L.
    destruct (findUnlinked L) as [|c r] eqn:Heq; simpl; [done|].
    by rewrite folderData_saveAndRefresh. }
  split; [|split; [|split]].
  - rewrite HL'. by destruct (findUnlinked L).
  - rewrite HL'. by destruct (findUnlinked L).
  - destruct (findUnlinked L) as [|c0 r] eqn:Heq; [by rewrite HL'|].
    apply findUnlinked_nil. intros c Hc. rewrite HL' in *. simpl in *.
    apply somewhere_app.
    destruct (somewhere_refers_decide c (folders L)) as [Href|Hnot]; [by left|].
    right. apply somewhere_single. left. unfold refers. simpl.
    rewrite <- Heq. by apply elem_of_findUnlinked.
  - unfold archiveUnlinked. by destruct (_ =? _)%nat.
Qed.
End GarbageCollection.

(** ** Removing a chat everywhere *)

Lemma drop_everywhere_unfold (chatId : string) (f : Folder) :
  drop_everywhere chatId f
  = mkFolder (fid f) (name f)
      (if JS.array_includes (chatIds f) chatId
       then filter (fun c => c ≠ chatId) (chatIds f) else chatIds f)
      (map (drop_everywhere chatId) (subfolders f))
      (fannotation f) (sortOrder f).
Proof. by destruct f. Qed.

Lemma refers_drop_everywhere (c chatId : string) (f : Folder) :
  refers c (drop_everywhere chatId f) <-> c <> chatId /\ refers c f.
Proof.
  rewrite drop_everywhere_unfold. unfold refers. simpl.
  destruct (JS.array_includes (chatIds f) chatId) eqn:Hinc.
  - rewrite list_elem_of_filter. tauto.
  - apply array_includes_false in Hinc. split; [|tauto].
    intros Hc. split; [|done]. by intros ->.
Qed.

Lemma somewhere_drop_everywhere (c chatId : string) (l : list Folder) :
  somewhere (refers c) (map (drop_everywhere chatId) l) <->
  c <> chatId /\ somewhere (refers c) l.
Proof.
  revert l.
  apply (forest_induction
    (fun f => somewhere (refers c) (subfolders (drop_everywhere chatId f)) <->
              c <> chatId /\ somewhere (refers c) (subfolders f))
    (fun l => somewhere (refers c) (map (drop_everywhere chatId) l) <->
              c <> chatId /\ somewhere (refers c) l)).
  - simpl. split; [by intros ?%somewhere_nil|by intros [_ ?%somewhere_nil]].
  - intros f rest IHf IHrest. simpl.
    rewrite !somewhere_cons, refers_drop_everywhere, IHf, IHrest. tauto.
  - intros f IH. rewrite drop_everywhere_unfold. simpl. apply IH.
Qed.

Lemma without_chatIds_drop_everywhere (chatId : string) (l : list Folder) :
  map without_chatIds (map (drop_everywhere chatId) l) = map without_chatIds l.
Proof.
  revert l.
  apply (forest_induction
    (fun f => without_chatIds (drop_everywhere chatId f) = without_chatIds f)
    (fun l => map without_chatIds (map (drop_everywhere chatId) l)
              = map without_chatIds l)).
  - done.
  - intros f rest IHf IHrest. simpl. by rewrite IHf, IHrest.
  - intros f IH. rewrite drop_everywhere_unfold, !without_chatIds_unfold.
    simpl. by rewrite IH.
Qed.

(** ** Splicing a folder out and pushing one in *)

Lemma somewhere_splice (obs : Folder -> Prop) (t : list nat) (i : nat)
    (l a : list Folder) (A : Folder) :
  shallow obs ->
  array_at t l = Some a -> a !! i = Some A ->
  (somewhere obs l <->
   somewhere obs (update_array (delete i) t l) \/ somewhere obs [A]).
Proof.
  intros Hshallow Harr Hi. split.
  - apply (somewhere_update_array_up obs (delete i) _ t Hshallow l a Harr).
    rewrite (somewhere_split obs a i A Hi). tauto.
  - intros [Hrest|HA].
    + destruct (somewhere_update_array_down obs (delete i) False t Hshallow l a Harr)
        as [Hok|[]]; [|exact Hrest|exact Hok].
      rewrite (somewhere_split obs a i A Hi). tauto.
    + eapply somewhere_in_tree; [|exact HA]. by eapply array_at_in_tree.
Qed.

Lemma somewhere_push (obs : Folder -> Prop) (t : list nat) (i : nat)
    (l a : list Folder) (F A : Folder) :
  shallow obs ->
  array_at t l = Some a -> a !! i = Some F ->
  (somewhere obs
     (update_array (alter (fun f => set_subfolders f (subfolders f ++ [A])) i) t l)
   <-> somewhere obs l \/ somewhere obs [A]).
Proof.
  intros Hshallow Harr Hi.
  set (h := fun f => set_subfolders f (subfolders f ++ [A])).
  assert (Harray : somewhere obs (alter h i a) <->
                   somewhere obs a \/ somewhere obs [A]).
  { rewrite (somewhere_alter obs h a i F Hi), (somewhere_split obs a i F Hi).
    rewrite (somewhere_single obs (h F)), (somewhere_single obs F).
    unfold h at 1 2. rewrite (Hshallow F). simpl. rewrite somewhere_app. tauto. }
  split.
  - apply (somewhere_update_array_down obs (alter h i) _ t Hshallow l a Harr).
    tauto.
  - intros [Hl|HA].
    + destruct (somewhere_update_array_up obs (alter h i) False t Hshallow l a Harr)
        as [Hok|[]]; [|exact Hl|exact Hok].
      tauto.
    + pose proof (array_at_update_array (alter h i) t l a Harr) as Hnew.
      eapply somewhere_in_tree; [|exact HA].
      eapply in_tree_trans.
      * eapply array_at_in_tree; [exact Hnew|].
        by rewrite list_lookup_alter_eq, Hi.
      * simpl. apply in_tree_here, elem_of_app. right. by left.
Qed.

Lemma findUnlinked_same (L L' : Library) :
  allChats L' = allChats L ->
  (forall c, somewhere (refers c) (folders L') <-> somewhere (refers c) (folders L)) ->
  findUnlinked L' = findUnlinked L.
Proof.
  intros Hchats Hrefs. unfold findUnlinked. rewrite Hchats.
  apply list_filter_iff. intros c.
  rewrite !unlinked_traverse_forest, !elem_of_empty.
  specialize (Hrefs c). unfold somewhere, refers in Hrefs. tauto.
Qed.

Section Structure.
Context `{Host}.

(** X3.  The global delete ([removeChatFromFolder] with a [null] folder),
    once confirmed: the entry of the chat is deleted and no folder
    references the chat any more; every other chat is referenced exactly
    as before, and the tree differs in [chatIds] only.  Declined, it
    changes nothing. *)
Theorem global_delete_removes_chat_everywhere (chatId : string) (w : World) :
  let L := folderData w in
  let L' := folderData (removeChatFromFolder chatId None true w) in
  allChats L' = delete chatId (allChats L)
  /\ ~ referenced L' chatId
  /\ (forall c, c <> chatId -> (referenced L' c <-> referenced L c))
  /\ map without_chatIds (folders L') = map without_chatIds (folders L)
  /\ removeChatFromFolder chatId None false w = w.
Proof.
  intros L L'.
  assert (HL' : L' = mkLibrary (map (drop_everywhere chatId) (folders L))
                       (delete chatId (allChats L)) (pinnedSearches L)).
  { subst L'. unfold removeChatFromFolder. simpl.
    by rewrite folderData_saveAndRefresh. }
  rewrite HL'. simpl. split; [done|]. split; [|split; [|split]].
  - rewrite referenced_somewhere. simpl.
    rewrite somewhere_drop_everywhere. tauto.
  - intros c Hne. rewrite !referenced_somewhere. simpl.
    rewrite somewhere_drop_everywhere. tauto.
  - apply without_chatIds_drop_everywhere.
  - done.
Qed.

(** X4.  [deleteFolder], once confirmed, never deletes a chat record: when
    the folder is found [allChats] is untouched, a chat is referenced
    before exactly when it is referenced afterwards or by the deleted
    folder or a folder below it, and every chat that was unlinked stays
    unlinked.  With an id no folder has, or declined, it changes
    nothing. *)
Theorem deleteFolder_only_dereferences (folderId : IdArg) (w : World) :
  let L := folderData w in
  let L' := folderData (deleteFolder folderId true w) in
  (forall context,
     getFolderContext folderId (folders L) = Some context ->
     allChats L' = allChats L
     /\ (forall c, referenced L c <->
                   referenced L' c \/ somewhere (refers c) [folder context])
     /\ (forall c, c ∈ findUnlinked L -> c ∈ findUnlinked L'))
  /\ (getFolderContext folderId (folders L) = None ->
      deleteFolder folderId true w = w)
  /\ deleteFolder folderId false w = w.
Proof.
  intros L L'. split; [|split].
  - intros context Hctx.
    assert (HL' : L' = set_folders L (splice_out context (folders L))).
    { subst L'. unfold deleteFolder. simpl. fold L. rewrite Hctx.
      by rewrite folderData_saveAndRefresh. }
    destruct (getFolderContext_located _ _ _ Hctx) as (Harr & Hi & _).
    assert (Hrefs : forall c, referenced L c <->
              referenced L' c \/ somewhere (refers c) [folder context]).
    { intros c. rewrite !referenced_somewhere, HL'. simpl.
      apply (somewhere_splice _ _ _ _ _ _ (refers_shallow c) Harr Hi). }
    split; [by rewrite HL'|]. split; [exact Hrefs|].
    intros c [Hsome Hnot]%elem_of_findUnlinked. apply elem_of_findUnlinked.
    rewrite HL'. simpl. split; [done|]. intros Href. apply Hnot.
    apply referenced_somewhere, Hrefs. left.
    apply referenced_somewhere. by rewrite HL'.
  - intros Hnone. unfold deleteFolder. simpl. fold L. by rewrite Hnone.
  - done.
Qed.

(** X5.  [handleMoveFolder] to the root, or to a target that is found once
    the folder is spliced out, moves references without losing or adding
    any: [allChats] is untouched, a chat is referenced afterwards exactly
    when it was before, so the unlinked chats are the same, and the moved
    folder is in the tree (as the last root folder when the target is the
    root). *)
Theorem handleMoveFolder_keeps_references (folderId targetParentId : IdArg)
    (w : World) (context : Context) :
  let L := folderData w in
  let L' := folderData (handleMoveFolder folderId targetParentId w) in
  getFolderContext folderId (folders L) = Some context ->
  is_root targetParentId = true
  \/ is_Some (getFolderContext targetParentId (splice_out context (folders L))) ->
  allChats L' = allChats L
  /\ (forall c, referenced L' c <-> referenced L c)
  /\ findUnlinked L' = findUnlinked L
  /\ in_tree (folder context) (folders L')
  /\ (is_root targetParentId = true -> last (folders L') = Some (folder context)).
Proof.
  intros L L' Hctx Htarget.
  destruct (getFolderContext_located _ _ _ Hctx) as (Harr & Hi & _).
  set (remaining := splice_out context (folders L)).
  assert (HL' : L' = set_folders L
            (if is_root targetParentId then remaining ++ [folder context]
             else match getFolderContext targetParentId remaining with
                  | Some tc =>
                      update_folder
                        (fun f => set_subfolders f (subfolders f ++ [folder context]))
                        tc remaining
                  | None => remaining
                  end)).
  { subst L'. unfold handleMoveFolder. fold L. rewrite Hctx.
    by rewrite folderData_saveAndRefresh. }
  assert (Hobs : forall obs, shallow obs ->
            (somewhere obs (folders L') <-> somewhere obs (folders L))).
  { intros obs Hshallow. rewrite HL'. simpl.
    rewrite (somewhere_splice obs _ _ _ _ _ Hshallow Harr Hi).
    fold (splice_out context (folders L)). fold remaining.
    destruct (is_root targetParentId) eqn:Hroot.
    - by rewrite somewhere_app.
    - destruct Htarget as [?|[tc Htc]]; [done|]. fold remaining in Htc.
      rewrite Htc.
      destruct (getFolderContext_located _ _ _ Htc) as (Ha & Hj & _).
      apply (somewhere_push obs _ _ _ _ _ _ Hshallow Ha Hj). }
  assert (Hrefs : forall c, referenced L' c <-> referenced L c).
  { intros c. rewrite !referenced_somewhere. apply Hobs, refers_shallow. }
  split; [by rewrite HL'|]. split; [exact Hrefs|]. split; [|split].
  - apply findUnlinked_same; [by rewrite HL'|].
    intros c. apply Hobs, refers_shallow.
  - rewrite HL'. simpl. destruct (is_root targetParentId) eqn:Hroot.
    + apply in_tree_here, elem_of_app. right. by left.
    + destruct Htarget as [?|[tc Htc]]; [done|]. fold remaining in Htc.
      rewrite Htc.
      destruct (getFolderContext_located _ _ _ Htc) as (Ha & Hj & _).
      pose proof (array_at_update_array
        (alter (fun f => set_subfolders f (subfolders f ++ [folder context]))
           (index tc)) _ _ _ Ha) as Hnew.
      eapply in_tree_trans.
      * eapply array_at_in_tree; [exact Hnew|].
        by rewrite list_lookup_alter_eq, Hj.
      * simpl. apply in_tree_here, elem_of_app. right. by left.
  - intros Hroot. rewrite HL'. simpl. rewrite Hroot. apply last_snoc.
Qed.
End Structure.

(** ** Moving a chat *)

Section MovingChats.
Context `{Host}.

Lemma folderData_refresh_after_edit (w : World) :
  folderData (refresh_after_edit w) = folderData w.
Proof.
  unfold refresh_after_edit. destruct (search_input w) as [term|]; [|done].
  destruct (negb _); [|done]. apply folderData_refreshFolderList.
Qed.

Lemma folder_at_located (given : IdArg) (l : list Folder) (c : Context) :
  getFolderContext given l = Some c ->
  folder_at (trail c) (index c) l = Some (folder c).
Proof.
  intros (Ha & Hi & _)%getFolderContext_located. unfold folder_at. by rewrite Ha.
Qed.

Lemma handleMoveChat_chatIds (chatId : string) (src target : IdArg) (w : World)
    (srcCtx tgtCtx : Context) :
  let L := folderData w in
  let L' := folderData (handleMoveChat chatId (Some src) target w) in
  getFolderContext src (folders L) = Some srcCtx ->
  getFolderContext target (folders L) = Some tgtCtx ->
  allChats L' = allChats L
  /\ map without_chatIds (folders L') = map without_chatIds (folders L)
  /\ forall t i,
       chatIds <$> folder_at t i (folders L')
       = moved_chatIds chatId (position srcCtx) (position tgtCtx) (t, i)
           <$> (chatIds <$> folder_at t i (folders L)).
Proof.
  intros L L' Hsrc Htgt.
  set (push := fun ids : list string => ids ++ [chatId]).
  set (drop := fun ids : list string => filter (fun c => c ≠ chatId) ids).
  set (pushed := if negb (JS.array_includes (chatIds (folder tgtCtx)) chatId)
                 then update_folder (fun f => set_chatIds f (push (chatIds f)))
                        tgtCtx (folders L)
                 else folders L).
  assert (HL' : L' = set_folders L
            (update_folder (fun f => set_chatIds f (drop (chatIds f))) srcCtx pushed)).
  { subst L'. unfold handleMoveChat. simpl. fold L. rewrite Hsrc, Htgt.
    by rewrite folderData_refresh_after_edit, folderData_saveAndRefresh. }
  assert (Hshape : forall k c l0,
            map without_chatIds
              (update_folder (fun f => set_chatIds f (k (chatIds f))) c l0)
            = map without_chatIds l0).
  { intros k c l0. apply update_array_without_chatIds. intros a.
    apply map_without_chatIds_alter. intros f. apply without_chatIds_set_chatIds. }
  split; [by rewrite HL'|]. split.
  - rewrite HL'. simpl. rewrite Hshape. subst pushed.
    destruct (negb _); [apply Hshape|done].
  - intros t i. rewrite HL'. simpl.
    unfold update_folder at 1. rewrite chatIds_after_update.
    fold (position srcCtx). unfold moved_chatIds.
    assert (Hpushed : chatIds <$> folder_at t i pushed
              = (if decide ((t, i) = position tgtCtx)
                 then (fun ids => if JS.array_includes ids chatId then ids
                                  else ids ++ [chatId])
                 else fun ids => ids) <$> (chatIds <$> folder_at t i (folders L))).
    { subst pushed.
      destruct (JS.array_includes (chatIds (folder tgtCtx)) chatId) eqn:Hinc; simpl.
      - destruct (decide ((t, i) = position tgtCtx)) as [Heq|Hne].
        + injection Heq as -> ->.
          rewrite (folder_at_located _ _ _ Htgt). simpl. by rewrite Hinc.
        + by destruct (folder_at t i (folders L)).
      - unfold update_folder. rewrite chatIds_after_update.
        fold (position tgtCtx).
        destruct (decide ((t, i) = position tgtCtx)) as [Heq|Hne]; [|done].
        injection Heq as -> ->.
        rewrite (folder_at_located _ _ _ Htgt). simpl. by rewrite Hinc. }
    rewrite Hpushed.
    destruct (folder_at t i (folders L)) as [f|]; simpl;
      [|by repeat destruct (decide _)].
    destruct (decide ((t, i) = position srcCtx)) as [Hs|Hs];
      destruct (decide ((t, i) = position tgtCtx)) as [Ht|Ht]; try done.
    f_equal. destruct (JS.array_includes (chatIds f) chatId); [done|].
    unfold drop. rewrite filter_app, filter_cons_False, filter_nil by (by intros ?).
    by rewrite app_nil_r.
Qed.

(** X6.  [handleMoveChat] with both folders found: [allChats] and the shape
    of the tree are untouched; the chat is filtered out of the source
    folder, it is appended to the target folder unless it is there
    already, and no other folder changes.  When the target is the source
    itself the chat just leaves the folder.  From the search results,
    where the source is [null], the move does nothing. *)
Theorem handleMoveChat_moves_one_reference (chatId : string) (src target : IdArg)
    (w : World) (srcCtx tgtCtx : Context) :
  let L := folderData w in
  let L' := folderData (handleMoveChat chatId (Some src) target w) in
  getFolderContext src (folders L) = Some srcCtx ->
  getFolderContext target (folders L) = Some tgtCtx ->
  allChats L' = allChats L
  /\ map without_chatIds (folders L') = map without_chatIds (folders L)
  /\ (forall t i,
        chatIds <$> folder_at t i (folders L')
        = (if decide ((t, i) = position srcCtx)
           then fun ids => filter (fun c => c ≠ chatId) ids
           else if decide ((t, i) = position tgtCtx)
                then fun ids => if JS.array_includes ids chatId then ids
                                else ids ++ [chatId]
                else fun ids => ids)
            <$> (chatIds <$> folder_at t i (folders L)))
  /\ handleMoveChat chatId None target w = w.
Proof.
  intros L L' Hsrc Htgt.
  destruct (handleMoveChat_chatIds chatId src target w srcCtx tgtCtx Hsrc Htgt)
    as (Hchats & Hshape & Hids).
  split; [exact Hchats|]. split; [exact Hshape|]. split; [|done].
  intros t i. fold L' in Hids. rewrite Hids. unfold moved_chatIds.
  subst L. by destruct (folder_at t i (folders (folderData w))) as [f|];
    repeat destruct (decide _).
Qed.

Lemma moveMenu_targets_spec (chatId : string) (src : option IdArg) (l : list Folder)
    (t : Folder) :
  t ∈ flat_map (moveMenu_traverse chatId src) l ->
  in_tree t l /\ loose_eq_nullable (fid t) src = false /\ chatId ∉ chatIds t.
Proof.
  revert l.
  apply (forest_induction
    (fun f => t ∈ moveMenu_traverse chatId src f ->
              in_tree t [f] /\ loose_eq_nullable (fid t) src = false
              /\ chatId ∉ chatIds t)
    (fun l => t ∈ flat_map (moveMenu_traverse chatId src) l ->
              in_tree t l /\ loose_eq_nullable (fid t) src = false
              /\ chatId ∉ chatIds t)).
  - simpl. by intros ?%elem_of_nil.
  - intros f rest IHf IHrest. simpl. intros [Hin|Hin]%elem_of_app.
    + destruct (IHf Hin) as (Htree & Hrest). split; [|done].
      apply in_tree_cons. apply in_tree_cons in Htree as [->|[?|?%in_tree_nil]];
        [by left|by right; left|done].
    + destruct (IHrest Hin) as (Htree & Hrest). split; [|done].
      apply in_tree_cons. by right; right.
  - intros f IH.
    assert (Hunfold : moveMenu_traverse chatId src f
      = (if negb (loose_eq_nullable (fid f) src)
            && negb (JS.array_includes (chatIds f) chatId)
         then [f] else [])
        ++ flat_map (moveMenu_traverse chatId src) (subfolders f))
      by (by destruct f).
    rewrite Hunfold. intros [Hin|Hin]%elem_of_app.
    + destruct (negb (loose_eq_nullable (fid f) src)) eqn:H1;
        destruct (negb (JS.array_includes (chatIds f) chatId)) eqn:H2;
        simpl in Hin; try by apply elem_of_nil in Hin.
      apply list_elem_of_singleton in Hin as ->.
      apply negb_true_iff in H1, H2. split; [|split; [done|]].
      * apply in_tree_here. by left.
      * by apply array_includes_false.
    + destruct (IH Hin) as (Htree & Hrest). split; [|done].
      eapply in_tree_below; [by left|done].
Qed.

(** X7.  A move the menu of [showMoveMenu] can issue never loses the chat:
    for a source folder that is found and any target the menu offers, the
    target is a folder of the tree other than the source that did not hold
    the chat, and after [handleMoveChat] with the id of its [data-fid] the
    chat is referenced by a folder and no longer by the source folder. *)
Theorem move_menu_keeps_the_chat (chatId : string) (src : IdArg) (w : World)
    (srcCtx : Context) (t : Folder) :
  let L := folderData w in
  let L' := folderData (handleMoveChat chatId (Some src) (data_fid t) w) in
  getFolderContext src (folders L) = Some srcCtx ->
  t ∈ moveMenu_targets chatId (Some src) L ->
  in_tree t (folders L)
  /\ loose_eq (fid t) src = false
  /\ (chatId ∉ chatIds t)
  /\ referenced L' chatId
  /\ (forall f, folder_at (trail srcCtx) (index srcCtx) (folders L') = Some f ->
                chatId ∉ chatIds f).
Proof.
  intros L L' Hsrc Ht. subst L.
  apply moveMenu_targets_spec in Ht as (Htree & Hne & Hout). simpl in Hne.
  split; [exact Htree|]. split; [exact Hne|]. split; [exact Hout|].
  destruct (getFolderContext (data_fid t) (folders (folderData w)))
    as [tc|] eqn:Htc.
  2:{ exfalso.
      pose proof (proj1 (getFolderContext_None _ _) Htc t Htree) as Hnone.
      unfold data_fid in Hnone. rewrite loose_eq_Number_toString in Hnone.
      simpl in Hnone. by apply Z.eqb_neq in Hnone. }
  destruct (handleMoveChat_chatIds chatId src (data_fid t) w srcCtx tc Hsrc Htc)
    as (_ & _ & Hids).
  fold L' in Hids.
  assert (Hdiff : position tc <> position srcCtx).
  { intros Heq. injection Heq as Htr Hidx.
    pose proof (folder_at_located _ _ _ Hsrc) as Hs.
    pose proof (folder_at_located _ _ _ Htc) as Hc.
    rewrite Htr, Hidx, Hs in Hc. injection Hc as Hsame.
    destruct (getFolderContext_located _ _ _ Hsrc) as (_ & _ & Hms).
    destruct (getFolderContext_located _ _ _ Htc) as (_ & _ & Hmt).
    unfold data_fid in Hmt. rewrite loose_eq_Number_toString in Hmt.
    simpl in Hmt. apply Z.eqb_eq in Hmt.
    rewrite Hsame, Hmt in Hms. congruence. }
  split.
  - pose proof (Hids (trail tc) (index tc)) as Hat.
    rewrite (folder_at_located _ _ _ Htc) in Hat. simpl in Hat.
    unfold moved_chatIds in Hat. fold (position tc) in Hat.
    rewrite decide_False, decide_True in Hat by done.
    destruct (folder_at (trail tc) (index tc) (folders L')) as [f'|] eqn:Hf';
      [|done].
    simpl in Hat. injection Hat as Hf.
    exists f'. split; [apply in_tree_positions; by eexists _, _|].
    rewrite Hf.
    destruct (JS.array_includes (chatIds (folder tc)) chatId) eqn:Hinc.
    + by apply array_includes_true.
    + apply elem_of_app. right. by left.
  - intros f Hf. pose proof (Hids (trail srcCtx) (index srcCtx)) as Hat.
    rewrite Hf, (folder_at_located _ _ _ Hsrc) in Hat. simpl in Hat.
    unfold moved_chatIds in Hat. fold (position srcCtx) in Hat.
    rewrite decide_True in Hat by done. injection Hat as ->.
    rewrite list_elem_of_filter. tauto.
Qed.
End MovingChats.

(** ** Creating a folder *)

Lemma in_tree_somewhere (f : Folder) (l : list Folder) :
  in_tree f l <-> somewhere (eq f) l.
Proof.
  split; [intros Hf; by exists f|]. by intros (g & Hg & ->).
Qed.

(** A folder of the tree after an update at a trail lies in the updated
    array, or has the id of a folder of the tree before. *)
Lemma in_tree_update_array (f : Folder) (g : list Folder -> list Folder)
    (t : list nat) :
  forall l a,
    array_at t l = Some a ->
    in_tree f (update_array g t l) ->
    in_tree f (g a) \/ exists f0, in_tree f0 l /\ fid f0 = fid f.
Proof.
  induction t as [|j t IH]; intros l a Harr; simpl in *.
  - injection Harr as ->. by left.
  - destruct (l !! j) as [f0|] eqn:Hj; [|done].
    assert (Hf0 : in_tree f0 l)
      by (apply in_tree_here; by eapply list_elem_of_lookup_2).
    rewrite in_tree_somewhere, (somewhere_alter _ _ l j f0 Hj), somewhere_single.
    simpl. intros [[->|Hsub]|Hrest].
    + right. by exists f0.
    + apply in_tree_somewhere in Hsub.
      destruct (IH (subfolders f0) a Harr Hsub) as [?|(f1 & Hf1 & Hid)]; [by left|].
      right. exists f1. split; [|done]. by eapply in_tree_trans.
    + right. exists f. split; [|done]. apply in_tree_somewhere.
      apply (somewhere_split _ l j f0 Hj). by right.
Qed.

Lemma in_tree_pushed (f A : Folder) (t : list nat) (i : nat)
    (l a : list Folder) (F : Folder) :
  subfolders A = [] ->
  array_at t l = Some a -> a !! i = Some F ->
  in_tree f
    (update_array (alter (fun p => set_subfolders p (subfolders p ++ [A])) i) t l) ->
  f = A \/ exists f0, in_tree f0 l /\ fid f0 = fid f.
Proof.
  intros Hleaf Harr Hi Hf.
  assert (HF : in_tree F l) by (by eapply array_at_in_tree).
  destruct (in_tree_update_array f _ t l a Harr Hf) as [Hin|?]; [|by right].
  rewrite in_tree_somewhere, (somewhere_alter _ _ a i F Hi), somewhere_single
    in Hin.
  simpl in Hin. rewrite somewhere_app, somewhere_single, Hleaf in Hin.
  destruct Hin as [[->|[Hsub|[->|Hnil]]]|Hrest].
  - right. by exists F.
  - right. exists f. split; [|done]. apply in_tree_somewhere in Hsub.
    by eapply in_tree_trans.
  - by left.
  - by apply somewhere_nil in Hnil.
  - right. exists f. split; [|done].
    assert (Hfa : in_tree f a)
      by (apply in_tree_somewhere, (somewhere_split _ a i F Hi); by right).
    clear -Harr Hfa. revert l Harr. induction t as [|j t IH]; intros l Harr.
    + simpl in Harr. by injection Harr as ->.
    + simpl in Harr. destruct (l !! j) as [f0|] eqn:Hj; [|done].
      eapply in_tree_below; [by eapply list_elem_of_lookup_2|]. by apply IH.
Qed.

Section Creation.
Context `{Host}.

(** X8.  [createNewFolder] with a non-empty answer, at a time stamp that no
    folder has as its id yet, and a parent that is found when a truthy one
    is given: chats and references are untouched, and looking the new id up
    afterwards gives the new folder, which is empty and named by the
    trimmed answer.  With a falsy parent id ([null], 0 or the empty
    string) it is the last root folder; otherwise it is the last subfolder
    of the parent, which keeps its position. *)
Theorem createNewFolder_then_lookup (now : Z) (parentId : option IdArg)
    (a : ascii) (r : string) (w : World) :
  let L := folderData w in
  let newFolder := mkFolder now (JS.trim (String a r)) [] [] EmptyString None in
  let out := createNewFolder now parentId (Some (String a r)) w in
  let L' := folderData out.2 in
  (forall f, in_tree f (folders L) -> fid f <> now) ->
  (truthy_id parentId = true ->
   is_Some (getFolderContext_nullable parentId (folders L))) ->
  out.1 = None
  /\ allChats L' = allChats L
  /\ (forall c, referenced L' c <-> referenced L c)
  /\ (exists ctx, getFolderContext (IdNum now) (folders L') = Some ctx
                  /\ folder ctx = newFolder)
  /\ (truthy_id parentId = false -> folders L' = folders L ++ [newFolder])
  /\ (forall pc, truthy_id parentId = true ->
        getFolderContext_nullable parentId (folders L) = Some pc ->
        folder_at (trail pc) (index pc) (folders L')
        = Some (set_subfolders (folder pc) (subfolders (folder pc) ++ [newFolder]))).
Proof.
  intros L newFolder out L' Hfresh Hparent.
  (* what the new tree is, in either case *)
  assert (Hlookup : forall l',
            in_tree newFolder l' ->
            (forall f, in_tree f l' ->
                       f = newFolder \/ exists f0, in_tree f0 (folders L)
                                                   /\ fid f0 = fid f) ->
            exists ctx, getFolderContext (IdNum now) l' = Some ctx
                        /\ folder ctx = newFolder).
  { intros l' Hnew Hall.
    destruct (getFolderContext (IdNum now) l') as [ctx|] eqn:Hctx.
    - exists ctx. split; [done|].
      destruct (Hall _ (getFolderContext_in_tree _ _ _ Hctx))
        as [?|(f0 & Hf0 & Hid)]; [done|].
      destruct (getFolderContext_located _ _ _ Hctx) as (_ & _ & Heq).
      simpl in Heq. apply Z.eqb_eq in Heq. rewrite <- Hid in Heq.
      by destruct (Hfresh f0 Hf0).
    - pose proof (proj1 (getFolderContext_None _ _) Hctx newFolder Hnew) as Hno.
      simpl in Hno. by rewrite Z.eqb_refl in Hno. }
  destruct (truthy_id parentId) eqn:Htruthy.
  - destruct (Hparent eq_refl) as [pc Hpc].
    assert (Hout : out = (None, saveAndRefresh (with_folderData w
              (set_folders L (update_folder
                 (fun f => set_subfolders f (subfolders f ++ [newFolder]))
                 pc (folders L)))))).
    { subst out. unfold createNewFolder. fold L. by rewrite Htruthy, Hpc. }
    assert (HL' : L' = set_folders L (update_folder
                 (fun f => set_subfolders f (subfolders f ++ [newFolder]))
                 pc (folders L))).
    { subst L'. rewrite Hout. simpl. by rewrite folderData_saveAndRefresh. }
    assert (Hloc : located (default (IdNum 0) parentId) (folders L) pc).
    { destruct parentId as [g|]; [|done]. by apply getFolderContext_located. }
    destruct Hloc as (Harr & Hidx & _).
    split; [by rewrite Hout|]. split; [by rewrite HL'|]. split; [|split; [|split]].
    + intros c. rewrite !referenced_somewhere, HL'. simpl. unfold update_folder.
      rewrite (somewhere_push _ _ _ _ _ _ _ (refers_shallow c) Harr Hidx).
      rewrite somewhere_single. simpl. unfold refers at 2. simpl.
      split; [|tauto]. intros [?|[?%elem_of_nil|?%somewhere_nil]]; done.
    + rewrite HL'. simpl. apply Hlookup.
      * unfold update_folder.
        pose proof (array_at_update_array
          (alter (fun f => set_subfolders f (subfolders f ++ [newFolder]))
                 (index pc)) _ _ _ Harr) as Hnew.
        eapply in_tree_trans.
        -- eapply array_at_in_tree; [exact Hnew|].
           by rewrite list_lookup_alter_eq, Hidx.
        -- simpl. apply in_tree_here, elem_of_app. right. by left.
      * intros f Hf. by eapply (in_tree_pushed f newFolder).
    + done.
    + intros pc' _ Hpc'. rewrite Hpc in Hpc'. injection Hpc' as <-.
      rewrite HL'. simpl. unfold folder_at, update_folder.
      rewrite (array_at_update_array _ _ _ _ Harr). simpl.
      by rewrite list_lookup_alter_eq, Hidx.
  - assert (Hout : out = (None, saveAndRefresh (with_folderData w
              (set_folders L (folders L ++ [newFolder]))))).
    { subst out. unfold createNewFolder. fold L. by rewrite Htruthy. }
    assert (HL' : L' = set_folders L (folders L ++ [newFolder])).
    { subst L'. rewrite Hout. simpl. by rewrite folderData_saveAndRefresh. }
    split; [by rewrite Hout|]. split; [by rewrite HL'|]. split; [|split; [|split]].
    + intros c. rewrite !referenced_somewhere, HL'. simpl.
      rewrite somewhere_app, somewhere_single. simpl. unfold refers at 2. simpl.
      split; [|tauto]. intros [?|[?%elem_of_nil|?%somewhere_nil]]; done.
    + rewrite HL'. simpl. apply Hlookup.
      * apply in_tree_here, elem_of_app. right. by left.
      * intros f. rewrite in_tree_somewhere, somewhere_app, somewhere_single.
        simpl. intros [Hold|[->|Hnil%somewhere_nil]]; [|by left|done].
        right. exists f. split; [|done]. by apply in_tree_somewhere.
    + intros _. by rewrite HL'.
    + done.
Qed.
End Creation.

(** ** Referential integrity *)

Lemma integral_step (L L' : Library) :
  integral L ->
  (forall c, somewhere (refers c) (folders L') ->
             somewhere (refers c) (folders L) \/ is_Some (allChats L' !! c)) ->
  (forall c, somewhere (refers c) (folders L') ->
             is_Some (allChats L !! c) -> is_Some (allChats L' !! c)) ->
  integral L'.
Proof.
  intros HL Hrefs Hkeys c Hc. destruct (Hrefs c Hc) as [Hold|?]; [|done].
  apply (Hkeys c Hc), HL, Hold.
Qed.

(** Rewriting fields of the folder at a position that a shallow observation
    does not see. *)
Lemma somewhere_update_folder_blind (obs : Folder -> Prop) (h : Folder -> Folder)
    (given : IdArg) (c : Context) (l : list Folder) :
  shallow obs ->
  (forall f, obs (h f) <-> obs f) ->
  (forall f, subfolders (h f) = subfolders f) ->
  getFolderContext given l = Some c ->
  (somewhere obs (update_folder h c l) <-> somewhere obs l).
Proof.
  intros Hshallow Hobs Hsubs (Harr & Hi & _)%getFolderContext_located.
  assert (Harray : somewhere obs (alter h (index c) (siblings c))
                   <-> somewhere obs (siblings c)).
  { rewrite (somewhere_alter _ _ _ _ _ Hi), (somewhere_split _ _ _ _ Hi).
    by rewrite !somewhere_single, Hobs, Hsubs. }
  unfold update_folder. split; intros Hsw.
  - destruct (somewhere_update_array_down obs (alter h (index c)) False _
                Hshallow _ _ Harr) with (2 := Hsw) as [?|[]]; [|done]. tauto.
  - destruct (somewhere_update_array_up obs (alter h (index c)) False _
                Hshallow _ _ Harr) with (2 := Hsw) as [?|[]]; [|done]. tauto.
Qed.

Lemma refers_after_push (c chatId : string) (given : IdArg) (ctx : Context)
    (l : list Folder) :
  getFolderContext given l = Some ctx ->
  somewhere (refers c)
    (update_folder (fun f => set_chatIds f (chatIds f ++ [chatId])) ctx l) ->
  somewhere (refers c) l \/ c = chatId.
Proof.
  intros (Harr & Hi & _)%getFolderContext_located.
  apply (refers_update_chatIds_down c (fun ids => ids ++ [chatId]) _ _ _ _ _ _
           Harr Hi).
  intros [?|Hc%list_elem_of_singleton]%elem_of_app; [by left|by right].
Qed.

Lemma refers_after_filter (c chatId : string) (given : IdArg) (ctx : Context)
    (l : list Folder) :
  getFolderContext given l = Some ctx ->
  somewhere (refers c)
    (update_folder
       (fun f => set_chatIds f (filter (fun x => x ≠ chatId) (chatIds f))) ctx l) ->
  somewhere (refers c) l.
Proof.
  intros (Harr & Hi & _)%getFolderContext_located Hsw.
  destruct (refers_update_chatIds_down c
              (fun ids => filter (fun x => x ≠ chatId) ids) False _ _ _ _ _
              Harr Hi) with (2 := Hsw) as [?|[]]; [|done].
  intros [_ ?]%list_elem_of_filter. by left.
Qed.

Section Integrity.
Context `{Host}.

Lemma integral_saveChatToFolder (now_created now_updated : Z) (folderId : IdArg)
    (chatId chatTitle : string) (tgs : list string) (note : string) (w : World) :
  integral (folderData w) ->
  integral (folderData (saveChatToFolder now_created now_updated folderId chatId
                          chatTitle tgs note w).2).
Proof.
  intros Hint. unfold saveChatToFolder.
  destruct (getFolderContext folderId (folders (folderData w))) as [ctx|] eqn:Hctx;
    [|done].
  destruct (negb _); simpl; rewrite ?folderData_saveAndRefresh.
  - apply (integral_step (folderData w)); [done|simpl..].
    + intros c Hc. destruct (refers_after_push _ _ _ _ _ Hctx Hc) as [?| ->];
        [by left|].
      right. by rewrite lookup_insert_eq.
    + intros c _ Hc.
      destruct (decide (c = chatId)) as [->|Hne];
        [by rewrite lookup_insert_eq|by rewrite lookup_insert_ne].
  - apply (integral_step (folderData w)); [done|simpl..].
    + by left.
    + intros c _ Hc.
      destruct (decide (c = chatId)) as [->|Hne];
        [by rewrite lookup_insert_eq|by rewrite lookup_insert_ne].
Qed.

Lemma integral_insert_present (L : Library) (chatId : string) (old new : ChatEntry) :
  integral L -> allChats L !! chatId = Some old ->
  integral (set_allChats L (<[ chatId := new ]> (allChats L))).
Proof.
  intros Hint Hold. apply (integral_step L); [done|simpl..].
  - by left.
  - intros c _ Hc.
    destruct (decide (c = chatId)) as [->|Hne];
      [by rewrite lookup_insert_eq|by rewrite lookup_insert_ne].
Qed.

(** X9.  The operations on chats keep referential integrity: when every
    chat id that a folder references has its entry in [allChats], the same
    holds after [saveChatToFolder], [saveCurrentChatToFolder],
    [addChatByUrl], [removeChatFromFolder] (from a folder or globally,
    confirmed or not), [renameChat], [editChatAnnotation] and
    [editChatTags], whatever their arguments; and after [handleMoveChat]
    when the chat moved has its entry. *)
Theorem chat_operations_keep_integrity (w : World) :
  integral (folderData w) ->
  (forall nc nu folderId chatId chatTitle tgs note,
     integral (folderData
       (saveChatToFolder nc nu folderId chatId chatTitle tgs note w).2))
  /\ (forall nc nu folderId url chatTitle tagAnswer noteAnswer,
     integral (folderData
       (saveCurrentChatToFolder nc nu folderId url chatTitle tagAnswer
          noteAnswer w).2))
  /\ (forall nc nu folderId rawUrl nameAnswer tagAnswer noteAnswer,
     integral (folderData
       (addChatByUrl nc nu folderId rawUrl nameAnswer tagAnswer noteAnswer w).2))
  /\ (forall chatId folderId confirmed,
     integral (folderData (removeChatFromFolder chatId folderId confirmed w)))
  /\ (forall chatId src target,
     is_Some (allChats (folderData w) !! chatId) ->
     integral (folderData (handleMoveChat chatId src target w)))
  /\ (forall now chatId answer,
     integral (folderData (renameChat now chatId answer w))
     /\ integral (folderData (editChatAnnotation now chatId answer w))
     /\ integral (folderData (editChatTags now chatId answer w))).
Proof.
  intros Hint. repeat split.
  - intros. by apply integral_saveChatToFolder.
  - intros. unfold saveCurrentChatToFolder.
    destruct (Url.extractChatId _); [|done]. simpl.
    destruct (getFolderContext _ _); [|done].
    destruct (JS.array_includes _ _); [done|].
    destruct tagAnswer; [|done]. by apply integral_saveChatToFolder.
  - intros. unfold addChatByUrl.
    destruct rawUrl as [[|a r]|]; [done| |done].
    destruct (Url.extractChatId _); [|done]. simpl.
    destruct (getFolderContext _ _); [|done].
    destruct (JS.array_includes _ _); [done|].
    destruct nameAnswer; [|done].
    destruct (Object_get _ _); [|done|]; by apply integral_saveChatToFolder.
  - intros chatId folderId confirmed. unfold removeChatFromFolder.
    destruct folderId as [fId|].
    + destruct (getFolderContext fId _) as [ctx|] eqn:Hctx; [|done].
      destruct (_ && _); [done|]. rewrite folderData_saveAndRefresh. simpl.
      destruct (length _ =? 0)%nat eqn:Hleft.
      * apply (integral_step (folderData w)); [done|simpl..].
        -- intros c Hc. left. by eapply refers_after_filter.
        -- intros c Hc Hkey. rewrite lookup_delete_ne; [done|]. intros <-.
           apply Nat.eqb_eq, length_zero_iff_nil in Hleft.
           unfold findAllFoldersForChat in Hleft. simpl in Hleft.
           destruct Hc as (f & Hf & Hin).
           by apply (proj1 (findAll_nil _ _) Hleft f Hf).
      * apply (integral_step (folderData w)); [done|simpl..].
        -- intros c Hc. left. by eapply refers_after_filter.
        -- done.
    + destruct (negb confirmed); [done|]. rewrite folderData_saveAndRefresh.
      apply (integral_step (folderData w)); [done|simpl..].
      * intros c [_ ?]%somewhere_drop_everywhere. by left.
      * intros c [Hne _]%somewhere_drop_everywhere Hkey.
        by rewrite lookup_delete_ne.
  - intros chatId src target Hkey. unfold handleMoveChat.
    destruct src as [src|]; [|done]. simpl.
    destruct (getFolderContext src _) as [sc|] eqn:Hsc; [|done].
    destruct (getFolderContext target _) as [tc|] eqn:Htc; [|done].
    rewrite folderData_refresh_after_edit, folderData_saveAndRefresh.
    apply (integral_step (folderData w)); [done|simpl..]; [|done].
    intros c (f' & (t & i & Hat)%in_tree_positions & Hin).
    destruct (handleMoveChat_chatIds chatId src target w sc tc Hsc Htc)
      as (_ & _ & Hids).
    specialize (Hids t i). unfold handleMoveChat in Hids. simpl in Hids.
    rewrite Hsc, Htc, folderData_refresh_after_edit, folderData_saveAndRefresh
      in Hids.
    simpl in Hids. rewrite Hat in Hids.
    destruct (folder_at t i (folders (folderData w))) as [f|] eqn:Hf; [|done].
    simpl in Hids. injection Hids as Hids.
    assert (Hc : c ∈ chatIds f \/ c = chatId).
    { unfold refers in Hin. rewrite Hids in Hin. unfold moved_chatIds in Hin.
      destruct (decide _); [apply list_elem_of_filter in Hin; tauto|].
      destruct (decide _); [|by left].
      destruct (JS.array_includes (chatIds f) chatId); [by left|].
      apply elem_of_app in Hin as [?|?%list_elem_of_singleton]; [by left|by right]. }
    destruct Hc as [Hc| ->]; [|by right].
    left. exists f. split; [|done]. apply in_tree_positions. by exists t, i.
  - unfold renameChat.
    destruct (allChats (folderData w) !! chatId) as [chat|] eqn:Hchat; [|done].
    destruct answer; [|done]. destruct (negb _); [|done].
    rewrite folderData_refresh_after_edit, folderData_saveAndRefresh.
    by eapply integral_insert_present.
  - unfold editChatAnnotation.
    destruct (allChats (folderData w) !! chatId) as [chat|] eqn:Hchat; [|done].
    destruct answer; [|done].
    rewrite folderData_refresh_after_edit, folderData_saveAndRefresh.
    by eapply integral_insert_present.
  - unfold editChatTags.
    destruct (allChats (folderData w) !! chatId) as [chat|] eqn:Hchat; [|done].
    destruct answer; [|done].
    rewrite folderData_refresh_after_edit, folderData_saveAndRefresh.
    by eapply integral_insert_present.
Qed.
(** X10.  The operations on folders and the garbage collection keep
    referential integrity as well: [createNewFolder], [deleteFolder],
    [renameFolder], [editFolderAnnotation], [handleMoveFolder] (also when
    the target is not found and the folder is dropped), [pruneUnlinked]
    and [archiveUnlinked], whatever their arguments. *)
Theorem folder_operations_keep_integrity (w : World) :
  integral (folderData w) ->
  (forall now parentId answer,
     integral (folderData (createNewFolder now parentId answer w).2))
  /\ (forall folderId confirmed,
     integral (folderData (deleteFolder folderId confirmed w)))
  /\ (forall folderId answer,
     integral (folderData (renameFolder folderId answer w))
     /\ integral (folderData (editFolderAnnotation folderId answer w)))
  /\ (forall folderId targetParentId,
     integral (folderData (handleMoveFolder folderId targetParentId w)))
  /\ (forall confirmed, integral (folderData (pruneUnlinked confirmed w).2))
  /\ (forall now recoveredName recoveredNote confirmed,
     integral (folderData
       (archiveUnlinked now recoveredName recoveredNote confirmed w).2)).
Proof.
  intros Hint.
  assert (Hleaf : forall c nm n note ids,
            somewhere (refers c) [mkFolder n nm ids [] note None] -> c ∈ ids).
  { intros c nm n note ids [Hc|Hnil%somewhere_nil]%somewhere_single; done. }
  repeat split.
  - intros now parentId answer. unfold createNewFolder.
    destruct answer as [[|a r]|]; [done| |done].
    destruct (truthy_id parentId).
    + destruct parentId as [given|]; [|done]. simpl.
      destruct (getFolderContext given _) as [ctx|] eqn:Hctx; [|done].
      simpl. rewrite folderData_saveAndRefresh.
      apply (integral_step (folderData w)); [done|simpl..]; [|done].
      intros c Hc. left.
      destruct (getFolderContext_located _ _ _ Hctx) as (Harr & Hi & _).
      apply (somewhere_push _ _ _ _ _ _ _ (refers_shallow c) Harr Hi) in Hc
        as [?|Hc]; [done|].
      by apply Hleaf, elem_of_nil in Hc.
    + simpl. rewrite folderData_saveAndRefresh.
      apply (integral_step (folderData w)); [done|simpl..]; [|done].
      intros c [?|Hc]%somewhere_app; [by left|].
      by apply Hleaf, elem_of_nil in Hc.
  - intros folderId confirmed. unfold deleteFolder.
    destruct (negb confirmed); [done|].
    destruct (getFolderContext folderId _) as [ctx|] eqn:Hctx; [|done].
    rewrite folderData_saveAndRefresh.
    apply (integral_step (folderData w)); [done|simpl..]; [|done].
    intros c Hc. left.
    destruct (getFolderContext_located _ _ _ Hctx) as (Harr & Hi & _).
    apply (somewhere_splice _ _ _ _ _ _ (refers_shallow c) Harr Hi). by left.
  - unfold renameFolder.
    destruct (getFolderContext folderId _) as [ctx|] eqn:Hctx; [|done].
    destruct answer as [[|a r]|]; [done| |done].
    rewrite folderData_saveAndRefresh.
    apply (integral_step (folderData w)); [done|simpl..]; [|done].
    intros c Hc. left. revert Hc.
    apply somewhere_update_folder_blind with (given := folderId);
      [apply refers_shallow|by intros []|by intros []|done].
  - unfold editFolderAnnotation.
    destruct (getFolderContext folderId _) as [ctx|] eqn:Hctx; [|done].
    destruct answer as [note|]; [|done].
    rewrite folderData_saveAndRefresh.
    apply (integral_step (folderData w)); [done|simpl..]; [|done].
    intros c Hc. left. revert Hc.
    apply somewhere_update_folder_blind with (given := folderId);
      [apply refers_shallow|by intros []|by intros []|done].
  - intros folderId targetParentId. unfold handleMoveFolder.
    destruct (getFolderContext folderId _) as [ctx|] eqn:Hctx; [|done].
    rewrite folderData_saveAndRefresh.
    apply (integral_step (folderData w)); [done|simpl..]; [|done].
    intros c Hc. left.
    destruct (getFolderContext_located _ _ _ Hctx) as (Harr & Hi & _).
    apply (somewhere_splice _ _ _ _ _ _ (refers_shallow c) Harr Hi).
    fold (splice_out ctx (folders (folderData w))).
    destruct (is_root targetParentId).
    + apply somewhere_app in Hc. tauto.
    + destruct (getFolderContext targetParentId _) as [tc|] eqn:Htc; [|by left].
      destruct (getFolderContext_located _ _ _ Htc) as (Harr' & Hi' & _).
      by apply (somewhere_push _ _ _ _ _ _ _ (refers_shallow c) Harr' Hi') in Hc.
  - intros confirmed. unfold pruneUnlinked.
    destruct (length _ =? 0)%nat; [done|]. destruct confirmed; [|done].
    simpl. rewrite folderData_saveAndRefresh.
    apply (integral_step (folderData w)); [done|simpl..]; [by left|].
    intros c Hc Hkey. rewrite lookup_fold_delete.
    destruct (decide _) as [Hun|]; [|done].
    apply elem_of_findUnlinked in Hun as [_ Hno]. by destruct Hno.
  - intros now recoveredName recoveredNote confirmed. unfold archiveUnlinked.
    destruct (length _ =? 0)%nat; [done|]. destruct (negb confirmed); [done|].
    simpl. rewrite folderData_saveAndRefresh.
    apply (integral_step (folderData w)); [done|simpl..]; [|done].
    intros c [?|Hc]%somewhere_app; [by left|].
    right. by apply Hleaf, elem_of_findUnlinked in Hc as [? _].
Qed.
End Integrity.

(** ** Pinned searches *)

Section Pins.
Context `{Host}.

Lemma pinnedSearches_pinCurrentSearch (now : Z) (q : string)
    (answer : option string) (w : World) :
  let L := folderData w in
  let L' := folderData (pinCurrentSearch now q answer w).2 in
  folders L' = folders L /\ allChats L' = allChats L
  /\ (pinnedSearches L' = pinnedSearches L
      \/ (exists a r, answer = Some (String a r)
            /\ pinnedSearches L'
               = pinnedSearches L ++ [mkPinnedSearch now (JS.trim (String a r)) q])
         /\ (q ∉ query <$> pinnedSearches L)
         /\ (length (pinnedSearches L) < 5)%nat).
Proof.
  intros L L'. subst L'. unfold pinCurrentSearch. fold L.
  destruct (existsb _ _) eqn:Hex; [by auto|].
  destruct (5 <=? _)%nat eqn:Hlen; [by auto|].
  destruct answer as [[|a r]|]; [by auto| |by auto].
  assert (Hdata : forall w0, folderData
            (match search_input w0 with
             | Some _ => refreshFolderList (with_search_input w0 (Some EmptyString))
             | None => w0
             end) = folderData w0).
  { intros w0. destruct (search_input w0); [|done].
    by rewrite folderData_refreshFolderList. }
  cbn [snd]. rewrite Hdata, folderData_saveAndRefresh. simpl.
  split; [done|]. split; [done|]. right. split; [by eauto|]. split.
  - intros (p & Hq & Hp)%list_elem_of_fmap.
    assert (Hsome : existsb (fun p => String.eqb (query p) q) (pinnedSearches L)
                    = true).
    { apply existsb_exists. exists p. split; [by apply list_elem_of_In|].
      by apply String.eqb_eq. }
    congruence.
  - apply Nat.leb_gt in Hlen. lia.
Qed.

(** X11.  The pinned searches stay at most five with no query pinned
    twice: [pins_ok] is kept by the pin button of the search results and
    by both unpin buttons, which touch neither folders nor chats.  At five
    pins, or for a query that is pinned already, the pin button changes
    nothing and reports the error.  Unpinning removes every pin of that id
    and keeps the others in their order; unpinning right after pinning, at
    a time stamp no earlier pin has as its id, restores the list. *)
Theorem pinned_searches_stay_bounded (now : Z) (q : string)
    (answer : option string) (pinId : Z) (confirmed : bool) (w : World) :
  let L := folderData w in
  let pinned := pinCurrentSearch now q answer w in
  pins_ok L ->
  pins_ok (folderData pinned.2)
  /\ pins_ok (folderData (unpin pinId w))
  /\ pins_ok (folderData (quick_unpin pinId confirmed w))
  /\ folders (folderData pinned.2) = folders L
  /\ allChats (folderData pinned.2) = allChats L
  /\ folders (folderData (unpin pinId w)) = folders L
  /\ allChats (folderData (unpin pinId w)) = allChats L
  /\ (q ∈ query <$> pinnedSearches L -> pinned = (Some pin_exists_error, w))
  /\ (q ∉ query <$> pinnedSearches L -> length (pinnedSearches L) = 5%nat ->
      pinned = (Some pin_limit_error, w))
  /\ pinnedSearches (folderData (unpin pinId w))
     = filter (fun p => pin_id p ≠ pinId) (pinnedSearches L)
  /\ ((forall p, p ∈ pinnedSearches L -> pin_id p <> now) ->
      pinnedSearches (folderData (unpin now pinned.2)) = pinnedSearches L).
Proof.
  intros L pinned [Hlen Hnodup].
  destruct (pinnedSearches_pinCurrentSearch now q answer w)
    as (Hfolders & Hchats & Hpins).
  fold L pinned in Hfolders, Hchats, Hpins.
  assert (Hunpin : forall w0 n, folderData (unpin n w0)
            = set_pinnedSearches (folderData w0)
                (filter (fun p => pin_id p ≠ n) (pinnedSearches (folderData w0)))).
  { intros w0 n. unfold unpin. by rewrite folderData_saveAndRefresh. }
  assert (Hfiltered : forall n,
            pins_ok (set_pinnedSearches L
                       (filter (fun p => pin_id p ≠ n) (pinnedSearches L)))).
  { intros n. split; simpl.
    - pose proof (length_filter (fun p => pin_id p ≠ n) (pinnedSearches L)). lia.
    - eapply sublist_NoDup; [exact Hnodup|apply fmap_sublist, sublist_filter]. }
  split; [|split; [|split; [|split; [|split; [|split; [|split;
    [|split; [|split; [|split]]]]]]]]].
  - destruct Hpins as [Hsame|((a & r & _ & Hnew) & Hfresh & Hroom)].
    + split; by rewrite Hsame.
    + split; rewrite Hnew.
      * rewrite length_app. simpl. lia.
      * rewrite fmap_app. simpl. apply NoDup_app. split; [done|]. split.
        -- intros x Hx ->%list_elem_of_singleton. done.
        -- apply NoDup_singleton.
  - rewrite Hunpin. apply Hfiltered.
  - unfold quick_unpin. destruct confirmed; [|done].
    rewrite Hunpin. apply Hfiltered.
  - done.
  - done.
  - by rewrite Hunpin.
  - by rewrite Hunpin.
  - intros (p & Hq & Hp)%list_elem_of_fmap. subst pinned.
    unfold pinCurrentSearch. fold L.
    assert (Hsome : existsb (fun p => String.eqb (query p) q) (pinnedSearches L)
                    = true).
    { apply existsb_exists. exists p. split; [by apply list_elem_of_In|].
      by apply String.eqb_eq. }
    by rewrite Hsome.
  - intros Hfresh Hfull. subst pinned. unfold pinCurrentSearch. fold L.
    destruct (existsb _ _) eqn:Hex.
    + exfalso. apply Hfresh. apply existsb_exists in Hex as (p & Hp & Heq).
      apply String.eqb_eq in Heq. apply list_elem_of_fmap. exists p.
      split; [done|]. by apply list_elem_of_In.
    + by rewrite Hfull.
  - by rewrite Hunpin.
  - intros Hids. rewrite Hunpin. simpl.
    assert (Hkeep : filter (fun p => pin_id p ≠ now) (pinnedSearches L)
                    = pinnedSearches L).
    { clear -Hids. induction (pinnedSearches L) as [|p l IH]; [done|].
      rewrite filter_cons_True by (apply Hids; by left).
      f_equal. apply IH. intros p' Hp'. apply Hids. by right. }
    destruct Hpins as [->|((a & r & _ & ->) & _)]; [done|].
    rewrite filter_app, Hkeep, filter_cons_False, filter_nil;
      [by rewrite app_nil_r|]. simpl. by intros ?.
Qed.
End Pins.

(** ** Chat ids in addresses *)

Lemma append_cons (a : ascii) (s r : string) :
  (String a s +:+ r)%string = String a (s +:+ r).
Proof. reflexivity. Qed.

Lemma append_nil (r : string) : (EmptyString +:+ r)%string = r.
Proof. reflexivity. Qed.

Lemma alnum_run_app (s rest : string) :
  all_alnum s -> run_ends rest -> Url.alnum_run (s +:+ rest) = s.
Proof.
  intros Hs Hrest. induction s as [|a s IH]; simpl in *.
  - destruct rest as [|b rest]; [done|]. simpl in *. by rewrite Hrest.
  - destruct Hs as [-> Hs]. f_equal. by apply IH.
Qed.

Lemma all_alnum_alnum_run (s : string) : all_alnum (Url.alnum_run s).
Proof.
  induction s as [|a s IH]; simpl; [done|].
  destruct (Url.is_alnum a) eqn:Ha; simpl; [by split|done].
Qed.

Lemma alnum_run_prefix (s : string) :
  exists post, s = (Url.alnum_run s +:+ post)%string /\ run_ends post.
Proof.
  induction s as [|a s (post & IH & Hends)]; simpl; [by exists EmptyString|].
  destruct (Url.is_alnum a) eqn:Ha.
  - exists post. split; [|done].
    change (String a s = String a (Url.alnum_run s +:+ post)). by f_equal.
  - by exists (String a s).
Qed.

Lemma capture_Some (s run : string) :
  Url.capture s = Some run ->
  run <> EmptyString /\ all_alnum run
  /\ exists post, s = (run +:+ post)%string /\ run_ends post.
Proof.
  unfold Url.capture. pose proof (all_alnum_alnum_run s) as Hall.
  pose proof (alnum_run_prefix s) as Hpre.
  destruct (Url.alnum_run s) as [|a r]; [done|]. by intros [= <-].
Qed.

Lemma capture_app (s rest : string) :
  s <> EmptyString -> all_alnum s -> run_ends rest ->
  Url.capture (s +:+ rest) = Some s.
Proof.
  intros Hne Hs Hrest. unfold Url.capture. rewrite alnum_run_app by done.
  by destruct s.
Qed.

Lemma after_prefix_Some (p s r : string) :
  Url.after_prefix p s = Some r -> s = (p +:+ r)%string.
Proof.
  revert s. induction p as [|b p IH]; intros s; simpl.
  - by intros [= ->].
  - destruct s as [|a s]; [done|].
    destruct (Ascii.eqb a b) eqn:Hab; [|done].
    apply Ascii.eqb_eq in Hab as ->. intros Hr. rewrite append_cons.
    f_equal. by apply IH.
Qed.

Lemma after_prefix_app (p r : string) : Url.after_prefix p (p +:+ r) = Some r.
Proof.
  induction p as [|b p IH]; [done|].
  rewrite append_cons. simpl. by rewrite Ascii.eqb_refl.
Qed.

Lemma after_chat_prefix (chatId rest r : string) :
  all_alnum chatId -> run_ends rest ->
  Url.after_prefix "chat/" (chatId +:+ rest) = Some r ->
  chatId = "chat"%string.
Proof.
  intros Hall Hrest Hr%after_prefix_Some.
  destruct chatId as [|a1 [|a2 [|a3 [|a4 [|a5 s]]]]];
    rewrite ?append_cons, ?append_nil in Hr; simpl in *.
  all: try (destruct rest as [|b rest]; [done|]; simpl in Hrest;
            injection Hr as -> _; by vm_compute in Hrest).
  - destruct rest as [|b rest]; [done|]. simpl in Hrest.
    injection Hr as _ -> _. by vm_compute in Hrest.
  - destruct rest as [|b rest]; [done|]. simpl in Hrest.
    injection Hr as _ _ -> _. by vm_compute in Hrest.
  - destruct rest as [|b rest]; [done|]. simpl in Hrest.
    injection Hr as _ _ _ -> _. by vm_compute in Hrest.
  - by injection Hr as -> -> -> -> _.
  - injection Hr as _ _ _ _ -> _. destruct Hall as (_ & _ & _ & _ & Ha5 & _).
    by vm_compute in Ha5.
Qed.

Lemma match_here_chat_url (chatId rest : string) :
  chatId <> EmptyString -> all_alnum chatId -> run_ends rest ->
  chatId <> "chat"%string ->
  Url.match_here ("/app/" +:+ chatId +:+ rest) = Some chatId.
Proof.
  intros Hne Hall Hrest Hchat. unfold Url.match_here.
  rewrite after_prefix_app.
  destruct (Url.after_prefix "chat/" (chatId +:+ rest)) as [r|] eqn:Hr.
  - by apply after_chat_prefix in Hr.
  - by apply capture_app.
Qed.

Lemma extractChatId_skip (a : ascii) (s : string) :
  Url.match_here (String a s) = None ->
  Url.extractChatId (String a s) = Url.extractChatId s.
Proof. intros Hnone. cbn -[Url.match_here]. by rewrite Hnone. Qed.

Lemma extractChatId_here (url run : string) :
  Url.match_here url = Some run -> Url.extractChatId url = Some run.
Proof. intros Hrun. destruct url; cbn -[Url.match_here]; by rewrite Hrun. Qed.

(** X12.  [extractChatId] reads back the id of the address the library
    gives a chat: for a non-empty id of letters and digits, followed by
    nothing or by a character that is neither (the start of a query, of a
    fragment, a slash), the address under [/app/chat/] gives the id back,
    and so does the address under [/app/] unless the id is the word
    [chat].  When no letter or digit follows [/app/chat/], the word
    [chat] is taken for the id. *)
Theorem extractChatId_reads_chat_url (chatId rest : string) :
  chatId <> EmptyString -> all_alnum chatId -> run_ends rest ->
  (chatId <> "chat"%string ->
   Url.extractChatId (Url.chat_url chatId +:+ rest) = Some chatId)
  /\ Url.extractChatId
       ("https://gemini.google.com/app/chat/" +:+ chatId +:+ rest) = Some chatId
  /\ Url.extractChatId ("https://gemini.google.com/app/chat/" +:+ rest)
     = Some "chat"%string.
Proof.
  intros Hne Hall Hrest. split; [|split].
  - intros Hchat. unfold Url.chat_url. rewrite !append_cons, append_nil.
    repeat (rewrite extractChatId_skip by reflexivity).
    apply extractChatId_here. by apply (match_here_chat_url chatId rest).
  - rewrite !append_cons, append_nil.
    repeat (rewrite extractChatId_skip by reflexivity).
    apply extractChatId_here.
    change (Url.match_here ("/app/" +:+ ("chat/" +:+ (chatId +:+ rest)))
            = Some chatId).
    unfold Url.match_here. by rewrite !after_prefix_app, capture_app.
  - rewrite !append_cons, append_nil.
    repeat (rewrite extractChatId_skip by reflexivity).
    apply extractChatId_here.
    change (Url.match_here ("/app/" +:+ ("chat/" +:+ rest)) = Some "chat"%string).
    unfold Url.match_here. rewrite !after_prefix_app.
    assert (Url.capture rest = None) as ->.
    { unfold Url.capture. destruct rest as [|b rest]; [done|].
      simpl in *. by rewrite Hrest. }
    change ("chat/" +:+ rest)%string with ("chat" +:+ ("/" +:+ rest))%string.
    apply capture_app; [done|by vm_compute|by vm_compute].
Qed.

Lemma capture_is_Some (a : ascii) (post : string) :
  Url.is_alnum a = true -> is_Some (Url.capture (String a post)).
Proof. intros Ha. unfold Url.capture. simpl. rewrite Ha. by eexists. Qed.

Lemma match_here_Some (url run : string) :
  Url.match_here url = Some run ->
  run <> EmptyString /\ all_alnum run
  /\ (exists a r, Url.is_alnum a = true /\ url = ("/app/" +:+ String a r)%string)
  /\ exists post, run_ends post
       /\ (url = ("/app/" +:+ run +:+ post)%string
           \/ url = ("/app/chat/" +:+ run +:+ post)%string).
Proof.
  unfold Url.match_here.
  destruct (Url.after_prefix "/app/" url) as [r|] eqn:Hr; [|done].
  apply after_prefix_Some in Hr as ->.
  assert (Hplain : Url.capture r = Some run ->
            run <> EmptyString /\ all_alnum run
            /\ (exists a r0, Url.is_alnum a = true
                   /\ ("/app/" +:+ r)%string = ("/app/" +:+ String a r0)%string)
            /\ exists post, run_ends post
                 /\ (("/app/" +:+ r)%string = ("/app/" +:+ run +:+ post)%string
                     \/ ("/app/" +:+ r)%string
                        = ("/app/chat/" +:+ run +:+ post)%string)).
  { intros (Hne & Hall & post & -> & Hends)%capture_Some.
    split; [done|]. split; [done|]. split; [|by exists post; split; [|left]].
    destruct run as [|a run]; [done|]. destruct Hall as [Ha _].
    exists a, (run +:+ post)%string. by rewrite append_cons. }
  destruct (Url.after_prefix "chat/" r) as [r'|] eqn:Hr'; [|exact Hplain].
  destruct (Url.capture r') as [run'|] eqn:Hrun'; [|exact Hplain].
  intros [= ->]. apply after_prefix_Some in Hr' as ->.
  apply capture_Some in Hrun' as (Hne & Hall & post & -> & Hends).
  split; [done|]. split; [done|]. split.
  - exists "c"%char, ("hat/" +:+ run +:+ post)%string. by split.
  - exists post. split; [done|]. by right.
Qed.

Lemma match_here_is_Some (a : ascii) (r : string) :
  Url.is_alnum a = true -> is_Some (Url.match_here ("/app/" +:+ String a r)).
Proof.
  intros Ha. unfold Url.match_here. rewrite after_prefix_app.
  destruct (Url.after_prefix "chat/" (String a r)) as [r'|];
    [destruct (Url.capture r'); [by eexists|]|]; by apply capture_is_Some.
Qed.

(** X13.  What [extractChatId] finds: an address has a chat id exactly
    when [/app/] occurs in it followed by a letter or a digit.  The id
    returned is never empty, consists of letters and digits only, and is
    the whole run of them that follows [/app/] or [/app/chat/] at some
    place of the address. *)
Theorem extractChatId_finds_app_segment (url : string) :
  (is_Some (Url.extractChatId url) <->
   exists pre a post,
     Url.is_alnum a = true
     /\ url = (pre +:+ "/app/" +:+ String a post)%string)
  /\ (forall chatId, Url.extractChatId url = Some chatId ->
        chatId <> EmptyString /\ all_alnum chatId
        /\ exists pre post,
             run_ends post
             /\ (url = (pre +:+ "/app/" +:+ chatId +:+ post)%string
                 \/ url = (pre +:+ "/app/chat/" +:+ chatId +:+ post)%string)).
Proof.
  split; [split|].
  - induction url as [|b url IH]; [by intros [? [=]]|].
    destruct (Url.match_here (String b url)) as [run|] eqn:Hrun.
    + intros _. apply match_here_Some in Hrun as (_ & _ & (a & r & Ha & ->) & _).
      by exists EmptyString, a, r.
    + rewrite extractChatId_skip by done.
      intros (pre & a & post & Ha & ->)%IH.
      exists (String b pre), a, post. by rewrite append_cons.
  - intros (pre & a & post & Ha & ->).
    induction pre as [|b pre IH].
    + rewrite append_nil.
      destruct (match_here_is_Some a post Ha) as [run Hrun].
      rewrite (extractChatId_here _ _ Hrun). by eexists.
    + rewrite append_cons.
      destruct (Url.match_here (String b (pre +:+ "/app/" +:+ String a post)))
        as [run|] eqn:Hrun.
      * rewrite (extractChatId_here _ _ Hrun). by eexists.
      * by rewrite extractChatId_skip.
  - induction url as [|b url IH]; [done|]. intros chatId.
    destruct (Url.match_here (String b url)) as [run|] eqn:Hrun.
    + rewrite (extractChatId_here _ _ Hrun). intros [= <-].
      apply match_here_Some in Hrun as (Hne & Hall & _ & post & Hends & Hurl).
      split; [done|]. split; [done|]. exists EmptyString, post.
      by rewrite !append_nil.
    + rewrite extractChatId_skip by done.
      intros (Hne & Hall & pre & post & Hends & Hurl)%IH.
      split; [done|]. split; [done|]. exists (String b pre), post.
      rewrite !append_cons. split; [done|].
      destruct Hurl as [->| ->]; [by left|by right].
Qed.

(** ** Cells of the CSV export *)

Lemma double_quotes_inj (s s' : string) :
  Csv.double_quotes s = Csv.double_quotes s' -> s = s'.
Proof.
  revert s'. induction s as [|a r IH]; intros [|a' r']; simpl.
  - done.
  - by destruct (JS.code a' =? 34).
  - by destruct (JS.code a =? 34).
  - destruct (JS.code a =? 34) eqn:Ha, (JS.code a' =? 34) eqn:Ha'.
    + intros [= -> Heq]. f_equal. by apply IH.
    + intros [= -> Heq]. destruct r' as [|b r'']; simpl in Heq; [done|].
      destruct (JS.code b =? 34) eqn:Hb; injection Heq as -> _; congruence.
    + intros [= -> Heq]. destruct r as [|b r'']; simpl in Heq; [done|].
      destruct (JS.code b =? 34) eqn:Hb; injection Heq as <- _; congruence.
    + intros [= -> Heq]. f_equal. by apply IH.
Qed.

Lemma length_append (s t : string) :
  String.length (s +:+ t) = (String.length s + String.length t)%nat.
Proof.
  induction s as [|a s IH]; [done|]. rewrite append_cons. simpl. by rewrite IH.
Qed.

Lemma append_inj_r (s s' t : string) :
  (s +:+ t)%string = (s' +:+ t)%string -> s = s'.
Proof.
  intros Heq.
  assert (Hlen : String.length s = String.length s').
  { apply (f_equal String.length) in Heq.
    rewrite !length_append in Heq. lia. }
  revert s' Heq Hlen. induction s as [|a s IH]; intros [|a' s'] Heq Hlen;
    try done.
  rewrite !append_cons in Heq. injection Heq as -> Heq.
  f_equal. apply IH; [done|]. simpl in Hlen. lia.
Qed.

Lemma has_special_head (a : ascii) (r : string) :
  JS.code a = 34 -> Csv.has_special (String a r) = true.
Proof. intros Ha. simpl. by rewrite Ha. Qed.

(** X14.  [escapeCsv] keeps different cell texts apart: two different
    strings never give the same field.  A text without quote, comma and
    line feed is its own field; any other text is wrapped in quotes with
    its quotes doubled. *)
Theorem escapeCsv_keeps_cells_apart (s s' : string) :
  s <> s' ->
  Csv.escapeCsv s <> Csv.escapeCsv s'
  /\ (Csv.has_special s = false -> Csv.escapeCsv s = s)
  /\ (Csv.has_special s = true ->
      Csv.escapeCsv s
      = String (JS.chr 34) (Csv.double_quotes s +:+ String (JS.chr 34) EmptyString)).
Proof.
  assert (Hspecial : forall x, Csv.has_special (Csv.double_quotes x)
                               = Csv.has_special x).
  { induction x as [|a r IH]; simpl; [done|].
    destruct (JS.code a =? 34) eqn:Ha; simpl; rewrite ?Ha, IH; by simpl. }
  assert (Hplain : forall x, Csv.has_special x = false -> Csv.double_quotes x = x).
  { induction x as [|a r IH]; simpl; [done|].
    destruct (JS.code a =? 34); [done|]. simpl.
    intros [_ Hr]%orb_false_iff. by rewrite IH. }
  assert (Hshape : forall x,
            Csv.escapeCsv x
            = if Csv.has_special x
              then String (JS.chr 34)
                     (Csv.double_quotes x +:+ String (JS.chr 34) EmptyString)
              else x).
  { intros x. unfold Csv.escapeCsv. rewrite Hspecial.
    destruct x as [|a r]; [done|].
    destruct (Csv.has_special (String a r)) eqn:Hx; [done|]. by apply Hplain. }
  intros Hne. split; [|split; intros Hs; by rewrite Hshape, Hs].
  rewrite !Hshape.
  destruct (Csv.has_special s) eqn:Hs, (Csv.has_special s') eqn:Hs'.
  - intros [= Heq%append_inj_r%double_quotes_inj]. done.
  - intros <-. by rewrite has_special_head in Hs'.
  - intros ->. by rewrite has_special_head in Hs.
  - done.
Qed.

(** ** Search *)

Lemma lower_char_facts (a : ascii) :
  JS.is_space (JS.lower_char a) = JS.is_space a
  /\ Query.is_quote (JS.lower_char a) = Query.is_quote a
  /\ Query.is_minus (JS.lower_char a) = Query.is_minus a
  /\ JS.lower_char (JS.lower_char a) = JS.lower_char a.
Proof.
  destruct a as [[|] [|] [|] [|] [|] [|] [|] [|]]; by vm_compute.
Qed.

Lemma toLowerCase_idemp (s : string) :
  JS.toLowerCase (JS.toLowerCase s) = JS.toLowerCase s.
Proof.
  induction s as [|a s IH]; simpl; [done|].
  by rewrite IH, (proj2 (proj2 (proj2 (lower_char_facts a)))).
Qed.

Lemma length_toLowerCase (s : string) :
  String.length (JS.toLowerCase s) = String.length s.
Proof. induction s as [|a s IH]; simpl; [done|by rewrite IH]. Qed.

Lemma span_toLowerCase (p : ascii -> bool) (s : string) :
  (forall a, p (JS.lower_char a) = p a) ->
  Query.span p (JS.toLowerCase s)
  = (JS.toLowerCase (Query.span p s).1, JS.toLowerCase (Query.span p s).2).
Proof.
  intros Hp. induction s as [|a s IH]; simpl; [done|].
  rewrite Hp. destruct (p a); [|done].
  rewrite IH. by destruct (Query.span p s).
Qed.

Lemma body_toLowerCase (m s : string) :
  Query.body m (JS.toLowerCase s) = lower_match <$> Query.body m s.
Proof.
  assert (Hword : forall s0,
    match Query.span (fun a => negb (JS.is_space a)) (JS.toLowerCase s0) with
    | (EmptyString, _) => None
    | (w, rest) => Some (Query.mkMatch m None (Some w) rest)
    end
    = lower_match <$>
      match Query.span (fun a => negb (JS.is_space a)) s0 with
      | (EmptyString, _) => None
      | (w, rest) => Some (Query.mkMatch m None (Some w) rest)
      end).
  { intros s0. rewrite span_toLowerCase
      by (intros a; by rewrite (proj1 (lower_char_facts a))).
    by destruct (Query.span _ s0) as [[|b w] rest]. }
  unfold Query.body. destruct s as [|q r]; [done|].
  rewrite Hword. cbn [JS.toLowerCase].
  rewrite (proj1 (proj2 (lower_char_facts q))).
  destruct (Query.is_quote q); [|done].
  rewrite span_toLowerCase
    by (intros a; by rewrite (proj1 (proj2 (lower_char_facts a)))).
  by destruct (Query.span _ r) as [[|b phrase] [|c rest]].
Qed.

Lemma match_at_toLowerCase (s : string) :
  Query.match_at (JS.toLowerCase s) = lower_match <$> Query.match_at s.
Proof.
  destruct s as [|a r]; [done|].
  unfold Query.match_at. cbn [JS.toLowerCase].
  rewrite (proj1 (proj2 (proj2 (lower_char_facts a)))).
  change (String (JS.lower_char a) (JS.toLowerCase r))
    with (JS.toLowerCase (String a r)).
  rewrite !body_toLowerCase.
  destruct (Query.is_minus a) eqn:Ha; [|done].
  assert (JS.lower_char a = a) as ->.
  { revert Ha. destruct a as [[|] [|] [|] [|] [|] [|] [|] [|]]; by vm_compute. }
  by destruct (Query.body _ r).
Qed.

Lemma token_of_lower_match (m : Query.Match) :
  Query.token_of (lower_match m) = Query.token_of m.
Proof.
  unfold Query.token_of, lower_match. simpl.
  destruct (Query.quoted m) as [[|a r]|], (Query.word m) as [[|b w]|]; simpl;
    try done; by rewrite ?toLowerCase_idemp,
                         ?(proj2 (proj2 (proj2 (lower_char_facts _)))).
Qed.

Lemma exec_loop_toLowerCase (fuel : nat) (s : string) :
  Query.exec_loop fuel (JS.toLowerCase s) = Query.exec_loop fuel s.
Proof.
  revert s. induction fuel as [|k IH]; intros s; [done|].
  destruct s as [|a next]; [done|].
  cbn [Query.exec_loop].
  change (JS.toLowerCase (String a next))
    with (String (JS.lower_char a) (JS.toLowerCase next)).
  cbn iota.
  change (String (JS.lower_char a) (JS.toLowerCase next))
    with (JS.toLowerCase (String a next)).
  rewrite match_at_toLowerCase.
  destruct (Query.match_at (String a next)) as [m|]; simpl; [|apply IH].
  rewrite token_of_lower_match.
  destruct (Query.token_of m); by rewrite IH.
Qed.

Lemma chr_code (a : ascii) : JS.chr (JS.code a) = a.
Proof. unfold JS.chr, JS.code. by rewrite N2Z.id, ascii_N_embedding. Qed.

Lemma lower_char_same_letter (a b : ascii) :
  same_letter a b -> JS.lower_char a = JS.lower_char b.
Proof.
  assert (Hup : forall x y,
    is_upper x = true -> JS.code y = JS.code x + 32 ->
    JS.lower_char x = JS.lower_char y).
  { intros x y Hx Hy. rewrite <- (chr_code y), Hy. clear Hy. revert Hx.
    destruct x as [[|] [|] [|] [|] [|] [|] [|] [|]]; by vm_compute. }
  intros [->|[[Ha Hb]|[Hb Ha]]]; [done|by apply Hup|symmetry; by apply Hup].
Qed.

Lemma toLowerCase_same_text (s t : string) :
  same_text s t -> JS.toLowerCase s = JS.toLowerCase t.
Proof.
  revert t. induction s as [|a s IH]; intros [|b t]; simpl; try done.
  intros [Hab Hst]. by rewrite (lower_char_same_letter a b Hab), (IH t Hst).
Qed.

Lemma toLowerCase_same_tags (l l' : list string) :
  Forall2 same_text l l' -> map JS.toLowerCase l = map JS.toLowerCase l'.
Proof.
  induction 1 as [|s t l l' Hst _ IH]; simpl; [done|].
  by rewrite (toLowerCase_same_text s t Hst), IH.
Qed.

(** X15.  The search ignores case on both sides.  Two queries that differ
    at most in the case of their letters, a capital and its small letter
    being 32 code units apart, give the same tokens; two chats whose
    titles, notes and tags differ at most in case match the same lists of
    tokens.  In particular a query and its lower case give the same
    tokens, and a chat matches exactly when the chat in lower case
    does. *)
Theorem search_ignores_case (q q' : string) (chat chat' : ChatEntry)
    (tokens : list Token) :
  same_text q q' -> same_chat chat chat' ->
  Query.tokenize q = Query.tokenize q'
  /\ isMatch chat tokens = isMatch chat' tokens
  /\ Query.tokenize (JS.toLowerCase q) = Query.tokenize q
  /\ isMatch (lower_chat chat) tokens = isMatch chat tokens.
Proof.
  intros Hq (Htitle & Hnote & Htags). split; [|split; [|split]].
  - unfold Query.tokenize.
    rewrite <- (exec_loop_toLowerCase _ q), <- (exec_loop_toLowerCase _ q').
    rewrite <- (length_toLowerCase q), <- (length_toLowerCase q').
    by rewrite (toLowerCase_same_text q q' Hq).
  - unfold isMatch.
    by rewrite (toLowerCase_same_text _ _ Htitle),
      (toLowerCase_same_text _ _ Hnote), (toLowerCase_same_tags _ _ Htags).
  - unfold Query.tokenize. by rewrite length_toLowerCase, exec_loop_toLowerCase.
  - unfold isMatch, lower_chat. simpl. rewrite !toLowerCase_idemp.
    rewrite map_map.
    by rewrite (map_ext _ JS.toLowerCase toLowerCase_idemp).
Qed.

(** ** Tags in use *)

Lemma Set_add_spec (acc : list string) (x y : string) :
  y ∈ Set_add acc x <-> y ∈ acc \/ y = x.
Proof.
  unfold Set_add. destruct (bool_decide (x ∈ acc)) eqn:Hx.
  - apply bool_decide_eq_true in Hx. split; [by left|]. by intros [?| ->].
  - rewrite elem_of_app, list_elem_of_singleton. tauto.
Qed.

Lemma Set_add_NoDup (acc : list string) (x : string) :
  NoDup acc -> NoDup (Set_add acc x).
Proof.
  intros Hacc. unfold Set_add. destruct (bool_decide (x ∈ acc)) eqn:Hx; [done|].
  apply bool_decide_eq_false in Hx. apply NoDup_app. split; [done|].
  split; [|apply NoDup_singleton].
  by intros y Hy ->%list_elem_of_singleton.
Qed.

Lemma tags_fold_spec (ts : list string) (acc : list string) :
  let out := fold_left (fun acc t => Set_add acc (standardized t)) ts acc in
  (NoDup acc -> NoDup out)
  /\ forall y, y ∈ out <-> y ∈ acc \/ exists u, u ∈ ts /\ y = standardized u.
Proof.
  revert acc. induction ts as [|t ts IH]; intros acc; simpl.
  - split; [done|]. intros y. split; [by left|].
    by intros [?|(u & ?%elem_of_nil & _)].
  - destruct (IH (Set_add acc (standardized t))) as [Hnd Hin]. split.
    + intros Hacc. by apply Hnd, Set_add_NoDup.
    + intros y. rewrite Hin, Set_add_spec. split.
      * intros [[?| ->]|(u & Hu & ->)]; [by left| |].
        -- right. exists t. split; [by left|done].
        -- right. exists u. split; [by right|done].
      * intros [?|(u & [->|Hu]%elem_of_cons & ->)]; [by left; left| |].
        -- by left; right.
        -- right. by exists u.
Qed.

Lemma chats_fold_spec (chats : list ChatEntry) (acc : list string) :
  let out :=
    fold_left
      (fun acc chat =>
         fold_left (fun acc t => Set_add acc (standardized t)) (tags chat) acc)
      chats acc in
  (NoDup acc -> NoDup out)
  /\ forall y, y ∈ out <->
       y ∈ acc \/ exists chat u, chat ∈ chats /\ u ∈ tags chat /\ y = standardized u.
Proof.
  revert acc. induction chats as [|chat chats IH]; intros acc; simpl.
  - split; [done|]. intros y. split; [by left|].
    by intros [?|(chat & u & ?%elem_of_nil & _)].
  - destruct (tags_fold_spec (tags chat) acc) as [Hnd1 Hin1].
    destruct (IH (fold_left (fun acc t => Set_add acc (standardized t))
                    (tags chat) acc)) as [Hnd Hin].
    split; [by intros ?; apply Hnd, Hnd1|].
    intros y. rewrite Hin, Hin1. split.
    + intros [[?|(u & Hu & ->)]|(c & u & Hc & Hu & ->)]; [by left| |].
      * right. exists chat, u. split; [by left|done].
      * right. exists c, u. split; [by right|done].
    + intros [?|(c & u & [->|Hc]%elem_of_cons & Hu & ->)]; [by left; left| |].
      * left; right. by exists u.
      * right. by exists c, u.
Qed.

Lemma elem_of_getAllUniqueTags (L : Library) (y : string) :
  y ∈ getAllUniqueTags L <->
  exists c chat u, allChats L !! c = Some chat /\ u ∈ tags chat
                   /\ y = String (JS.chr 35) (JS.strip_hashes u).
Proof.
  unfold getAllUniqueTags.
  destruct (chats_fold_spec (Object_values (allChats L)) []) as [_ Hin].
  rewrite merge_sort_Permutation, Hin. split.
  - intros [?%elem_of_nil|(chat & u & Hc & Hu & ->)]; [done|].
    unfold Object_values in Hc.
    apply list_elem_of_fmap in Hc as ([c chat'] & -> & Hc).
    apply elem_of_map_to_list in Hc. by exists c, chat', u.
  - intros (c & chat & u & Hc & Hu & ->). right. exists chat, u.
    split; [|done]. unfold Object_values. apply list_elem_of_fmap.
    exists (c, chat). split; [done|]. by apply elem_of_map_to_list.
Qed.

(** X16.  [getAllUniqueTags] lists exactly the tags in use, each once and
    in the order of the default sort: a text is in the list exactly when
    it is the marker followed by some tag of some chat without its leading
    markers; the list has no repetition and is sorted by code units. *)
Theorem getAllUniqueTags_sorted_unique (L : Library) :
  Sorted code_unit_le (getAllUniqueTags L)
  /\ NoDup (getAllUniqueTags L)
  /\ forall y, y ∈ getAllUniqueTags L <->
       exists c chat u, allChats L !! c = Some chat /\ u ∈ tags chat
                        /\ y = String (JS.chr 35) (JS.strip_hashes u).
Proof.
  split; [|split]; [unfold getAllUniqueTags..|].
  - apply Sorted_merge_sort. intros x y. apply String.leb_total.
  - rewrite merge_sort_Permutation.
    apply (chats_fold_spec (Object_values (allChats L)) []), NoDup_nil_2.
  - intros y. apply elem_of_getAllUniqueTags.
Qed.

(** ** Importing a chat by its address *)

Section LinkImport.
Context `{Host}.

(** X17.  [addChatByUrl] with the address of a chat, a folder that is
    found and does not hold the chat yet, and a name that is not
    cancelled.  When the chat has an entry, or its id is not the name of a
    member that [allChats] inherits, the chat is appended to that folder
    under the id the address carries and gets an entry in [allChats]: a
    chat the library knows keeps its title, whatever name was typed, and
    its creation time; a new chat gets the typed name, or [Untitled] for
    an empty one; no other entry changes.  For an id without entry that
    names an inherited member, such as [constructor] or [toString], the
    call throws and nothing is linked.  When the folder holds the chat
    already, nothing changes at all. *)
Theorem addChatByUrl_links_the_chat (nc nu : Z) (folderId : IdArg)
    (chatId typed : string) (tagAnswer noteAnswer : option string) (w : World)
    (context : Context) :
  let L := folderData w in
  let out := addChatByUrl nc nu folderId (Some (Url.chat_url chatId))
               (Some typed) tagAnswer noteAnswer w in
  let L' := folderData out.2 in
  chatId <> EmptyString -> all_alnum chatId -> chatId <> "chat"%string ->
  getFolderContext folderId (folders L) = Some context ->
  (chatId ∈ chatIds (folder context) ->
   out = (Some chat_already_in_folder, w))
  /\ (chatId ∉ chatIds (folder context) ->
      allChats L !! chatId = None -> chatId ∈ Object_prototype_keys ->
      out = (Some uncaught_TypeError, w))
  /\ (chatId ∉ chatIds (folder context) ->
      is_Some (allChats L !! chatId) \/ chatId ∉ Object_prototype_keys ->
      out.1 = None
      /\ chatIds <$> folder_at (trail context) (index context) (folders L')
         = Some (chatIds (folder context) ++ [chatId])
      /\ (exists entry,
            allChats L' !! chatId = Some entry
            /\ id entry = chatId
            /\ updatedAt entry = Some nu
            /\ match allChats L !! chatId with
               | Some existing =>
                   title entry
                   = (if String.eqb (title existing) EmptyString
                      then "Untitled"%string else title existing)
                   /\ timestamp entry
                      = (if timestamp existing =? 0 then nc else timestamp existing)
               | None =>
                   title entry
                   = (if String.eqb typed EmptyString
                      then "Untitled"%string else typed)
                   /\ timestamp entry = nc
               end)
      /\ forall c, c <> chatId -> allChats L' !! c = allChats L !! c).
Proof.
  intros L out L' Hne Hall Hchat Hctx.
  assert (Hid : Url.extractChatId (Url.chat_url chatId) = Some chatId).
  { unfold Url.chat_url. rewrite !append_cons, append_nil.
    repeat (rewrite extractChatId_skip by reflexivity).
    apply extractChatId_here.
    replace chatId with (chatId +:+ EmptyString)%string at 1
      by (clear; induction chatId as [|a s IH];
          [done|by rewrite append_cons, IH]).
    by apply (match_here_chat_url chatId EmptyString). }
  set (tgs := match tagAnswer with
              | Some (String b s) => map JS.trim (JS.split_comma (String b s))
              | _ => []
              end).
  set (saved := fun chatName : string =>
         (saveChatToFolder nc nu folderId chatId
            (match chatName with
             | EmptyString => "Untitled"%string
             | _ => chatName
             end)
            tgs (default EmptyString noteAnswer) w).2).
  assert (Hout : out
    = if JS.array_includes (chatIds (folder context)) chatId
      then (Some chat_already_in_folder, w)
      else match Object_get (allChats L) chatId with
           | own entry => (None, saved (title entry))
           | inherited _ => (Some uncaught_TypeError, w)
           | undefined => (None, saved typed)
           end).
  { subst out. unfold addChatByUrl.
    change (Url.chat_url chatId)
      with (String "h" ("ttps://gemini.google.com/app/" +:+ chatId)) at 1.
    cbv iota.
    change (String "h" ("ttps://gemini.google.com/app/" +:+ chatId))
      with (Url.chat_url chatId).
    rewrite Hid. cbv zeta. fold L. rewrite Hctx.
    destruct (JS.array_includes _ _); [done|].
    by destruct (Object_get (allChats L) chatId). }
  split; [|split].
  - intros Hin%array_includes_true. by rewrite Hout, Hin.
  - intros Hin%array_includes_false Hnone Hproto. rewrite Hout, Hin.
    unfold Object_get. by rewrite Hnone, bool_decide_eq_true_2.
  - intros Hin%array_includes_false Hcond.
    assert (Hget : Object_get (allChats L) chatId
                   = match allChats L !! chatId with
                     | Some entry => own entry
                     | None => undefined
                     end).
    { unfold Object_get. destruct (allChats L !! chatId) as [e|] eqn:He; [done|].
      destruct Hcond as [[e [=]]|Hnot]. by rewrite bool_decide_eq_false_2. }
    assert (Hsaved : forall chatName,
      let L1 := folderData (saved chatName) in
      chatIds <$> folder_at (trail context) (index context) (folders L1)
      = Some (chatIds (folder context) ++ [chatId])
      /\ (exists entry,
            allChats L1 !! chatId = Some entry
            /\ id entry = chatId
            /\ updatedAt entry = Some nu
            /\ title entry
               = (if String.eqb chatName EmptyString
                  then "Untitled"%string else chatName)
            /\ timestamp entry
               = match allChats L !! chatId with
                 | Some existing =>
                     if timestamp existing =? 0 then nc else timestamp existing
                 | None => nc
                 end)
      /\ forall c, c <> chatId -> allChats L1 !! c = allChats L !! c).
    { intros chatName L1. subst L1 saved. cbv beta.
      unfold saveChatToFolder. fold L. rewrite Hctx, Hin. cbn [negb snd].
      rewrite folderData_saveAndRefresh. cbn [folderData with_folderData].
      split; [|split].
      - cbn [folders set_folders set_allChats]. unfold update_folder.
        rewrite (chatIds_after_update (fun ids => ids ++ [chatId])),
          decide_True by done.
        by rewrite (folder_at_located _ _ _ Hctx).
      - cbn [allChats set_folders set_allChats]. rewrite lookup_insert_eq.
        eexists. split; [done|]. cbn. split; [done|]. split; [done|].
        split; [by destruct chatName|].
        by destruct (allChats L !! chatId).
      - intros c Hc. cbn [allChats set_folders set_allChats].
        by rewrite lookup_insert_ne. }
    subst L'. rewrite Hout, Hin, Hget.
    destruct (allChats L !! chatId) as [existing|] eqn:Hex; cbn [fst snd].
    + destruct (Hsaved (title existing))
        as (H1 & (entry & H2 & H3 & H4 & H5 & H6) & H7).
      split; [done|]. split; [exact H1|]. split; [|exact H7].
      by exists entry.
    + destruct (Hsaved typed) as (H1 & (entry & H2 & H3 & H4 & H5 & H6) & H7).
      split; [done|]. split; [exact H1|]. split; [|exact H7].
      by exists entry.
Qed.
End LinkImport.

(** ** Editing a chat *)

Lemma standardized_fixed (a : ascii) (body : string) :
  (JS.code a =? 35) = false ->
  standardized (String (JS.chr 35) (String a body))
  = String (JS.chr 35) (String a body).
Proof. intros Ha. unfold standardized. simpl. by rewrite Ha. Qed.

Section Editors.
Context `{Host}.

(** X18.  The three chat editors change one entry and nothing else.  For a
    chat the library knows and an answer that is not cancelled, the folder
    tree and every other entry are as before, so no chat becomes linked or
    unlinked; the entry keeps its id, its creation time and the fields not
    edited, and [updatedAt] is the time of the edit.  [renameChat] stores
    the trimmed name and refuses a blank one; [editChatAnnotation] stores
    the trimmed note; [editChatTags] stores tags that are one marker
    followed by a non-empty body that does not start with a marker, and
    [getAllUniqueTags] then lists each of them as it is stored. *)
Theorem chat_editors_touch_one_entry (now : Z) (chatId answer : string)
    (w : World) (chat : ChatEntry) :
  let L := folderData w in
  let changed (L' : Library) (entry : ChatEntry) :=
    folders L' = folders L
    /\ allChats L' = <[ chatId := entry ]> (allChats L)
    /\ (forall c, c ∈ findUnlinked L' <-> c ∈ findUnlinked L) in
  allChats L !! chatId = Some chat ->
  (JS.trim answer <> EmptyString ->
   changed (folderData (renameChat now chatId (Some answer) w))
     (mkChatEntry (id chat) (JS.trim answer) (tags chat) (annotation chat)
        (timestamp chat) (Some now)))
  /\ (JS.trim answer = EmptyString -> renameChat now chatId (Some answer) w = w)
  /\ changed (folderData (editChatAnnotation now chatId (Some answer) w))
       (mkChatEntry (id chat) (title chat) (tags chat) (JS.trim answer)
          (timestamp chat) (Some now))
  /\ (let L' := folderData (editChatTags now chatId (Some answer) w) in
      changed L'
        (mkChatEntry (id chat) (title chat) (edited_tags answer)
           (annotation chat) (timestamp chat) (Some now))
      /\ forall t, t ∈ edited_tags answer ->
           t ∈ getAllUniqueTags L'
           /\ exists a body, t = String (JS.chr 35) (String a body)
                             /\ (JS.code a =? 35) = false).
Proof.
  intros L changed Hchat.
  assert (Hchanged : forall entry,
            changed (set_allChats L (<[ chatId := entry ]> (allChats L))) entry).
  { intros entry. split; [done|]. split; [done|].
    intros c. rewrite !elem_of_findUnlinked. simpl.
    destruct (decide (c = chatId)) as [->|Hne].
    - rewrite lookup_insert_eq, Hchat. split; intros [_ ?]; by split.
    - by rewrite lookup_insert_ne. }
  split; [|split; [|split; [|split]]].
  - intros Hname. unfold renameChat. fold L. rewrite Hchat.
    apply String.eqb_neq in Hname. rewrite Hname. cbn [negb].
    rewrite folderData_refresh_after_edit, folderData_saveAndRefresh.
    apply Hchanged.
  - intros Hname. unfold renameChat. fold L. rewrite Hchat.
    apply String.eqb_eq in Hname. by rewrite Hname.
  - unfold editChatAnnotation. fold L. rewrite Hchat.
    rewrite folderData_refresh_after_edit, folderData_saveAndRefresh.
    apply Hchanged.
  - unfold editChatTags. fold L. rewrite Hchat.
    rewrite folderData_refresh_after_edit, folderData_saveAndRefresh.
    apply Hchanged.
  - intros t Ht.
    destruct (edited_tags_shape answer t Ht) as (a & body & -> & Ha).
    split; [|by exists a, body].
    apply elem_of_getAllUniqueTags.
    unfold editChatTags. fold L. rewrite Hchat.
    rewrite folderData_refresh_after_edit, folderData_saveAndRefresh.
    eexists chatId, _, _. split; [apply lookup_insert_eq|]. split; [exact Ht|].
    simpl. by rewrite Ha.
Qed.
End Editors.

(** ** The two collectors of references *)

Lemma elem_of_findAll (c : string) (g : Folder) (l : list Folder) :
  g ∈ flat_map (findAll_traverse c) l <-> in_tree g l /\ c ∈ chatIds g.
Proof.
  revert l.
  apply (forest_induction
    (fun f => g ∈ flat_map (findAll_traverse c) (subfolders f) <->
              in_tree g (subfolders f) /\ c ∈ chatIds g)
    (fun l => g ∈ flat_map (findAll_traverse c) l <->
              in_tree g l /\ c ∈ chatIds g)).
  - simpl. split; [by intros ?%elem_of_nil|by intros [?%in_tree_nil _]].
  - intros f rest IHf IHrest.
    assert (Hunfold : findAll_traverse c f
      = (if JS.array_includes (chatIds f) c then [f] else [])
        ++ flat_map (findAll_traverse c) (subfolders f)) by (by destruct f).
    cbn [flat_map]. rewrite Hunfold, !elem_of_app, IHf, IHrest, in_tree_cons.
    destruct (JS.array_includes (chatIds f) c) eqn:Hinc.
    + apply array_includes_true in Hinc. rewrite list_elem_of_singleton.
      split; [|tauto]. intros [[->|?]|?]; tauto.
    + apply array_includes_false in Hinc. rewrite elem_of_nil.
      split; [tauto|]. intros [[->|[?|?]] ?]; tauto.
  - intros f IH. exact IH.
Qed.

(** X19.  [findAllFoldersForChat] returns exactly the folders of the tree,
    at any depth, whose [chatIds] hold the chat, and it agrees with
    [findUnlinked]: a chat id is reported unlinked exactly when it is a
    key of [allChats] and [findAllFoldersForChat] finds no folder for
    it. *)
Theorem findAllFoldersForChat_agrees_with_findUnlinked (L : Library) (c : string) :
  (forall g, g ∈ findAllFoldersForChat c L <->
             in_tree g (folders L) /\ c ∈ chatIds g)
  /\ (findAllFoldersForChat c L = [] <-> ~ referenced L c)
  /\ (c ∈ findUnlinked L <->
      is_Some (allChats L !! c) /\ findAllFoldersForChat c L = []).
Proof.
  assert (Hnil : findAllFoldersForChat c L = [] <-> ~ referenced L c).
  { unfold findAllFoldersForChat, referenced. rewrite findAll_nil. split.
    - intros Hno (f & Hf & Hin). by apply (Hno f Hf).
    - intros Hno f Hf Hin. apply Hno. by exists f. }
  split; [|split; [exact Hnil|]].
  - intros g. apply elem_of_findAll.
  - by rewrite elem_of_findUnlinked, Hnil, referenced_somewhere.
Qed.

(** ** Every write passes the gatekeeper *)

Section Quota.
Context `{Host}.

Lemma sync_set_calls_refreshFolderList (w : World) :
  sync_set_calls (refreshFolderList w) = sync_set_calls w.
Proof. unfold refreshFolderList. by destruct (sidebar w). Qed.

Lemma sync_set_calls_refresh_after_edit (w : World) :
  sync_set_calls (refresh_after_edit w) = sync_set_calls w.
Proof.
  unfold refresh_after_edit. destruct (search_input w); [|done].
  destruct (negb _); [|done]. apply sync_set_calls_refreshFolderList.
Qed.

Lemma within_quota_saveAndRefresh (w : World) (L : Library) :
  within_quota w -> within_quota (saveAndRefresh (with_folderData w L)).
Proof.
  intros Hw L0. unfold saveAndRefresh.
  set (w1 := refreshFolderList (with_folderData w L)).
  assert (Hcalls : sync_set_calls w1 = sync_set_calls w)
    by (subst w1; by rewrite sync_set_calls_refreshFolderList).
  destruct (runtime_id w1); [|rewrite Hcalls; apply Hw].
  destruct (_ >? _) eqn:Hgate; [simpl; rewrite Hcalls; apply Hw|].
  assert (Hfits : Blob_size (JSON_stringify (folderData w1))
                  <= QUOTA_LIMIT - SAFETY_BUFFER) by lia.
  assert (Hcons : L0 ∈ folderData w1 :: sync_set_calls w1 ->
            Blob_size (JSON_stringify L0) <= QUOTA_LIMIT - SAFETY_BUFFER).
  { intros [->|Hold]%elem_of_cons; [done|]. rewrite Hcalls in Hold. by apply Hw. }
  by destruct (set_outcome w1).
Qed.

Lemma within_quota_refresh_after_edit (w : World) :
  within_quota w -> within_quota (refresh_after_edit w).
Proof. intros Hw L0. rewrite sync_set_calls_refresh_after_edit. apply Hw. Qed.

Lemma within_quota_with_folderData (w : World) (L : Library) :
  within_quota w -> within_quota (with_folderData w L).
Proof. done. Qed.

Lemma within_quota_saveChatToFolder (nc nu : Z) (folderId : IdArg)
    (chatId chatTitle : string) (tgs : list string) (note : string) (w : World) :
  within_quota w ->
  within_quota (saveChatToFolder nc nu folderId chatId chatTitle tgs note w).2.
Proof.
  intros Hw. unfold saveChatToFolder. destruct (getFolderContext _ _); [|done].
  destruct (negb _); simpl; [by apply within_quota_saveAndRefresh|done].
Qed.

(** X20.  Every write to the storage passes the quota gatekeeper, whatever
    the user does: when each library handed to [chrome.storage.sync.set]
    so far serializes to at most the quota less the safety buffer, the
    same holds after any operation of the library, with any arguments and
    any answers to its prompts. *)
Theorem every_write_is_within_quota (w : World) :
  within_quota w ->
  (forall nc nu folderId chatId chatTitle tgs note,
     within_quota (saveChatToFolder nc nu folderId chatId chatTitle tgs note w).2)
  /\ (forall nc nu folderId url chatTitle tagAnswer noteAnswer,
     within_quota
       (saveCurrentChatToFolder nc nu folderId url chatTitle tagAnswer
          noteAnswer w).2)
  /\ (forall nc nu folderId rawUrl nameAnswer tagAnswer noteAnswer,
     within_quota
       (addChatByUrl nc nu folderId rawUrl nameAnswer tagAnswer noteAnswer w).2)
  /\ (forall chatId folderId confirmed,
     within_quota (removeChatFromFolder chatId folderId confirmed w))
  /\ (forall chatId src target, within_quota (handleMoveChat chatId src target w))
  /\ (forall now chatId answer,
     within_quota (renameChat now chatId answer w)
     /\ within_quota (editChatAnnotation now chatId answer w)
     /\ within_quota (editChatTags now chatId answer w))
  /\ (forall now parentId answer,
     within_quota (createNewFolder now parentId answer w).2)
  /\ (forall folderId confirmed, within_quota (deleteFolder folderId confirmed w))
  /\ (forall folderId answer,
     within_quota (renameFolder folderId answer w)
     /\ within_quota (editFolderAnnotation folderId answer w))
  /\ (forall folderId targetParentId,
     within_quota (handleMoveFolder folderId targetParentId w))
  /\ (forall confirmed, within_quota (pruneUnlinked confirmed w).2)
  /\ (forall now recoveredName recoveredNote confirmed,
     within_quota (archiveUnlinked now recoveredName recoveredNote confirmed w).2)
  /\ (forall now q answer, within_quota (pinCurrentSearch now q answer w).2)
  /\ (forall pinId confirmed,
     within_quota (unpin pinId w) /\ within_quota (quick_unpin pinId confirmed w))
  /\ (forall namespace change, within_quota (onChanged namespace change w)).
Proof.
  intros Hw.
  pose proof (fun L => within_quota_saveAndRefresh w L Hw) as Hsave.
  pose proof (fun L => within_quota_refresh_after_edit _ (Hsave L)) as Hedit.
  repeat split.
  - intros. by apply within_quota_saveChatToFolder.
  - intros. unfold saveCurrentChatToFolder.
    destruct (Url.extractChatId _); [|done]. simpl.
    destruct (getFolderContext _ _); [|done].
    destruct (JS.array_includes _ _); [done|].
    destruct tagAnswer; [|done]. by apply within_quota_saveChatToFolder.
  - intros. unfold addChatByUrl.
    destruct rawUrl as [[|a r]|]; [done| |done].
    destruct (Url.extractChatId _); [|done]. simpl.
    destruct (getFolderContext _ _); [|done].
    destruct (JS.array_includes _ _); [done|].
    destruct nameAnswer; [|done].
    destruct (Object_get _ _); [|done|]; by apply within_quota_saveChatToFolder.
  - intros chatId folderId confirmed. unfold removeChatFromFolder.
    destruct folderId as [fId|].
    + destruct (getFolderContext fId _); [|done].
      destruct (_ && _); [done|]. apply Hsave.
    + destruct (negb confirmed); [done|]. apply Hsave.
  - intros chatId src target. unfold handleMoveChat.
    destruct (getFolderContext_nullable src _); [|done].
    destruct (getFolderContext target _); [|done]. apply Hedit.
  - unfold renameChat. destruct (allChats _ !! chatId); [|done].
    destruct answer; [|done]. destruct (negb _); [apply Hedit|done].
  - unfold editChatAnnotation. destruct (allChats _ !! chatId); [|done].
    destruct answer; [apply Hedit|done].
  - unfold editChatTags. destruct (allChats _ !! chatId); [|done].
    destruct answer; [apply Hedit|done].
  - intros now parentId answer. unfold createNewFolder.
    destruct answer as [[|a r]|]; [done| |done].
    destruct (truthy_id parentId); [|apply Hsave].
    destruct (getFolderContext_nullable parentId _); [apply Hsave|done].
  - intros folderId confirmed. unfold deleteFolder.
    destruct (negb confirmed); [done|].
    destruct (getFolderContext folderId _); [apply Hsave|done].
  - unfold renameFolder. destruct (getFolderContext folderId _); [|done].
    destruct answer as [[|a r]|]; [done|apply Hsave|done].
  - unfold editFolderAnnotation. destruct (getFolderContext folderId _); [|done].
    destruct answer; [apply Hsave|done].
  - intros folderId targetParentId. unfold handleMoveFolder.
    destruct (getFolderContext folderId _); [apply Hsave|done].
  - intros confirmed. unfold pruneUnlinked.
    destruct (_ =? _)%nat; [done|]. destruct confirmed; [apply Hsave|done].
  - intros now recoveredName recoveredNote confirmed. unfold archiveUnlinked.
    destruct (_ =? _)%nat; [done|]. destruct (negb confirmed); [done|apply Hsave].
  - intros now q answer. unfold pinCurrentSearch.
    destruct (existsb _ _); [done|]. destruct (_ <=? _)%nat; [done|].
    destruct answer as [[|a r]|]; [done| |done]. cbn [snd].
    destruct (search_input _); [|apply Hsave].
    intros L0. rewrite sync_set_calls_refreshFolderList. apply Hsave.
  - apply Hsave.
  - unfold quick_unpin. destruct confirmed; [apply Hsave|done].
  - intros namespace change. unfold onChanged.
    destruct change; [|done]. destruct (String.eqb _ _); [|done].
    destruct (negb _); [|done].
    intros L0. rewrite sync_set_calls_refreshFolderList. apply Hw.
Qed.
End Quota.

(** ** Editing a folder *)

(** Rewriting the folder at a position without touching its subfolders, as
    seen through a field that is not [subfolders]. *)
Lemma field_after_update {A : Type} (proj : Folder -> A) (h : Folder -> Folder)
    (t : list nat) (i : nat) :
  (forall f s, proj (set_subfolders f s) = proj f) ->
  (forall f, subfolders (h f) = subfolders f) ->
  forall l t' i',
    proj <$> folder_at t' i' (update_array (alter h i) t l)
    = (fun f => if decide ((t', i') = (t, i)) then proj (h f) else proj f)
        <$> folder_at t' i' l.
Proof.
  intros Hproj Hsubs.
  induction t as [|m t IH]; intros l t' i';
    [destruct (decide ((t', i') = ([], i))) as [Heq|Hne]
    |destruct (decide ((t', i') = (m :: t, i))) as [Heq|Hne]].
  - injection Heq as -> ->. unfold folder_at. cbn [update_array array_at].
    rewrite list_lookup_alter_eq. by destruct (l !! i).
  - destruct t' as [|j t'']; unfold folder_at; cbn [update_array array_at].
    + by rewrite list_lookup_alter_ne by congruence.
    + destruct (decide (i = j)) as [->|Hij].
      * rewrite list_lookup_alter_eq.
        destruct (l !! j) as [f|]; [|done]. simpl. by rewrite Hsubs.
      * by rewrite list_lookup_alter_ne by done.
  - injection Heq as -> ->. unfold folder_at. cbn [update_array array_at].
    rewrite list_lookup_alter_eq. destruct (l !! m) as [f|]; [|done].
    cbn [fmap option_fmap option_map subfolders set_subfolders].
    specialize (IH (subfolders f) t i). unfold folder_at in IH. revert IH.
    by destruct (decide ((t, i) = (t, i))).
  - destruct t' as [|j t'']; unfold folder_at; cbn [update_array array_at].
    + destruct (decide (m = i')) as [->|Hmi].
      * rewrite list_lookup_alter_eq. destruct (l !! i') as [f|]; [|done].
        simpl. by rewrite Hproj.
      * by rewrite list_lookup_alter_ne by done.
    + destruct (decide (m = j)) as [->|Hmj].
      * rewrite list_lookup_alter_eq. destruct (l !! j) as [f|]; [|done].
        cbn [fmap option_fmap option_map subfolders set_subfolders].
        specialize (IH (subfolders f) t'' i'). unfold folder_at in IH.
        revert IH.
        destruct (decide ((t'', i') = (t, i))) as [Heq|_]; [congruence|done].
      * by rewrite list_lookup_alter_ne by done.
Qed.

Section FolderEditors.
Context `{Host}.

(** X21.  [renameFolder] and [editFolderAnnotation] write one field of one
    folder.  For a folder that is found, every position of the tree holds
    a folder before exactly when it does after, with the same id, chat
    references, sort order and the other of the two fields; the name (the
    note) is the trimmed answer at the position found and is unchanged
    everywhere else; [allChats] is untouched.  A name made of white space
    only is accepted and leaves the folder with the empty name, while the
    empty answer and a cancelled prompt change nothing. *)
Theorem folder_editors_touch_one_field (folderId : IdArg) (answer : string)
    (w : World) (context : Context) :
  let L := folderData w in
  let renamed := folderData (renameFolder folderId (Some answer) w) in
  let annotated := folderData (editFolderAnnotation folderId (Some answer) w) in
  getFolderContext folderId (folders L) = Some context ->
  (answer <> EmptyString ->
   allChats renamed = allChats L
   /\ forall t i,
        (fun f => (fid f, chatIds f, fannotation f, sortOrder f))
          <$> folder_at t i (folders renamed)
        = (fun f => (fid f, chatIds f, fannotation f, sortOrder f))
            <$> folder_at t i (folders L)
        /\ name <$> folder_at t i (folders renamed)
           = (fun f => if decide ((t, i) = position context)
                       then JS.trim answer else name f)
               <$> folder_at t i (folders L))
  /\ (allChats annotated = allChats L
      /\ forall t i,
           (fun f => (fid f, chatIds f, name f, sortOrder f))
             <$> folder_at t i (folders annotated)
           = (fun f => (fid f, chatIds f, name f, sortOrder f))
               <$> folder_at t i (folders L)
           /\ fannotation <$> folder_at t i (folders annotated)
              = (fun f => if decide ((t, i) = position context)
                          then JS.trim answer else fannotation f)
                  <$> folder_at t i (folders L))
  /\ renameFolder folderId (Some EmptyString) w = w
  /\ renameFolder folderId None w = w
  /\ editFolderAnnotation folderId None w = w.
Proof.
  intros L renamed annotated Hctx.
  split; [|split; [|split; [|split]]].
  - intros Hanswer.
    assert (Hrenamed : renamed = set_folders L
              (update_folder (fun f => set_name f (JS.trim answer)) context
                 (folders L))).
    { subst renamed. unfold renameFolder. fold L. rewrite Hctx.
      destruct answer as [|a r]; [done|]. by rewrite folderData_saveAndRefresh. }
    rewrite Hrenamed. split; [done|]. intros t i. simpl. unfold update_folder.
    split.
    + rewrite (field_after_update
                 (fun f => (fid f, chatIds f, fannotation f, sortOrder f)))
        by (by intros []).
      destruct (folder_at t i (folders L)) as [f|]; [|done]. simpl.
      by destruct (decide _).
    + by rewrite (field_after_update name) by (by intros []).
  - assert (Hannotated : annotated = set_folders L
              (update_folder (fun f => set_fannotation f (JS.trim answer)) context
                 (folders L))).
    { subst annotated. unfold editFolderAnnotation. fold L. rewrite Hctx.
      by rewrite folderData_saveAndRefresh. }
    rewrite Hannotated. split; [done|]. intros t i. simpl. unfold update_folder.
    split.
    + rewrite (field_after_update
                 (fun f => (fid f, chatIds f, name f, sortOrder f)))
        by (by intros []).
      destruct (folder_at t i (folders L)) as [f|]; [|done]. simpl.
      by destruct (decide _).
    + by rewrite (field_after_update fannotation) by (by intros []).
  - unfold renameFolder. by destruct (getFolderContext _ _).
  - unfold renameFolder. by destruct (getFolderContext _ _).
  - unfold editFolderAnnotation. by destruct (getFolderContext _ _).
Qed.
End FolderEditors.

(** ** Saving a chat and taking it back *)

Lemma alter_fixed (h : Folder -> Folder) (l : list Folder) (i : nat) (x : Folder) :
  l !! i = Some x -> h x = x -> alter h i l = l.
Proof.
  revert i. induction l as [|y l IH]; intros [|i] Hi Hx; simpl in *; try done.
  - injection Hi as ->. by rewrite Hx.
  - f_equal. by apply IH.
Qed.

Lemma update_array_fixed (g : list Folder -> list Folder) (t : list nat) :
  forall l a, array_at t l = Some a -> g a = a -> update_array g t l = l.
Proof.
  induction t as [|m t IH]; intros l a Harr Ha; simpl in *.
  - by injection Harr as ->.
  - destruct (l !! m) as [f|] eqn:Hm; [|done].
    apply (alter_fixed _ _ _ f Hm). rewrite (IH _ _ Harr Ha). by destruct f.
Qed.

Lemma update_array_compose (g1 g2 : list Folder -> list Folder) (t : list nat) :
  forall l,
    update_array g2 t (update_array g1 t l)
    = update_array (fun a => g2 (g1 a)) t l.
Proof.
  induction t as [|m t IH]; intros l; simpl; [done|].
  rewrite list_alter_alter_eq. apply list_alter_ext; [|done].
  intros f _. simpl. by rewrite IH.
Qed.

Lemma findAll_traverse_unfold (c : string) (f : Folder) :
  findAll_traverse c f
  = (if JS.array_includes (chatIds f) c then [f] else [])
    ++ flat_map (findAll_traverse c) (subfolders f).
Proof. by destruct f. Qed.

Lemma length_flat_map_alter {A : Type} (phi : Folder -> list A)
    (h : Folder -> Folder) (l : list Folder) (i : nat) (x : Folder) (n : nat) :
  l !! i = Some x ->
  length (phi (h x)) = (length (phi x) + n)%nat ->
  length (flat_map phi (alter h i l)) = (length (flat_map phi l) + n)%nat.
Proof.
  intros Hi Hx. rewrite (alter_middle h l i x Hi).
  rewrite <- (take_drop_middle l i x Hi) at 3.
  rewrite !flat_map_app. simpl. rewrite !length_app, Hx. lia.
Qed.

Lemma findAll_length_after_push (c : string) (t : list nat) (i : nat) (F : Folder) :
  forall l a,
    array_at t l = Some a -> a !! i = Some F -> c ∉ chatIds F ->
    length (flat_map (findAll_traverse c)
              (update_array (alter (fun f => set_chatIds f (chatIds f ++ [c])) i)
                 t l))
    = S (length (flat_map (findAll_traverse c) l)).
Proof.
  induction t as [|m t IH]; intros l a Harr Hi Hout; simpl in *.
  - injection Harr as ->.
    rewrite (length_flat_map_alter _ _ _ _ _ 1 Hi); [lia|].
    rewrite !findAll_traverse_unfold. simpl.
    apply array_includes_false in Hout. rewrite Hout.
    assert (JS.array_includes (chatIds F ++ [c]) c = true) as ->.
    { apply array_includes_true, elem_of_app. right. by left. }
    simpl. lia.
  - destruct (l !! m) as [f0|] eqn:Hm; [|done].
    rewrite (length_flat_map_alter _ _ _ _ _ 1 Hm); [lia|].
    rewrite !findAll_traverse_unfold. simpl.
    rewrite !length_app, (IH _ _ Harr Hi Hout).
    destruct (JS.array_includes (chatIds f0) c); simpl; lia.
Qed.

Section RoundTrip.
Context `{Host}.

(** X22.  Saving a new chat and taking it back leaves the library as it
    was: for a folder that is found and a chat that has no entry and no
    reference, [saveChatToFolder] returns [true], and a confirmed
    [removeChatFromFolder] of the chat from that folder afterwards gives
    back the library before the save, folders, chats and pins.  When the
    removal is declined, the saved state stays. *)
Theorem save_then_remove_round_trip (nc nu : Z) (folderId : IdArg)
    (chatId chatTitle : string) (tgs : list string) (note : string)
    (w : World) (context : Context) :
  let L := folderData w in
  let saved := saveChatToFolder nc nu folderId chatId chatTitle tgs note w in
  getFolderContext folderId (folders L) = Some context ->
  allChats L !! chatId = None ->
  ~ referenced L chatId ->
  saved.1 = true
  /\ folderData (removeChatFromFolder chatId (Some folderId) true saved.2) = L
  /\ removeChatFromFolder chatId (Some folderId) false saved.2 = saved.2.
Proof.
  intros L saved Hctx Hnew Hunref.
  set (push := fun f => set_chatIds f (chatIds f ++ [chatId])).
  set (drop := fun f => set_chatIds f (filter (fun c => c ≠ chatId) (chatIds f))).
  assert (Hout : chatId ∉ chatIds (folder context)).
  { intros Hin. apply Hunref. exists (folder context).
    split; [by eapply getFolderContext_in_tree|done]. }
  apply array_includes_false in Hout as Hinc.
  set (entry := mkChatEntry chatId chatTitle (sanitizedTags tgs) note nc (Some nu)).
  assert (Hsaved : saved.1 = true
            /\ folderData saved.2
               = mkLibrary (update_folder push context (folders L))
                   (<[ chatId := entry ]> (allChats L)) (pinnedSearches L)).
  { subst saved. unfold saveChatToFolder. fold L. rewrite Hctx, Hinc, Hnew.
    cbn [negb fst snd]. by rewrite folderData_saveAndRefresh. }
  destruct Hsaved as [Htrue Hsaved]. split; [exact Htrue|].
  destruct (getFolderContext_after_chatIds folderId (fun ids => ids ++ [chatId])
              _ _ Hctx) as (c' & Hc' & Htrail & Hindex & Hfolder).
  fold push in Hc'.
  destruct (getFolderContext_located _ _ _ Hctx) as (Harr & Hidx & _).
  assert (Hback : update_folder drop c' (update_folder push context (folders L))
                  = folders L).
  { unfold update_folder. rewrite Htrail, Hindex, update_array_compose.
    apply (update_array_fixed _ _ _ _ Harr).
    rewrite list_alter_alter_eq. apply (alter_fixed _ _ _ _ Hidx).
    unfold drop, push. simpl.
    rewrite filter_app, filter_cons_False, filter_nil, app_nil_r
      by (by intros ?).
    replace (filter (fun c => c ≠ chatId) (chatIds (folder context)))
      with (chatIds (folder context)); [by destruct (folder context)|].
    clear -Hout. induction (chatIds (folder context)) as [|x ids IH]; [done|].
    rewrite filter_cons_True by (intros ->; apply Hout; by left).
    f_equal. apply IH. intros ?. apply Hout. by right. }
  assert (Hnone : flat_map (findAll_traverse chatId) (folders L) = []).
  { apply findAll_nil. intros f Hf Hin. apply Hunref. by exists f. }
  split.
  - unfold removeChatFromFolder. rewrite Hsaved. cbn [folders]. rewrite Hc'.
    rewrite andb_false_r, folderData_saveAndRefresh.
    cbn [folderData with_folderData set_folders folders allChats pinnedSearches].
    fold drop. rewrite Hback. unfold findAllFoldersForChat, set_folders.
    cbn [folders]. rewrite Hnone.
    cbn [length Nat.eqb set_allChats folders allChats pinnedSearches].
    rewrite delete_insert_id by done. by destruct L.
  - unfold removeChatFromFolder. rewrite Hsaved. cbn [folders]. rewrite Hc'.
    unfold findAllFoldersForChat. cbn [folders]. unfold update_folder, push.
    rewrite (findAll_length_after_push _ _ _ _ _ _ Harr Hidx Hout), Hnone.
    done.
Qed.
End RoundTrip.

(** ** The CSV export *)

Lemma append_assoc (a b c : string) :
  ((a +:+ b) +:+ c)%string = (a +:+ (b +:+ c))%string.
Proof.
  induction a as [|x a IH]; [done|]. by rewrite !append_cons, IH.
Qed.

Lemma append_empty_r (a : string) : (a +:+ EmptyString)%string = a.
Proof. induction a as [|x a IH]; [done|]. by rewrite append_cons, IH. Qed.

Lemma concat_strings_app (l1 l2 : list string) :
  concat_strings (l1 ++ l2) = (concat_strings l1 +:+ concat_strings l2)%string.
Proof.
  induction l1 as [|x l1 IH]; simpl; [done|].
  unfold concat_strings in *. simpl. by rewrite IH, append_assoc.
Qed.

Lemma truthy_Object_get (all : gmap string ChatEntry) (c : string) :
  truthy_property (Object_get all c)
  = match all !! c with
    | Some chat => Some (own chat)
    | None => if bool_decide (c ∈ Object_prototype_keys)
              then Some (inherited c) else None
    end.
Proof.
  unfold Object_get. destruct (all !! c); [done|].
  by destruct (bool_decide _).
Qed.

Lemma csv_chats_fold (all : gmap string ChatEntry) (path : string)
    (ids : list string) (acc : string) :
  fold_left
    (fun acc c =>
       match CsvExport.line_of path (Object_get all c) with
       | Some row => (acc +:+ row)%string
       | None => acc
       end) ids acc
  = (acc +:+ concat_strings
       ((fun r => default EmptyString (CsvExport.line_of r.1 r.2))
          <$> omap (fun c => (fun p => (path, p))
                               <$> truthy_property (Object_get all c)) ids))%string.
Proof.
  revert acc. induction ids as [|c ids IH]; intros acc; simpl.
  - by rewrite append_empty_r.
  - rewrite IH. destruct (Object_get all c) as [chat|k|]; simpl; [| |done];
      unfold concat_strings; simpl; by rewrite append_assoc.
Qed.

Lemma processFolder_rows (all : gmap string ChatEntry) (l : list Folder) :
  forall prefix acc,
    fold_left (fun acc f => CsvExport.processFolder all f prefix acc) l acc
    = (acc +:+ concat_strings
         ((fun r => default EmptyString (CsvExport.line_of r.1 r.2))
            <$> flat_map (csv_rows_of all prefix) l))%string.
Proof.
  revert l.
  apply (forest_induction
    (fun f => forall prefix acc,
       CsvExport.processFolder all f prefix acc
       = (acc +:+ concat_strings
            ((fun r => default EmptyString (CsvExport.line_of r.1 r.2))
               <$> csv_rows_of all prefix f))%string)
    (fun l => forall prefix acc,
       fold_left (fun acc f => CsvExport.processFolder all f prefix acc) l acc
       = (acc +:+ concat_strings
            ((fun r => default EmptyString (CsvExport.line_of r.1 r.2))
               <$> flat_map (csv_rows_of all prefix) l))%string)).
  - intros prefix acc. simpl. by rewrite append_empty_r.
  - intros f rest IHf IHrest prefix acc. cbn [fold_left flat_map].
    by rewrite IHf, IHrest, fmap_app, concat_strings_app, append_assoc.
  - intros f IH prefix acc.
    assert (Hunfold : CsvExport.processFolder all f prefix acc
      = fold_left
          (fun acc sf =>
             CsvExport.processFolder all sf (CsvExport.currentPath prefix f) acc)
          (subfolders f)
          (fold_left
             (fun acc c =>
                match CsvExport.line_of (CsvExport.currentPath prefix f)
                        (Object_get all c) with
                | Some row => (acc +:+ row)%string
                | None => acc
                end)
             (chatIds f) acc)) by (by destruct f).
    assert (Hrows : csv_rows_of all prefix f
      = omap (fun c => (fun p => (CsvExport.currentPath prefix f, p))
                         <$> truthy_property (Object_get all c)) (chatIds f)
        ++ flat_map (csv_rows_of all (CsvExport.currentPath prefix f))
             (subfolders f)) by (by destruct f).
    by rewrite Hunfold, Hrows, IH, csv_chats_fold, fmap_app, concat_strings_app,
      append_assoc.
Qed.

Lemma elem_of_csv_rows_of (all : gmap string ChatEntry) (p : Property)
    (l : list Folder) :
  forall prefix,
    (exists path, (path, p) ∈ flat_map (csv_rows_of all prefix) l) <->
    exists c, somewhere (refers c) l
              /\ truthy_property (Object_get all c) = Some p.
Proof.
  revert l.
  apply (forest_induction
    (fun f => forall prefix,
       (exists path,
          (path, p) ∈ flat_map (csv_rows_of all prefix) (subfolders f)) <->
       exists c, somewhere (refers c) (subfolders f)
                 /\ truthy_property (Object_get all c) = Some p)
    (fun l => forall prefix,
       (exists path, (path, p) ∈ flat_map (csv_rows_of all prefix) l) <->
       exists c, somewhere (refers c) l
                 /\ truthy_property (Object_get all c) = Some p)).
  - intros prefix. simpl. split.
    + by intros (path & ?%elem_of_nil).
    + by intros (c & ?%somewhere_nil & _).
  - intros f rest IHf IHrest prefix.
    assert (Hrows : csv_rows_of all prefix f
      = omap (fun c => (fun p => (CsvExport.currentPath prefix f, p))
                         <$> truthy_property (Object_get all c)) (chatIds f)
        ++ flat_map (csv_rows_of all (CsvExport.currentPath prefix f))
             (subfolders f)) by (by destruct f).
    cbn [flat_map]. rewrite Hrows. split.
    + intros (path & [[Hhere|Hsub]%elem_of_app|Hrest]%elem_of_app).
      * apply list_elem_of_omap in Hhere as (c & Hc & Hlook).
        destruct (truthy_property (Object_get all c)) as [p'|] eqn:Hall; [|done].
        injection Hlook as _ ->. exists c. split; [|done].
        apply somewhere_cons. by left.
      * destruct (proj1 (IHf _) (ex_intro _ path Hsub)) as (c & Hc & Hall).
        exists c. split; [|done]. apply somewhere_cons. by right; left.
      * destruct (proj1 (IHrest prefix) (ex_intro _ path Hrest))
          as (c & Hc & Hall).
        exists c. split; [|done]. apply somewhere_cons. by right; right.
    + intros (c & [Hhere|[Hsub|Hrest]]%somewhere_cons & Hall).
      * exists (CsvExport.currentPath prefix f). apply elem_of_app. left.
        apply elem_of_app. left. apply list_elem_of_omap. exists c.
        split; [done|]. by rewrite Hall.
      * destruct (proj2 (IHf (CsvExport.currentPath prefix f))
                    (ex_intro _ c (conj Hsub Hall))) as (path & Hp).
        exists path. apply elem_of_app. left. apply elem_of_app. by right.
      * destruct (proj2 (IHrest prefix) (ex_intro _ c (conj Hrest Hall)))
          as (path & Hp).
        exists path. apply elem_of_app. by right.
  - intros f IH. exact IH.
Qed.

(** X23.  [exportDataAsCSV] writes the header and then one line per
    reference for which [allChats] gives something, folder by folder with
    parents first: five escaped cells separated by commas and a line feed.
    For a chat with an entry the cells are the path of the folder, the
    title, the address of the chat, the tags joined by a comma and a
    space, and the note.  For an id without entry that names a member
    [allChats] inherits, such as [constructor], the line has the path, no
    title, the address ending in [undefined], no tags and no note.  An
    entry is exported exactly when some folder references an id that has
    it: unlinked chats and the other ids without entry are left out.  The
    path cell of a root folder is its name. *)
Theorem exportDataAsCSV_one_line_per_link (header : string) (L : Library) :
  let cell := Csv.escapeCsv in
  let line_feed := String (JS.chr 10) EmptyString in
  CsvExport.exportDataAsCSV header L
  = (header +:+ concat_strings
       ((fun r =>
           match r.2 with
           | own chat =>
               cell r.1 +:+ "," +:+ cell (title chat) +:+ ","
               +:+ cell ("https://gemini.google.com/app/" +:+ id chat) +:+ ","
               +:+ cell (Array_join ", " (tags chat)) +:+ ","
               +:+ cell (annotation chat) +:+ line_feed
           | _ =>
               cell r.1 +:+ ",,https://gemini.google.com/app/undefined,,"
               +:+ line_feed
           end) <$> csv_rows L))%string
  /\ (forall chat,
        (exists path, (path, own chat) ∈ csv_rows L) <->
        exists c, referenced L c /\ allChats L !! c = Some chat)
  /\ (forall k,
        (exists path, (path, inherited k) ∈ csv_rows L) <->
        referenced L k /\ allChats L !! k = None /\ k ∈ Object_prototype_keys)
  /\ (forall path, (path, undefined) ∉ csv_rows L)
  /\ (forall c chat,
        c ∈ findUnlinked L -> allChats L !! c = Some chat ->
        (forall c', allChats L !! c' = Some chat -> c' = c) ->
        forall path, (path, own chat) ∉ csv_rows L)
  /\ (forall f c chat,
        f ∈ folders L -> c ∈ chatIds f -> allChats L !! c = Some chat ->
        (name f, own chat) ∈ csv_rows L).
Proof.
  intros cell line_feed.
  assert (Hown : forall chat,
    (exists path, (path, own chat) ∈ csv_rows L) <->
    exists c, referenced L c /\ allChats L !! c = Some chat).
  { intros chat. unfold csv_rows. rewrite elem_of_csv_rows_of.
    split; intros (c & Href & Hc); exists c; (split; [exact Href|]);
      revert Hc; rewrite truthy_Object_get;
      destruct (allChats L !! c); [congruence| |congruence|done].
    by destruct (bool_decide _). }
  assert (Hnone : forall path, (path, undefined) ∉ csv_rows L).
  { intros path Hrow.
    destruct (proj1 (elem_of_csv_rows_of _ undefined _ EmptyString)
                (ex_intro _ path Hrow)) as (c & _ & Hc).
    revert Hc. rewrite truthy_Object_get.
    destruct (allChats L !! c); [done|]. by destruct (bool_decide _). }
  split; [|split; [exact Hown|split; [|split; [exact Hnone|split]]]].
  - unfold CsvExport.exportDataAsCSV, csv_rows. rewrite processFolder_rows.
    f_equal. f_equal. apply Forall_fmap_ext, Forall_forall.
    intros [path p] Hrow. cbn [fst snd].
    destruct p as [chat|k|]; [done| |by apply Hnone in Hrow].
    cbn [CsvExport.line_of default]. unfold CsvExport.line. by f_equal.
  - intros k. unfold csv_rows. rewrite elem_of_csv_rows_of. split.
    + intros (c & Href & Hc). revert Hc. rewrite truthy_Object_get.
      destruct (allChats L !! c) eqn:Hentry; [done|].
      destruct (bool_decide _) eqn:Hkey; [|done].
      intros [= <-]. by apply bool_decide_eq_true in Hkey.
    + intros (Href & Hentry & Hkey). exists k. split; [exact Href|].
      by rewrite truthy_Object_get, Hentry, bool_decide_eq_true_2.
  - intros c chat Hun Hentry Honly path Hrow.
    destruct (proj1 (Hown chat) (ex_intro _ path Hrow)) as (c' & Href & Hc').
    apply Honly in Hc' as ->.
    apply elem_of_findUnlinked in Hun as [_ Hno]. by apply Hno.
  - intros f c chat Hf Hc Hentry. unfold csv_rows.
    apply list_elem_of_In, in_flat_map. exists f.
    split; [by apply list_elem_of_In|]. apply list_elem_of_In.
    assert (Hrows : csv_rows_of (allChats L) EmptyString f
      = omap (fun c => (fun p => (CsvExport.currentPath EmptyString f, p))
                         <$> truthy_property (Object_get (allChats L) c))
          (chatIds f)
        ++ flat_map (csv_rows_of (allChats L)
                       (CsvExport.currentPath EmptyString f))
             (subfolders f)) by (by destruct f).
    rewrite Hrows. apply elem_of_app. left. apply list_elem_of_omap.
    exists c. split; [done|]. by rewrite truthy_Object_get, Hentry.
Qed.

(** ** Terms of a query *)

Lemma tokenize_step (a : ascii) (next : string) :
  Query.tokenize (String a next)
  = match Query.match_at (String a next) with
    | Some m =>
        match Query.token_of m with
        | Some tok => tok :: Query.tokenize (Query.after m)
        | None => Query.tokenize (Query.after m)
        end
    | None => Query.tokenize next
    end.
Proof.
  unfold Query.tokenize at 1. cbn [String.length Query.exec_loop].
  destruct (Query.match_at (String a next)) as [m|] eqn:Hm.
  - apply match_at_after in Hm. simpl in Hm.
    rewrite (exec_loop_fuel _ (Query.after m)) by lia. done.
  - by rewrite exec_loop_fuel.
Qed.

Lemma space_is_plain (sp : ascii) :
  JS.is_space sp = true -> Query.is_quote sp = false /\ Query.is_minus sp = false.
Proof.
  destruct sp as [[|] [|] [|] [|] [|] [|] [|] [|]]; by vm_compute.
Qed.

Lemma span_app_space (s tail : string) (sp : ascii) :
  JS.is_space sp = true ->
  Query.span (fun a => negb (JS.is_space a)) (s +:+ String sp tail)
  = ((Query.span (fun a => negb (JS.is_space a)) s).1,
     (Query.span (fun a => negb (JS.is_space a)) s).2 +:+ String sp tail)%string.
Proof.
  intros Hsp. induction s as [|a s IH].
  - rewrite append_nil. simpl. by rewrite Hsp.
  - rewrite append_cons. simpl. destruct (negb (JS.is_space a)); [|done].
    rewrite IH. by destruct (Query.span _ s).
Qed.

Lemma span_snd_no_quote (p : ascii -> bool) (s : string) :
  no_quote s -> no_quote (Query.span p s).2.
Proof.
  induction s as [|a s IH]; simpl; [done|]. intros [Ha Hs].
  destruct (p a); [|done]. specialize (IH Hs).
  by destruct (Query.span p s).
Qed.

Lemma body_no_quote (m0 s tail : string) (sp : ascii) :
  JS.is_space sp = true -> no_quote s ->
  Query.body m0 (s +:+ String sp tail)
  = extend_match (String sp tail) <$> Query.body m0 s
  /\ forall m, Query.body m0 s = Some m -> no_quote (Query.after m).
Proof.
  intros Hsp Hs.
  assert (Hword :
    match Query.span (fun a => negb (JS.is_space a)) (s +:+ String sp tail) with
    | (EmptyString, _) => None
    | (w, rest) => Some (Query.mkMatch m0 None (Some w) rest)
    end
    = extend_match (String sp tail) <$>
      match Query.span (fun a => negb (JS.is_space a)) s with
      | (EmptyString, _) => None
      | (w, rest) => Some (Query.mkMatch m0 None (Some w) rest)
      end).
  { rewrite span_app_space by done.
    by destruct (Query.span _ s) as [[|b w] rest]. }
  assert (Hafter : forall m,
    match Query.span (fun a => negb (JS.is_space a)) s with
    | (EmptyString, _) => None
    | (w, rest) => Some (Query.mkMatch m0 None (Some w) rest)
    end = Some m -> no_quote (Query.after m)).
  { intros m. pose proof (span_snd_no_quote (fun a => negb (JS.is_space a)) s Hs).
    destruct (Query.span _ s) as [[|b w] rest]; [done|]. by intros [= <-]. }
  unfold Query.body. destruct s as [|q r].
  - rewrite append_nil. destruct (space_is_plain sp Hsp) as [-> _].
    rewrite append_nil in Hword. by split.
  - rewrite append_cons. destruct Hs as [-> Hr].
    rewrite append_cons in Hword. by split.
Qed.

Lemma match_at_no_quote (a : ascii) (r tail : string) (sp : ascii) :
  JS.is_space sp = true -> no_quote (String a r) ->
  Query.match_at (String a r +:+ String sp tail)
  = extend_match (String sp tail) <$> Query.match_at (String a r)
  /\ forall m, Query.match_at (String a r) = Some m -> no_quote (Query.after m).
Proof.
  intros Hsp Hs. rewrite append_cons. unfold Query.match_at.
  destruct (body_no_quote EmptyString (String a r) tail sp Hsp Hs)
    as [Hplain Hplain'].
  rewrite append_cons in Hplain.
  destruct (Query.is_minus a); [|by split].
  destruct (body_no_quote (String a EmptyString) r tail sp Hsp (proj2 Hs))
    as [Hminus Hminus'].
  rewrite Hminus.
  destruct (Query.body (String a EmptyString) r) as [m|] eqn:Hm; simpl.
  - split; [done|]. intros m' [= <-]. by apply Hminus'.
  - by split.
Qed.

Lemma tokenize_app_space (n : nat) (q1 q2 : string) (sp : ascii) :
  (String.length q1 <= n)%nat ->
  JS.is_space sp = true -> no_quote q1 ->
  Query.tokenize (q1 +:+ String sp q2) = Query.tokenize q1 ++ Query.tokenize q2.
Proof.
  intros Hlen Hsp. revert q1 Hlen.
  induction n as [|n IH]; intros q1 Hlen Hq1.
  - destruct q1 as [|a r]; [|simpl in Hlen; lia].
    rewrite append_nil, tokenize_step.
    assert (Query.match_at (String sp q2) = None) as ->; [|done].
    unfold Query.match_at, Query.body.
    destruct (space_is_plain sp Hsp) as [-> ->]. simpl. by rewrite Hsp.
  - destruct q1 as [|a r].
    + apply (IH EmptyString); [simpl; lia|done].
    + destruct (match_at_no_quote a r q2 sp Hsp Hq1) as [Hm Hafter].
      rewrite (tokenize_step a r).
      rewrite append_cons, tokenize_step, <- append_cons, Hm.
      destruct (Query.match_at (String a r)) as [m|] eqn:Hmatch; simpl.
      * pose proof (match_at_after _ _ Hmatch) as Hshort. simpl in Hshort.
        change (Query.token_of (extend_match (String sp q2) m))
          with (Query.token_of m).
        simpl in Hlen. rewrite IH; [|lia|by apply Hafter].
        by destruct (Query.token_of m).
      * apply IH; [simpl in Hlen; lia|apply Hq1].
Qed.

(** X24.  The terms of a query are taken one by one and all of them must
    hold: for a text without quote characters followed by a white-space
    character and any other text, the tokens are those of the first text
    followed by those of the second, and a chat matches the whole query
    exactly when it matches both parts.  A query of white space only has
    no tokens and matches every chat. *)
Theorem query_terms_are_conjoined (q1 q2 : string) (sp : ascii) (chat : ChatEntry) :
  JS.is_space sp = true -> no_quote q1 ->
  Query.tokenize (q1 +:+ String sp q2) = Query.tokenize q1 ++ Query.tokenize q2
  /\ isMatch chat (Query.tokenize (q1 +:+ String sp q2))
     = isMatch chat (Query.tokenize q1) && isMatch chat (Query.tokenize q2)
  /\ (all_space q1 ->
      Query.tokenize q1 = [] /\ isMatch chat (Query.tokenize q1) = true).
Proof.
  intros Hsp Hq1.
  pose proof (tokenize_app_space _ q1 q2 sp (le_n _) Hsp Hq1) as Happ.
  split; [exact Happ|]. split.
  - rewrite Happ. unfold isMatch. apply forallb_app.
  - intros Hblank.
    assert (Hnil : Query.tokenize q1 = []); [|by rewrite Hnil].
    clear -Hblank. induction q1 as [|a r IH]; [done|].
    destruct Hblank as [Ha Hr]. rewrite tokenize_step.
    assert (Query.match_at (String a r) = None) as ->; [|by apply IH].
    unfold Query.match_at, Query.body.
    destruct (space_is_plain a Ha) as [-> ->]. simpl. by rewrite Ha.
Qed.

(** ** Breadcrumbs *)

Lemma fpa_below_unfold (target here : list nat) (f : Folder) :
  fpa_below target here f
  = fpa_loop target (fpa_below target) here 0%nat (subfolders f).
Proof. by destruct f. Qed.

(** The search finds nothing where the target is not. *)
Lemma fpa_loop_miss (target : list nat) (l : list Folder) :
  forall here i,
    (forall j T, target <> here ++ (i + j)%nat :: T) ->
    fpa_loop target (fpa_below target) here i l = None.
Proof.
  apply (forest_induction
    (fun f => forall here,
       (forall j T, target <> here ++ j :: T) ->
       fpa_below target here f = None)
    (fun l => forall here i,
       (forall j T, target <> here ++ (i + j)%nat :: T) ->
       fpa_loop target (fpa_below target) here i l = None)).
  - done.
  - intros f rest IHf IHrest here i Hmiss. simpl.
    destruct (decide (here ++ [i] = target)) as [Heq|_].
    { destruct (Hmiss 0%nat []). by rewrite Nat.add_0_r. }
    rewrite IHf.
    + apply IHrest. intros j T. specialize (Hmiss (S j) T).
      by rewrite Nat.add_succ_r in Hmiss.
    + intros j T Heq. apply (Hmiss 0%nat (j :: T)).
      by rewrite Heq, Nat.add_0_r, <- (assoc_L (++)).
  - intros f IH here Hmiss. rewrite fpa_below_unfold. apply IH.
    intros j T. apply Hmiss.
Qed.

(** At the index the target passes through, the search returns that
    folder or goes on below it. *)
Lemma fpa_loop_hit (here T : list nat) (l : list Folder) :
  forall i j f,
    l !! j = Some f ->
    fpa_loop (here ++ (i + j)%nat :: T) (fpa_below (here ++ (i + j)%nat :: T))
      here i l
    = match T with
      | [] => Some f
      | _ => fpa_below (here ++ (i + j)%nat :: T) (here ++ [(i + j)%nat]) f
      end.
Proof.
  induction l as [|g rest IH]; intros i j f Hj; [done|].
  destruct j as [|j]; simpl in Hj.
  - injection Hj as ->. rewrite Nat.add_0_r. simpl.
    destruct (decide (here ++ [i] = here ++ i :: T)) as [Heq|Hne].
    + apply app_inv_head in Heq. by injection Heq as <-.
    + destruct T as [|j2 T2]; [done|].
      destruct (fpa_below _ (here ++ [i]) f) as [found|] eqn:Hbelow; [done|].
      apply fpa_loop_miss. intros j T Heq.
      apply app_inv_head in Heq. injection Heq as Heq _. lia.
  - simpl.
    destruct (decide (here ++ [i] = here ++ (i + S j)%nat :: T)) as [Heq|_].
    { apply app_inv_head in Heq. injection Heq as Heq _. lia. }
    assert (Hbelow : fpa_below (here ++ (i + S j)%nat :: T) (here ++ [i]) g = None).
    { rewrite fpa_below_unfold. apply fpa_loop_miss. intros j' T' Heq.
      rewrite <- (assoc_L (++) here [i]) in Heq.
      apply app_inv_head in Heq. injection Heq as Heq _. lia. }
    rewrite Hbelow. specialize (IH (S i) j f Hj).
    replace (i + S j)%nat with (S i + j)%nat by lia. exact IH.
Qed.

Lemma fpa_loop_owner (T : list nat) :
  forall here l,
    is_Some (owner T l) ->
    fpa_loop (here ++ T) (fpa_below (here ++ T)) here 0%nat l = owner T l.
Proof.
  induction T as [|j T IH]; intros here l Hsome; [by destruct Hsome|].
  destruct (l !! j) as [f|] eqn:Hj.
  2:{ simpl in Hsome. rewrite Hj in Hsome. destruct T; by destruct Hsome. }
  pose proof (fpa_loop_hit here T l 0%nat j f Hj) as Hhit. simpl in Hhit.
  rewrite Hhit. destruct T as [|j2 T2]; simpl; rewrite Hj; [done|].
  rewrite fpa_below_unfold.
  replace (here ++ j :: j2 :: T2) with ((here ++ [j]) ++ j2 :: T2)
    by (by rewrite <- (assoc_L (++))).
  apply IH. simpl in Hsome. by rewrite Hj in Hsome.
Qed.

Lemma findParentFolderOfArray_owner (T : list nat) (l : list Folder) :
  is_Some (array_at T l) ->
  findParentFolderOfArray T l = owner T l.
Proof.
  intros Harr. unfold findParentFolderOfArray. destruct T as [|j T].
  - apply fpa_loop_miss. intros j T Heq. simpl in Heq. discriminate.
  - apply (fpa_loop_owner (j :: T) []).
    clear -Harr. revert l Harr. revert j.
    induction T as [|j2 T IH]; intros j l Harr; simpl in *.
    + destruct (l !! j); [by eexists|by destruct Harr].
    + destruct (l !! j) as [f|]; [|by destruct Harr]. by apply IH.
Qed.

Lemma owner_snoc (t : list nat) (j : nat) :
  forall l, owner (t ++ [j]) l = folder_at t j l.
Proof.
  induction t as [|k t IH]; intros l; [done|].
  unfold folder_at. simpl. unfold folder_at in IH.
  destruct (l !! k) as [f|]; [|by destruct (t ++ [j])].
  rewrite <- IH. by destruct t.
Qed.

Lemma array_at_snoc (t : list nat) (j : nat) :
  forall l, array_at (t ++ [j]) l = subfolders <$> folder_at t j l.
Proof.
  induction t as [|k t IH]; intros l; unfold folder_at; simpl.
  - by destruct (l !! j).
  - destruct (l !! k) as [f|]; [|done]. apply IH.
Qed.

Lemma along_snoc (t : list nat) (j i : nat) :
  forall l f,
    folder_at (t ++ [j]) i l = Some f ->
    along (t ++ [j]) i l = along t j l ++ [f].
Proof.
  induction t as [|k t IH]; intros l f; unfold folder_at; simpl.
  - destruct (l !! j) as [p|]; [|done]. simpl. by intros ->.
  - destruct (l !! k) as [g|]; [|done]. intros Hf. simpl. f_equal.
    by apply IH.
Qed.

Lemma gfp_loop_chain (l : list Folder) :
  unique_ids l ->
  (forall f, in_tree f l -> fid f <> 0) ->
  forall n t, length t = n ->
  forall c given path fuel,
    truthy_id (Some given) = true ->
    getFolderContext given l = Some c -> trail c = t ->
    (n + 2 <= fuel)%nat ->
    gfp_loop fuel l (Some given) path = Some (along t (index c) l ++ path).
Proof.
  intros Hunique Hnonzero.
  induction n as [|n IH]; intros t Hlen c given path fuel Htruthy Hc Ht Hfuel.
  - destruct t; [|done].
    destruct (getFolderContext_located _ _ _ Hc) as (Harr & Hidx & _).
    rewrite Ht in Harr. simpl in Harr. injection Harr as Harr.
    destruct fuel as [|[|k]]; [lia..|].
    cbn [gfp_loop getFolderContext_nullable]. rewrite Htruthy, Hc, Ht.
    assert (findParentFolderOfArray [] l = None) as ->.
    { rewrite findParentFolderOfArray_owner; [done|by eexists]. }
    simpl. by rewrite Harr, Hidx.
  - revert Hlen Ht. destruct t as [|j t0 _] using rev_ind; intros Hlen Ht;
      [done|].
    rewrite length_app in Hlen. simpl in Hlen.
    destruct (getFolderContext_located _ _ _ Hc) as (Harr & Hidx & _).
    rewrite Ht in Harr.
    pose proof Harr as Hparent. rewrite array_at_snoc in Hparent.
    destruct (folder_at t0 j l) as [P|] eqn:HP; [|done].
    simpl in Hparent. injection Hparent as Hsubs.
    assert (HPtree : in_tree P l) by (apply in_tree_positions; by exists t0, j).
    destruct (getFolderContext (IdNum (fid P)) l) as [c'|] eqn:Hc'.
    2:{ pose proof (proj1 (getFolderContext_None _ _) Hc' P HPtree) as Hno.
        simpl in Hno. by rewrite Z.eqb_refl in Hno. }
    pose proof (folder_at_located _ _ _ Hc') as Hat'.
    destruct (getFolderContext_located _ _ _ Hc') as (_ & _ & Hid').
    simpl in Hid'. apply Z.eqb_eq in Hid'.
    pose proof (Hunique _ _ _ _ _ _ Hat' HP Hid') as Hpos.
    injection Hpos as Htrail' Hindex'.
    destruct fuel as [|k]; [lia|].
    cbn [gfp_loop getFolderContext_nullable]. rewrite Htruthy, Hc, Ht.
    rewrite findParentFolderOfArray_owner by (by eexists).
    rewrite owner_snoc, HP.
    rewrite (IH t0 ltac:(lia) c' (IdNum (fid P)) (folder c :: path) k);
      [|simpl; apply negb_true_iff, Z.eqb_neq; by apply Hnonzero|done|done|lia].
    rewrite Hindex'.
    rewrite (along_snoc t0 j (index c) l (folder c)).
    + by rewrite <- (assoc_L (++)).
    + rewrite <- Ht. by eapply folder_at_located.
Qed.

Lemma along_shape (t : list nat) (i : nat) :
  forall l f,
    folder_at t i l = Some f ->
    last (along t i l) = Some f
    /\ length (along t i l) = S (length t)
    /\ (exists r, head (along t i l) = Some r /\ r ∈ l)
    /\ forall k p g, along t i l !! k = Some p -> along t i l !! S k = Some g ->
                     g ∈ subfolders p.
Proof.
  induction t as [|j t IH]; intros l f; unfold folder_at; simpl.
  - intros Hf. rewrite Hf. simpl. split; [done|]. split; [done|]. split.
    + exists f. split; [done|]. by eapply list_elem_of_lookup_2.
    + by intros [|k] p g.
  - destruct (l !! j) as [r|] eqn:Hj; [|done]. intros Hf.
    destruct (IH (subfolders r) f Hf) as (Hlast & Hlen & (r' & Hhead & Hr') & Hchain).
    split; [|split; [|split]].
    + simpl. destruct (along t i (subfolders r)); [done|exact Hlast].
    + simpl. by rewrite Hlen.
    + exists r. split; [done|]. by eapply list_elem_of_lookup_2.
    + intros [|k] p g; simpl.
      * intros [= <-] Hg.
        destruct (along t i (subfolders r)) as [|x rest]; [done|].
        simpl in *. injection Hg as <-. by injection Hhead as ->.
      * apply Hchain.
Qed.

(** X25.  [getFolderPath] returns the chain of folders from a root folder
    down to the folder asked for.  When no two folders share an id and no
    id is 0 (a falsy id stops the loop), for a truthy id that is found the
    loop ends within the depth of the folder plus two tests, and the path
    starts at a root folder, each folder of it is a subfolder of the one
    before, and it ends with the folder found; its length is the depth of
    the folder.  For an id no folder has, the path is empty. *)
Theorem getFolderPath_is_the_chain_of_ancestors (L : Library) (folderId : IdArg)
    (c : Context) (fuel : nat) :
  let path := along (trail c) (index c) (folders L) in
  unique_ids (folders L) ->
  (forall f, in_tree f (folders L) -> fid f <> 0) ->
  truthy_id (Some folderId) = true ->
  getFolderContext folderId (folders L) = Some c ->
  (length (trail c) + 2 <= fuel)%nat ->
  getFolderPath fuel L folderId = Some path
  /\ last path = Some (folder c)
  /\ length path = S (length (trail c))
  /\ (exists r, head path = Some r /\ r ∈ folders L)
  /\ (forall k p g, path !! k = Some p -> path !! S k = Some g ->
                    g ∈ subfolders p)
  /\ (forall g, getFolderContext g (folders L) = None ->
                getFolderPath fuel L g = Some []).
Proof.
  intros path Hunique Hnonzero Htruthy Hc Hfuel.
  pose proof (folder_at_located _ _ _ Hc) as Hat.
  destruct (along_shape _ _ _ _ Hat) as (Hlast & Hlen & Hhead & Hchain).
  split; [|split; [done|split; [done|split; [done|split; [done|]]]]].
  - unfold getFolderPath.
    rewrite (gfp_loop_chain _ Hunique Hnonzero _ (trail c) eq_refl c folderId
               [] fuel Htruthy Hc eq_refl Hfuel).
    by rewrite app_nil_r.
  - intros g Hg. unfold getFolderPath.
    destruct fuel as [|[|k]]; [lia..|].
    cbn [gfp_loop getFolderContext_nullable]. rewrite Hg.
    by destruct (truthy_id (Some g)).
Qed.

(** ** The tags prompt and its default text *)

Lemma no_comma_trimStart (s : string) : no_comma s -> no_comma (JS.trimStart s).
Proof.
  induction s as [|a r IH]; simpl; [done|]. intros [Ha Hr].
  destruct (JS.is_space a); [by apply IH|done].
Qed.

Lemma no_comma_trimEnd (s : string) : no_comma s -> no_comma (JS.trimEnd s).
Proof.
  induction s as [|a r IH]; simpl; [done|]. intros [Ha Hr]. specialize (IH Hr).
  destruct (JS.trimEnd r); [by destruct (JS.is_space a)|done].
Qed.

Lemma no_comma_strip_hashes (s : string) : no_comma s -> no_comma (JS.strip_hashes s).
Proof.
  induction s as [|a r IH]; simpl; [done|]. intros [Ha Hr].
  destruct (JS.code a =? 35); [by apply IH|done].
Qed.

Lemma no_comma_split_comma (s x : string) : x ∈ JS.split_comma s -> no_comma x.
Proof.
  revert x. induction s as [|a r IH]; intros x; simpl.
  - by intros ->%list_elem_of_singleton.
  - destruct (JS.code a =? 44) eqn:Ha.
    + intros [->|Hx]%elem_of_cons; [done|by apply IH].
    + destruct (JS.split_comma r) as [|h t] eqn:Hsplit.
      * by intros ->%list_elem_of_singleton.
      * intros [->|Hx]%elem_of_cons.
        -- split; [done|]. apply IH. by left.
        -- apply IH. by right.
Qed.

Lemma split_comma_no_comma (s : string) :
  no_comma s -> JS.split_comma s = [s].
Proof.
  induction s as [|a r IH]; simpl; [done|]. intros [-> Hr]. by rewrite IH.
Qed.

Lemma split_comma_app (s rest : string) :
  no_comma s ->
  JS.split_comma (s +:+ String (JS.chr 44) rest) = s :: JS.split_comma rest.
Proof.
  induction s as [|a r IH]; intros Hs.
  - by rewrite append_nil.
  - rewrite append_cons. destruct Hs as [Ha Hr]. simpl. rewrite Ha.
    by rewrite IH.
Qed.

Lemma trimEnd_idemp_tail (a : ascii) (r : string) :
  JS.trimEnd (String a r) = String a r -> r <> EmptyString -> JS.trimEnd r = r.
Proof.
  simpl. destruct (JS.trimEnd r) as [|b r'] eqn:Hr.
  - destruct (JS.is_space a); [done|]. by intros [= <-].
  - by intros [= <-].
Qed.

Lemma trimEnd_trimEnd (s : string) : JS.trimEnd (JS.trimEnd s) = JS.trimEnd s.
Proof.
  induction s as [|a r IH]; simpl; [done|].
  destruct (JS.trimEnd r) as [|b r'] eqn:Hr.
  - destruct (JS.is_space a) eqn:Ha; simpl; [done|]. by rewrite Ha.
  - simpl in *. by rewrite IH.
Qed.

Lemma trimEnd_strip_hashes (s : string) :
  JS.trimEnd s = s -> JS.trimEnd (JS.strip_hashes s) = JS.strip_hashes s.
Proof.
  induction s as [|a r IH]; [done|]. intros Hs. simpl.
  destruct (JS.code a =? 35); [|done].
  destruct r as [|b r']; [done|]. apply IH.
  by apply (trimEnd_idemp_tail a).
Qed.

Lemma trimEnd_cons (a : ascii) (r : string) :
  JS.trimEnd r = r -> r <> EmptyString -> JS.trimEnd (String a r) = String a r.
Proof. intros Hr Hne. simpl. rewrite Hr. by destruct r. Qed.

(** A tag as [editChatTags] stores it. *)
Lemma edited_tag_form (raw : string) (a : ascii) (clean : string) :
  JS.strip_hashes (JS.trim raw) = String a clean ->
  no_comma raw ->
  let t := String (JS.chr 35) (String a clean) in
  no_comma t
  /\ JS.trim t = t
  /\ JS.trim (String (JS.chr 32) t) = t
  /\ JS.strip_hashes t = String a clean.
Proof.
  intros Hclean Hraw t.
  assert (Hend : JS.trimEnd (String a clean) = String a clean).
  { rewrite <- Hclean. apply trimEnd_strip_hashes, trimEnd_trimEnd. }
  assert (Hhead : (JS.code a =? 35) = false).
  { pose proof (strip_hashes_head (JS.trim raw)) as Hh. by rewrite Hclean in Hh. }
  assert (Ht : JS.trimEnd t = t) by (by apply trimEnd_cons).
  split; [|split; [|split]].
  - split; [done|]. rewrite <- Hclean.
    by apply no_comma_strip_hashes, no_comma_trimEnd, no_comma_trimStart.
  - unfold JS.trim. by change (JS.trimStart t) with t.
  - unfold JS.trim. by change (JS.trimStart (String (JS.chr 32) t)) with t.
  - subst t. simpl. by rewrite Hhead.
Qed.

Lemma edited_tags_cons (s rest : string) :
  no_comma s ->
  edited_tags (s +:+ String (JS.chr 44) rest)
  = (let clean := JS.strip_hashes (JS.trim s) in
     if (0 <? Z.of_nat (String.length clean)) then [String (JS.chr 35) clean]
     else [])
    ++ edited_tags rest.
Proof.
  intros Hs. unfold edited_tags. rewrite split_comma_app by done. simpl.
  by destruct (0 <? _).
Qed.

Lemma edited_tags_stored (s t : string) : t ∈ edited_tags s -> stored_tag t.
Proof.
  unfold edited_tags. intros (raw & Hraw & Hsome)%list_elem_of_omap.
  apply no_comma_split_comma in Hraw.
  destruct (JS.strip_hashes (JS.trim raw)) as [|a clean] eqn:Hclean;
    simpl in Hsome; [done|].
  injection Hsome as <-.
  destruct (edited_tag_form raw a clean Hclean Hraw) as (H1 & H2 & H3 & H4).
  split; [done|]. split; [done|]. split; [done|]. by exists a, clean.
Qed.

Lemma edited_tags_one (piece t : string) :
  no_comma piece -> JS.trim piece = t -> stored_tag t ->
  edited_tags piece = [t].
Proof.
  intros Hpiece Htrim (_ & _ & _ & a & clean & -> & Hstrip).
  unfold edited_tags. rewrite split_comma_no_comma by done. simpl.
  by rewrite Htrim, Hstrip.
Qed.

Lemma edited_tags_join (ts : list string) :
  Forall stored_tag ts ->
  edited_tags (Array_join ", " ts) = ts
  /\ (ts <> [] -> edited_tags (String (JS.chr 32) (Array_join ", " ts)) = ts).
Proof.
  induction ts as [|t ts IH]; intros Hall; [done|].
  apply Forall_cons in Hall as [Ht Hts]. specialize (IH Hts).
  pose proof Ht as (Hcomma & Htrim & Hspace & a & clean & Heq & Hstrip).
  destruct ts as [|t2 ts].
  - split; [|intros _].
    + by apply edited_tags_one.
    + by apply edited_tags_one.
  - destruct IH as [_ IH]. specialize (IH ltac:(done)).
    change (Array_join ", " (t :: t2 :: ts))
      with (t +:+ String (JS.chr 44)
                    (String (JS.chr 32) (Array_join ", " (t2 :: ts))))%string.
    split; [|intros _].
    + rewrite edited_tags_cons by done. cbv zeta.
      rewrite Htrim, Hstrip, IH. simpl. by rewrite Heq.
    + rewrite <- append_cons, edited_tags_cons by done. cbv zeta.
      rewrite Hspace, Hstrip, IH. simpl. by rewrite Heq.
Qed.

Section TagsPrompt.
Context `{Host}.

(** X26.  The default text of the tags prompt reads back as the tags it
    shows: the tags that [editChatTags] stores, joined by a comma and a
    space as the prompt does, give the same tags when they are the
    answer.  So editing the tags of a chat and then accepting the prompt
    unchanged leaves the tags as they are. *)
Theorem editChatTags_default_answer_keeps_tags (now1 now2 : Z)
    (chatId answer : string) (w : World) (chat : ChatEntry) :
  let w1 := editChatTags now1 chatId (Some answer) w in
  allChats (folderData w) !! chatId = Some chat ->
  edited_tags (Array_join ", " (edited_tags answer)) = edited_tags answer
  /\ exists chat1,
       allChats (folderData w1) !! chatId = Some chat1
       /\ tags chat1 = edited_tags answer
       /\ exists chat2,
            allChats
              (folderData
                 (editChatTags now2 chatId (Some (Array_join ", " (tags chat1))) w1))
              !! chatId = Some chat2
            /\ tags chat2 = tags chat1.
Proof.
  intros w1 Hchat.
  assert (Hback : edited_tags (Array_join ", " (edited_tags answer))
                  = edited_tags answer).
  { apply edited_tags_join, Forall_forall. intros t. apply edited_tags_stored. }
  split; [exact Hback|].
  assert (Hedit : forall now s w0 chat0,
            allChats (folderData w0) !! chatId = Some chat0 ->
            allChats (folderData (editChatTags now chatId (Some s) w0)) !! chatId
            = Some (mkChatEntry (id chat0) (title chat0) (edited_tags s)
                      (annotation chat0) (timestamp chat0) (Some now))).
  { intros now s w0 chat0 H0. unfold editChatTags. rewrite H0.
    rewrite folderData_refresh_after_edit, folderData_saveAndRefresh. simpl.
    apply lookup_insert_eq. }
  eexists. split; [by apply Hedit|]. split; [done|].
  eexists. split; [apply Hedit; by apply Hedit|]. simpl. exact Hback.
Qed.
End TagsPrompt.

(** ** Restoring a backup *)

Section Restoring.
Context `{Host}.

(** X27.  Restoring a backup replaces the library in memory and reports
    success whatever the gatekeeper decides: a confirmed
    [importDataFromJSON] of a backup always leaves it as [folderData] and
    shows [backup_restore_success]; with the extension context alive, a
    backup within the quota is handed to the storage, while a larger one
    is not written at all and [storage_full_alert] is shown first.  A
    declined restore, an unreadable file and a file that is no backup
    change nothing. *)
Theorem importDataFromJSON_restores_in_memory (importedData : Library) (w : World) :
  let out := importDataFromJSON (Some (backup importedData)) true w in
  let bytes := Blob_size (JSON_stringify importedData) in
  runtime_id w = true ->
  out.1 = Some backup_restore_success
  /\ folderData out.2 = importedData
  /\ (bytes <= QUOTA_LIMIT - SAFETY_BUFFER ->
      sync_set_calls out.2 = importedData :: sync_set_calls w)
  /\ (QUOTA_LIMIT - SAFETY_BUFFER < bytes ->
      sync_set_calls out.2 = sync_set_calls w
      /\ alerts out.2
         = storage_full_alert (JS.kilobytes_toFixed1 bytes) :: alerts w)
  /\ importDataFromJSON (Some (backup importedData)) false w = (None, w)
  /\ importDataFromJSON (Some unreadable) true w = (Some json_parse_error, w)
  /\ importDataFromJSON (Some not_a_backup) true w
     = (Some invalid_backup_format, w).
Proof.
  intros out bytes Hrt.
  destruct (saveAndRefresh_gate (with_folderData w importedData) Hrt)
    as [Hfits Hfull].
  split; [done|]. split; [apply folderData_saveAndRefresh|].
  split; [exact Hfits|]. split; [exact Hfull|]. done.
Qed.
End Restoring.

(** ** The chats of a folder view *)

Lemma sort_insert_Permutation {A : Type} (cmp : A -> A -> Z) (x : A) (l : list A) :
  sort_insert cmp x l ≡ₚ x :: l.
Proof.
  induction l as [|y r IH]; simpl; [done|].
  destruct (cmp x y <=? 0); [done|]. by rewrite IH, Permutation_swap.
Qed.

Lemma Array_sort_Permutation {A : Type} (cmp : A -> A -> Z) (l : list A) :
  Array_sort cmp l ≡ₚ l.
Proof.
  induction l as [|x l IH]; simpl; [done|].
  by rewrite sort_insert_Permutation, IH.
Qed.

Lemma sort_insert_Sorted {A : Type} (key : A -> Z) (x : A) (l : list A) :
  Sorted (fun a b => key b <= key a) l ->
  Sorted (fun a b => key b <= key a)
    (sort_insert (fun a b => key b - key a) x l).
Proof.
  induction 1 as [|y r Hr IH Hhd]; simpl.
  - by repeat constructor.
  - destruct (Z.leb_spec (key y - key x) 0) as [Hle|Hgt].
    + constructor; [by constructor|]. constructor. lia.
    + constructor; [exact IH|].
      destruct r as [|z r']; simpl.
      * constructor. lia.
      * destruct (Z.leb_spec (key z - key x) 0); constructor; [lia|].
        by inversion Hhd.
Qed.

Lemma Array_sort_Sorted {A : Type} (key : A -> Z) (l : list A) :
  Sorted (fun a b => key b <= key a) (Array_sort (fun a b => key b - key a) l).
Proof.
  induction l as [|x l IH]; simpl; [constructor|].
  by apply sort_insert_Sorted.
Qed.

Lemma omap_truthy_Object_get (all : gmap string ChatEntry) (ids : list string) :
  omap (fun c => truthy_property (Object_get all c)) ids
  = omap (fun c => match all !! c with
                   | Some chat => Some (own chat)
                   | None => if bool_decide (c ∈ Object_prototype_keys)
                             then Some (inherited c) else None
                   end) ids.
Proof.
  induction ids as [|c ids IH]; [done|]. cbn [omap list_omap].
  by rewrite truthy_Object_get, IH.
Qed.

Lemma forallb_is_own (l : list Property) :
  forallb is_own l = true <-> forall p, p ∈ l -> exists chat, p = own chat.
Proof.
  rewrite forallb_forall. split.
  - intros Hall p Hp%list_elem_of_In. apply Hall in Hp.
    destruct p; [by eexists|done|done].
  - intros Hall p Hp%list_elem_of_In. by destruct (Hall p Hp) as [chat ->].
Qed.

Section FolderViewFacts.
Variable localeCompare : string -> string -> Z.
Variable alpha_sort_with_member : list Property -> option (list Property).

(** X28.  The folder view lists what [allChats] gives for the ids of the
    folder, each as often as the folder references it: the entry of a chat
    that has one, the inherited member for an id without entry that names
    one, such as [constructor], and nothing for the other ids without
    entry.  The order is that of the sort of the folder.  Sorted by date
    added, a chat never comes before one that was created later; sorted by
    last update, which is the default for a folder without sort order,
    never before one whose last update, or creation when it has none, was
    later; an inherited member counts as time 0.  The alphabetical sort of
    a list with an inherited member is left to the engine, and may
    throw. *)
Theorem showFolderContents_lists_the_entries (folderId : IdArg) (L : Library)
    (context : Context) :
  let ids := chatIds (folder context) in
  let items :=
    omap (fun c => match allChats L !! c with
                   | Some chat => Some (own chat)
                   | None => if bool_decide (c ∈ Object_prototype_keys)
                             then Some (inherited c) else None
                   end) ids in
  let date_added := fun a : Property =>
    match a with
    | own chat => timestamp chat
    | _ => 0
    end in
  let last_update := fun a : Property =>
    match a with
    | own chat =>
        match updatedAt chat with
        | Some u => if u =? 0 then timestamp chat else u
        | None => timestamp chat
        end
    | _ => 0
    end in
  let view :=
    showFolderContents_chats localeCompare alpha_sort_with_member folderId L in
  getFolderContext folderId (folders L) = Some context ->
  (currentSort (folder context) = "alpha"%string ->
   (exists k, k ∈ ids /\ allChats L !! k = None /\ k ∈ Object_prototype_keys) ->
   view = match alpha_sort_with_member items with
          | Some sorted => shown sorted
          | None => sort_throws
          end)
  /\ (currentSort (folder context) <> "alpha"%string
      \/ (forall k, k ∈ ids -> allChats L !! k = None ->
                    k ∉ Object_prototype_keys) ->
      exists chats,
        view = shown chats
        /\ chats ≡ₚ items
        /\ (forall chat, own chat ∈ chats <->
              exists c, c ∈ ids /\ allChats L !! c = Some chat)
        /\ (forall k, inherited k ∈ chats <->
              k ∈ ids /\ allChats L !! k = None /\ k ∈ Object_prototype_keys)
        /\ (undefined ∉ chats)
        /\ (currentSort (folder context) = "created"%string ->
            Sorted (fun a b => date_added b <= date_added a) chats)
        /\ (currentSort (folder context) <> "alpha"%string ->
            currentSort (folder context) <> "created"%string ->
            Sorted (fun a b => last_update b <= last_update a) chats)
        /\ (sortOrder (folder context) = None ->
            Sorted (fun a b => last_update b <= last_update a) chats)).
Proof.
  intros ids items date_added last_update view Hctx.
  assert (Hitem : forall p, p ∈ items <->
    exists c, c ∈ ids
      /\ match allChats L !! c with
         | Some chat => Some (own chat)
         | None => if bool_decide (c ∈ Object_prototype_keys)
                   then Some (inherited c) else None
         end = Some p).
  { intros p. subst items. by rewrite list_elem_of_omap. }
  assert (Hview : view
    = if String.eqb (currentSort (folder context)) "alpha"
         && negb (forallb is_own items)
      then match alpha_sort_with_member items with
           | Some sorted => shown sorted
           | None => sort_throws
           end
      else shown (Array_sort
                    (compare_chats localeCompare (currentSort (folder context)))
                    items)).
  { subst view items ids. unfold showFolderContents_chats.
    by rewrite Hctx, omap_truthy_Object_get. }
  split.
  - intros Halpha (k & Hk & Hentry & Hkey). rewrite Hview, Halpha.
    assert (forallb is_own items = false) as ->; [|done].
    apply not_true_is_false. intros Hown.
    destruct (proj1 (forallb_is_own items) Hown (inherited k)) as [chat [=]].
    apply Hitem. exists k. split; [exact Hk|].
    by rewrite Hentry, bool_decide_eq_true_2.
  - intros Hplain.
    assert (Hsort : view
      = shown (Array_sort
                 (compare_chats localeCompare (currentSort (folder context)))
                 items)).
    { rewrite Hview. destruct Hplain as [Hnot%String.eqb_neq|Hown].
      - by rewrite Hnot.
      - assert (forallb is_own items = true) as ->;
          [|by rewrite andb_false_r].
        apply forallb_is_own. intros p (c & Hc & Hp)%Hitem.
        destruct (allChats L !! c) as [chat|] eqn:Hentry.
        + injection Hp as <-. by eexists.
        + destruct (bool_decide _) eqn:Hkey; [|done].
          apply bool_decide_eq_true in Hkey. by destruct (Hown c Hc Hentry). }
    eexists. split; [exact Hsort|].
    assert (Hperm := Array_sort_Permutation
              (compare_chats localeCompare (currentSort (folder context))) items).
    assert (Hupdated : currentSort (folder context) <> "alpha"%string ->
              currentSort (folder context) <> "created"%string ->
              Sorted (fun a b => last_update b <= last_update a)
                (Array_sort
                   (compare_chats localeCompare (currentSort (folder context)))
                   items)).
    { intros Ha%String.eqb_neq Hc%String.eqb_neq. unfold compare_chats.
      rewrite Ha, Hc. apply (Array_sort_Sorted touched). }
    split; [exact Hperm|]. split; [|split; [|split; [|split; [|split]]]].
    + intros chat. rewrite Hperm, Hitem. split.
      * intros (c & Hc & Hp). exists c. split; [exact Hc|].
        destruct (allChats L !! c); [congruence|].
        by destruct (bool_decide _).
      * intros (c & Hc & Hentry). exists c. by rewrite Hentry.
    + intros k. rewrite Hperm, Hitem. split.
      * intros (c & Hc & Hp). destruct (allChats L !! c) eqn:Hentry; [done|].
        destruct (bool_decide _) eqn:Hkey; [|done].
        injection Hp as <-. by apply bool_decide_eq_true in Hkey.
      * intros (Hk & Hentry & Hkey). exists k. split; [exact Hk|].
        by rewrite Hentry, bool_decide_eq_true_2.
    + rewrite Hperm, Hitem. intros (c & _ & Hp).
      destruct (allChats L !! c); [done|]. by destruct (bool_decide _).
    + intros Hsorted. unfold compare_chats. rewrite Hsorted. simpl.
      apply (Array_sort_Sorted created).
    + exact Hupdated.
    + intros Hnone. apply Hupdated; unfold currentSort; by rewrite Hnone.
Qed.
End FolderViewFacts.

(** ** The diagnostic log *)

Section Diagnostics.
Context `{Host}.

(** X29.  What the diagnostic log counts.  The number of chats is the
    number of entries of [allChats], the unlinked ones are among them, and
    [is_clean] holds exactly when every entry is referenced by a folder.
    The number of folders is that of the root folders only: creating a
    folder at the root adds one, while creating it below a parent leaves
    every count as it is. *)
Theorem diagnostic_counts_follow_the_library (now : Z) (parentId : IdArg)
    (a : ascii) (r : string) (w : World) :
  let L := folderData w in
  let counts := diagnostic_counts L in
  let below := folderData
                 (createNewFolder now (Some parentId) (Some (String a r)) w).2 in
  let top := folderData (createNewFolder now None (Some (String a r)) w).2 in
  count_chats counts = size (allChats L)
  /\ (count_unlinked counts <= count_chats counts)%nat
  /\ (diagnostic_is_clean L = true <->
      forall c, is_Some (allChats L !! c) -> referenced L c)
  /\ count_folders (diagnostic_counts top) = S (count_folders counts)
  /\ (truthy_id (Some parentId) = true ->
      count_folders (diagnostic_counts below) = count_folders counts
      /\ count_chats (diagnostic_counts below) = count_chats counts
      /\ count_unlinked (diagnostic_counts below) = count_unlinked counts).
Proof.
  intros L counts below top. subst counts.
  split; [|split; [|split; [|split]]].
  - simpl. unfold Object_keys. by rewrite length_fmap, length_map_to_list.
  - simpl. unfold findUnlinked. apply length_filter.
  - unfold diagnostic_is_clean. rewrite Nat.eqb_eq, length_zero_iff_nil.
    rewrite findUnlinked_nil. done.
  - subst top. unfold createNewFolder. simpl.
    rewrite folderData_saveAndRefresh. simpl. rewrite length_app. simpl.
    subst L. lia.
  - intros Htruthy. subst below. unfold createNewFolder. rewrite Htruthy.
    cbn [getFolderContext_nullable]. fold L.
    destruct (getFolderContext parentId (folders L)) as [ctx|] eqn:Hctx; [|done].
    cbn [snd]. rewrite folderData_saveAndRefresh.
    cbn [folderData with_folderData].
    set (l' := update_folder _ ctx (folders L)).
    assert (Hrefs : forall c, somewhere (refers c) l'
                              <-> somewhere (refers c) (folders L)).
    { intros c. subst l'. unfold update_folder.
      destruct (getFolderContext_located _ _ _ Hctx) as (Harr & Hi & _).
      rewrite (somewhere_push _ _ _ _ _ _ _ (refers_shallow c) Harr Hi).
      rewrite somewhere_single. simpl. unfold refers at 2. simpl.
      split; [|tauto]. intros [?|[?%elem_of_nil|?%somewhere_nil]]; done. }
    split; [|split].
    + simpl. subst l'. unfold update_folder.
      destruct (trail ctx) as [|j t]; simpl; by rewrite length_alter.
    + done.
    + simpl. f_equal. by apply (findUnlinked_same L (set_folders L l')).
Qed.
End Diagnostics.

(** ** The properties above on the sample library *)

Lemma sample_integral : integral Sample.library.
Proof.
  intros c (f & Hf & Hin). unfold refers in Hin.
  destruct (sample_folders f Hf) as [-> | [-> | [-> | ->]]]; simpl in Hin.
  - apply list_elem_of_singleton in Hin as ->. by eexists.
  - apply elem_of_cons in Hin as [-> | Hin%list_elem_of_singleton];
      [|subst c]; by eexists.
  - by apply elem_of_nil in Hin.
  - by apply elem_of_nil in Hin.
Qed.

Lemma sample_fresh (f : Folder) :
  in_tree f (folders Sample.library) -> fid f <> 5000.
Proof.
  intros Hf. by destruct (sample_folders f Hf) as [-> | [-> | [-> | ->]]].
Qed.

Lemma sample_unreferenced : ~ referenced Sample.library "c9".
Proof.
  intros (f & Hf & Hin).
  destruct (sample_folders f Hf) as [-> | [-> | [-> | ->]]]; simpl in Hin.
  - by apply list_elem_of_singleton in Hin.
  - by apply elem_of_cons in Hin as [?|?%list_elem_of_singleton].
  - by apply elem_of_nil in Hin.
  - by apply elem_of_nil in Hin.
Qed.

(** X5 on the sample: [Old] is moved from below [Drafts] into [Archive]. *)
Lemma handleMoveFolder_keeps_references_witness :
  let w := Sample.world Sample.library in
  let L' := folderData
              (handleMoveFolder (H := reference_host) (IdNum 3) (IdNum 4) w) in
  allChats L' = allChats Sample.library
  /\ (forall c, referenced L' c <-> referenced Sample.library c)
  /\ findUnlinked L' = findUnlinked Sample.library
  /\ in_tree Sample.old (folders L').
Proof.
  intros w L'.
  destruct (handleMoveFolder_keeps_references (H := reference_host)
              (IdNum 3) (IdNum 4) w
              (mkContext Sample.old [Sample.old] 0%nat [0%nat; 0%nat]))
    as (H1 & H2 & H3 & H4 & _); [reflexivity|right; by eexists|].
  exact (conj H1 (conj H2 (conj H3 H4))).
Defined.

(** X6 on the sample: [c2] is moved from [Archive] to [Drafts]. *)
Lemma handleMoveChat_moves_one_reference_witness :
  let w := Sample.world Sample.library in
  let L' := folderData
              (handleMoveChat (H := reference_host) "c2" (Some (IdNum 4))
                 (IdStr "2") w) in
  allChats L' = allChats Sample.library
  /\ map without_chatIds (folders L')
     = map without_chatIds (folders Sample.library).
Proof.
  intros w L'.
  destruct (handleMoveChat_moves_one_reference (H := reference_host)
              "c2" (IdNum 4) (IdStr "2") w
              (mkContext Sample.archive (folders Sample.library) 1%nat [])
              (mkContext Sample.drafts [Sample.drafts] 0%nat [0%nat]))
    as (H1 & H2 & _); [reflexivity|reflexivity|].
  exact (conj H1 H2).
Defined.

(** X7 on the sample: the menu for [c2] in [Archive] offers [Drafts]. *)
Lemma move_menu_keeps_the_chat_witness :
  let w := Sample.world Sample.library in
  referenced
    (folderData (handleMoveChat (H := reference_host) "c2" (Some (IdNum 4))
                   (data_fid Sample.drafts) w))
    "c2".
Proof.
  intros w.
  refine (proj1 (proj2 (proj2 (proj2
    (move_menu_keeps_the_chat (H := reference_host) "c2" (IdNum 4) w
       (mkContext Sample.archive (folders Sample.library) 1%nat [])
       Sample.drafts eq_refl _))))).
  apply list_elem_of_In. vm_compute. right. left. reflexivity.
Defined.

(** X8 on the sample: a folder [Notes] is created below [Drafts]. *)
Lemma createNewFolder_then_lookup_witness :
  let w := Sample.world Sample.library in
  let L' := folderData
              (createNewFolder (H := reference_host) 5000 (Some (IdNum 2))
                 (Some "Notes") w).2 in
  exists ctx,
    getFolderContext (IdNum 5000) (folders L') = Some ctx
    /\ folder ctx = mkFolder 5000 (JS.trim "Notes") [] [] EmptyString None.
Proof.
  intros w L'.
  refine (proj1 (proj2 (proj2 (proj2
    (createNewFolder_then_lookup (H := reference_host) 5000 (Some (IdNum 2))
       "N" "otes" w sample_fresh _))))).
  intros _. by eexists.
Defined.

(** X9 on the sample: [c3], which has an entry, is moved into [Drafts]. *)
Lemma chat_operations_keep_integrity_witness :
  integral
    (folderData
       (handleMoveChat (H := reference_host) "c3" (Some (IdNum 1)) (IdNum 2)
          (Sample.world Sample.library))).
Proof.
  refine (proj1 (proj2 (proj2 (proj2 (proj2
    (chat_operations_keep_integrity (H := reference_host)
       (Sample.world Sample.library) sample_integral)))))
    "c3" (Some (IdNum 1)) (IdNum 2) _).
  by eexists.
Defined.

(** X10 on the sample: [Research] is deleted with everything below it. *)
Lemma folder_operations_keep_integrity_witness :
  integral
    (folderData
       (deleteFolder (H := reference_host) (IdNum 1) true
          (Sample.world Sample.library))).
Proof.
  exact (proj1 (proj2
    (folder_operations_keep_integrity (H := reference_host)
       (Sample.world Sample.library) sample_integral)) (IdNum 1) true).
Defined.

(** X11 on the sample with one pin: a second query is pinned. *)
Lemma pinned_searches_stay_bounded_witness :
  let L := set_pinnedSearches Sample.library [mkPinnedSearch 10 "Work" "#work"] in
  pins_ok
    (folderData
       (pinCurrentSearch (H := reference_host) 20 "roadmap" (Some "Plans")
          (Sample.world L)).2).
Proof.
  intros L.
  refine (proj1
    (pinned_searches_stay_bounded (H := reference_host) 20 "roadmap"
       (Some "Plans"%string) 10 true (Sample.world L) _)).
  split; [simpl; lia|apply NoDup_singleton].
Defined.

(** X12 on an address with a query part. *)
Lemma extractChatId_reads_chat_url_witness :
  Url.extractChatId
    ("https://gemini.google.com/app/chat/" +:+ "abc123" +:+ "?hl=en")
  = Some "abc123"%string.
Proof.
  refine (proj1 (proj2
    (extractChatId_reads_chat_url "abc123" "?hl=en" _ _ _))).
  - discriminate.
  - vm_compute. tauto.
  - reflexivity.
Defined.

(** X14 on two cells that differ in a comma. *)
Lemma escapeCsv_keeps_cells_apart_witness :
  Csv.escapeCsv "a,b" <> Csv.escapeCsv "ab".
Proof.
  refine (proj1 (escapeCsv_keeps_cells_apart "a,b" "ab" _)). discriminate.
Defined.

(** X15 on a query in capitals and the chat [a1] of the shelf, whose
    title and note begin with a capital. *)
Lemma search_ignores_case_witness :
  Query.tokenize "BUDGET #Q1" = Query.tokenize "budget #q1"
  /\ isMatch Shelf.a1 (Query.tokenize "BUDGET #Q1") = true
  /\ isMatch Shelf.a1 (Query.tokenize "SAID #Q2") = false.
Proof.
  pose (small :=
    mkChatEntry "a1" "budget, 2024" ["#q1"; "#plan"]
      ("he said " +:+ Shelf.quote +:+ "ok" +:+ Shelf.quote) 1 (Some 9)).
  assert (Hquery : same_text "BUDGET #Q1" "budget #q1").
  { cbn [same_text]. repeat split;
      first [by left | right; left; split; reflexivity]. }
  assert (Hchat : same_chat Shelf.a1 small).
  { split; [|split].
    - cbn. repeat split; first [by left | right; left; split; reflexivity].
    - cbn. repeat split; first [by left | right; left; split; reflexivity].
    - cbn [tags Shelf.a1 small].
      constructor; [|constructor; [|constructor]];
        cbn [same_text]; repeat split; by left. }
  destruct (search_ignores_case "BUDGET #Q1" "budget #q1" Shelf.a1 small
              (Query.tokenize "budget #q1") Hquery Hchat) as (Htokens & Hmatch & _).
  split; [exact Htokens|]. split.
  - rewrite Htokens, Hmatch. vm_compute. reflexivity.
  - vm_compute. reflexivity.
Defined.

(** X17 on the sample: a new chat is imported into [Drafts]; the id
    [constructor] is not. *)
Lemma addChatByUrl_links_the_chat_witness :
  let w := Sample.world Sample.library in
  let L' := folderData
              (addChatByUrl (H := reference_host) 7000 7001 (IdNum 2)
                 (Some (Url.chat_url "c9")) (Some "Typed"%string) None None w).2 in
  chatIds <$> folder_at [0%nat] 0%nat (folders L') = Some ["c9"%string]
  /\ addChatByUrl (H := reference_host) 7000 7001 (IdNum 2)
       (Some (Url.chat_url "constructor")) (Some "Typed"%string) None None w
     = (Some uncaught_TypeError, w).
Proof.
  intros w L'. split.
  - refine (proj1 (proj2 (proj2 (proj2
      (addChatByUrl_links_the_chat (H := reference_host) 7000 7001 (IdNum 2)
         "c9" "Typed" None None w
         (mkContext Sample.drafts [Sample.drafts] 0%nat [0%nat]) _ _ _ eq_refl))
      _ _))).
    + discriminate.
    + vm_compute. tauto.
    + discriminate.
    + simpl. apply not_elem_of_nil.
    + right. refine (bool_decide_unpack _ _). vm_compute. exact I.
  - refine (proj1 (proj2
      (addChatByUrl_links_the_chat (H := reference_host) 7000 7001 (IdNum 2)
         "constructor" "Typed" None None w
         (mkContext Sample.drafts [Sample.drafts] 0%nat [0%nat]) _ _ _ eq_refl))
      _ _ _).
    + discriminate.
    + vm_compute. tauto.
    + discriminate.
    + simpl. apply not_elem_of_nil.
    + reflexivity.
    + apply list_elem_of_here.
Defined.

(** X18 on the sample: the tags of [c1] are edited. *)
Lemma chat_editors_touch_one_entry_witness :
  let w := Sample.world Sample.library in
  folders (folderData (editChatAnnotation (H := reference_host) 9000 "c1"
                         (Some " revised "%string) w))
  = folders Sample.library
  /\ allChats (folderData (editChatAnnotation (H := reference_host) 9000 "c1"
                             (Some " revised "%string) w))
     = <[ "c1"%string :=
            mkChatEntry "c1" "Pricing Study" ["#strategy"%string]
              (JS.trim " revised ") 1000 (Some 9000) ]>
         (allChats Sample.library).
Proof.
  intros w.
  destruct (chat_editors_touch_one_entry (H := reference_host) 9000 "c1"
              " revised " w Sample.c1 eq_refl)
    as (_ & _ & (H1 & H2 & _) & _).
  exact (conj H1 H2).
Defined.

(** X20 on the sample, from an empty history of writes. *)
Lemma every_write_is_within_quota_witness :
  within_quota (H := reference_host)
    (deleteFolder (H := reference_host) (IdNum 1) true
       (Sample.world Sample.library)).
Proof.
  refine (proj1 (proj2 (proj2 (proj2 (proj2 (proj2 (proj2 (proj2
    (every_write_is_within_quota (H := reference_host)
       (Sample.world Sample.library) _))))))))
    (IdNum 1) true).
  intros L HL. simpl in HL. by apply elem_of_nil in HL.
Defined.

(** X21 on the sample: [Drafts] is renamed. *)
Lemma folder_editors_touch_one_field_witness :
  let w := Sample.world Sample.library in
  name <$> folder_at [0%nat] 0%nat
             (folders (folderData
                (renameFolder (H := reference_host) (IdNum 2)
                   (Some " Sketches "%string) w)))
  = Some (JS.trim " Sketches ").
Proof.
  intros w.
  destruct (folder_editors_touch_one_field (H := reference_host) (IdNum 2)
              " Sketches " w
              (mkContext Sample.drafts [Sample.drafts] 0%nat [0%nat]) eq_refl)
    as (Hrename & _).
  destruct Hrename as (_ & Hfields); [discriminate|].
  exact (proj2 (Hfields [0%nat] 0%nat)).
Defined.

(** X22 on the sample: a new chat is saved to [Drafts] and taken back. *)
Lemma save_then_remove_round_trip_witness :
  let w := Sample.world Sample.library in
  folderData
    (removeChatFromFolder (H := reference_host) "c9" (Some (IdNum 2)) true
       (saveChatToFolder (H := reference_host) 7000 7001 (IdNum 2) "c9" "New"
          ["draft"%string] "" w).2)
  = Sample.library.
Proof.
  intros w.
  exact (proj1 (proj2
    (save_then_remove_round_trip (H := reference_host) 7000 7001 (IdNum 2)
       "c9" "New" ["draft"%string] "" w
       (mkContext Sample.drafts [Sample.drafts] 0%nat [0%nat])
       eq_refl eq_refl sample_unreferenced))).
Defined.

Lemma sample_unique_ids : unique_ids (folders Sample.library).
Proof.
  intros t i f t' i' f' Hf Hf' Hid.
  destruct (sample_positions t i f Hf) as [Heq|[Heq|[Heq|Heq]]];
    destruct (sample_positions t' i' f' Hf') as [Heq'|[Heq'|[Heq'|Heq']]];
    injection Heq as -> -> ->; injection Heq' as -> -> ->;
    done.
Qed.

Lemma sample_nonzero (f : Folder) :
  in_tree f (folders Sample.library) -> fid f <> 0.
Proof.
  intros Hf. by destruct (sample_folders f Hf) as [-> | [-> | [-> | ->]]].
Qed.

(** X23 on the shelf: the file, with a title and tags that hold a comma, a
    note that holds quotes and one that holds a line feed, an id without
    entry, the id [constructor], and a subfolder. *)
Lemma exportDataAsCSV_one_line_per_link_witness :
  CsvExport.exportDataAsCSV Shelf.header (Shelf.library None) = Shelf.csv.
Proof.
  refine (eq_trans
    (proj1 (exportDataAsCSV_one_line_per_link Shelf.header (Shelf.library None)))
    _).
  vm_compute. reflexivity.
Defined.

(** X24 on a tag followed by an excluded word. *)
Lemma query_terms_are_conjoined_witness :
  Query.tokenize ("#work" +:+ String " " "-old")
  = Query.tokenize "#work" ++ Query.tokenize "-old".
Proof.
  refine (proj1
    (query_terms_are_conjoined "#work" "-old" " " Sample.c1 eq_refl _)).
  vm_compute. tauto.
Defined.

(** X25 on the sample: the path of [Old] is [Research], [Drafts], [Old]. *)
Lemma getFolderPath_is_the_chain_of_ancestors_witness :
  getFolderPath 4 Sample.library (IdStr "3")
  = Some [Sample.research; Sample.drafts; Sample.old].
Proof.
  exact (proj1
    (getFolderPath_is_the_chain_of_ancestors Sample.library (IdStr "3")
       (mkContext Sample.old [Sample.old] 0%nat [0%nat; 0%nat]) 4
       sample_unique_ids sample_nonzero eq_refl eq_refl (le_n 4))).
Defined.

(** X26 on the sample: the tags of [c1] are edited, then the prompt is
    accepted as it stands. *)
Lemma editChatTags_default_answer_keeps_tags_witness :
  edited_tags (Array_join ", " (edited_tags " plan, ##draft ,,#q3 "))
  = edited_tags " plan, ##draft ,,#q3 ".
Proof.
  exact (proj1
    (editChatTags_default_answer_keeps_tags (H := reference_host) 9000 9001
       "c1" " plan, ##draft ,,#q3 " (Sample.world Sample.library) Sample.c1
       eq_refl)).
Defined.

(** X27 on the sample: the sample library is restored over an empty one. *)
Lemma importDataFromJSON_restores_in_memory_witness :
  folderData
    (importDataFromJSON (H := reference_host) (Some (backup Sample.library)) true
       (Sample.world empty_library)).2
  = Sample.library.
Proof.
  exact (proj1 (proj2
    (importDataFromJSON_restores_in_memory (H := reference_host) Sample.library
       (Sample.world empty_library) eq_refl))).
Defined.

(** X28 on the shelf: the view of [Inbox] by last update, by date added,
    and in alphabetical order on an engine whose sort calls the inherited
    member first. *)
Lemma showFolderContents_lists_the_entries_witness :
  let view := fun order =>
    showFolderContents_chats (fun _ _ => 0) (fun _ => None) (IdNum 7)
      (Shelf.library order) in
  view None = shown [own Shelf.a1; own Shelf.b2; inherited "constructor"]
  /\ view (Some "created"%string)
     = shown [own Shelf.b2; own Shelf.a1; inherited "constructor"]
  /\ view (Some "alpha"%string) = sort_throws.
Proof.
  intros view. subst view. cbv beta.
  pose (shelf := fun order =>
    showFolderContents_lists_the_entries (fun _ _ => 0) (fun _ => None)
      (IdNum 7) (Shelf.library order)
      (mkContext (Shelf.inbox order) (folders (Shelf.library order)) 0%nat [])
      eq_refl).
  split; [|split].
  - destruct (proj2 (shelf None)) as (chats & Hview & _).
    { left. by vm_compute. }
    rewrite Hview. vm_compute in Hview. by injection Hview as <-.
  - destruct (proj2 (shelf (Some "created"%string))) as (chats & Hview & _).
    { left. by vm_compute. }
    rewrite Hview. vm_compute in Hview. by injection Hview as <-.
  - refine (proj1 (shelf (Some "alpha"%string)) eq_refl _).
    exists "constructor"%string. split; [|split].
    + refine (bool_decide_unpack _ _). vm_compute. exact I.
    + reflexivity.
    + apply list_elem_of_here.
Defined.
